(** * A shallow embedding of [tsp_solver.py]

    The solver class [TSPSolver] of the repository is embedded function by
    function.  Conventions of the embedding:

    - Python integers (city indices, bit masks, iteration budgets) are [Z];
      the bit operations of the exact solver are [Z.land], [Z.lnot] and
      [Z.shiftl], which agree with Python's on unbounded integers.
    - The distance matrix is an array of dtype int64, which is what
      [np.array] makes of the lists of Python integers that the tests and
      the examples of the repository pass.  An entry is the integer it
      stores; a sum with a [numpy] scalar is again a scalar of dtype int64
      and wraps around at 64 bits: [np_add].  Arrays of dtype float64, whose
      sums are rounded, are outside the model.  [float('inf')], which the
      exact solver uses as the initial minimum, is the constructor [Inf] of
      [ecost].
    - A call either returns, raises, or (for the [while] loops that are run
      with a step budget) exhausts the budget: the type [outcome].  The
      theorems show that the budgets given to the loops are never exhausted.
    - The [for] loops are [for_each] with the loop variables as its state;
      the dictionaries of the code are [gmap]s, its sets are [gset]s where
      only membership matters and lists where the order of iteration does.
    - [execution_time] is wall-clock time and is left out of [TSPResult]. *)

From Stdlib Require Import ZArith Lia QArith_base.
From stdpp Require Import base option list gmap strings.

Open Scope Z_scope.

(** ** Exceptions and outcomes *)

Inductive exn : Type :=
  | ValueError (msg : string)
  | KeyError
  | IndexError.

Inductive outcome (A : Type) : Type :=
  | Ret (a : A)
  | Raise (e : exn)
  | OutOfFuel.
Arguments Ret {A} a.
Arguments Raise {A} e.
Arguments OutOfFuel {A}.

#[global] Instance outcome_ret : MRet outcome := λ A a, Ret a.
#[global] Instance outcome_bind : MBind outcome := λ A B f m,
  match m with
  | Ret a => f a
  | Raise e => Raise e
  | OutOfFuel => OutOfFuel
  end.

(** A [for] loop over [l] that threads the loop state [b]. *)
Fixpoint for_each {A B : Type} (l : list A) (b : B) (body : B → A → outcome B)
  : outcome B :=
  match l with
  | [] => Ret b
  | x :: l' => b' ← body b x; for_each l' b' body
  end.

(** [range(lo, hi)] *)
Definition range (lo hi : Z) : list Z := seqZ lo (hi - lo).

(** ** Scalars of dtype int64 *)

(** The integer that the low 64 bits of [z] denote in two's complement. *)
Definition int64 (z : Z) : Z := (z + 2 ^ 63) `mod` 2 ^ 64 - 2 ^ 63.

(** [a + b] where [b] is a [numpy] scalar of dtype int64 and [a] is such a
    scalar or a Python integer: the sum is a scalar of dtype int64, and a sum
    that does not fit wraps around. *)
Definition np_add (a b : Z) : Z := int64 (a + b).

(** ** Costs with infinity *)

Inductive ecost : Type :=
  | Fin (z : Z)
  | Inf.

(** [c + w] for a cost [c] that may be [float('inf')] and an entry [w] *)
Definition ecost_add (c : ecost) (w : Z) : ecost :=
  match c with
  | Fin z => Fin (np_add z w)
  | Inf => Inf
  end.

(** [a < b] on costs that may be [float('inf')] *)
Definition ecost_ltb (a b : ecost) : bool :=
  match a, b with
  | Fin x, Fin y => x <? y
  | Fin _, Inf => true
  | Inf, _ => false
  end.

(** ** The distance matrix *)

(** A two-dimensional [numpy] array: its shape and its entries.  Entries are
    read through [getitem2], which does the index check of [numpy]. *)
Record ndarray : Type := mk_ndarray {
  shape0 : nat;
  shape1 : nat;
  item : nat → nat → Z
}.

(** [np.array(rows)] for a rectangular list of rows *)
Definition np_array (rows : list (list Z)) : ndarray :=
  {| shape0 := length rows;
     shape1 := length (default [] (head rows));
     item := λ i j, default 0 (rows !! i ≫= (.!! j)) |}.

(** The entries of an array of dtype int64 are integers of 64 bits. *)
Definition dtype_int64 (m : ndarray) : Prop :=
  ∀ i j, (i < shape0 m)%nat → (j < shape1 m)%nat →
    - 2 ^ 63 ≤ item m i j < 2 ^ 63.

(** Index normalisation of a sequence of length [len]: negative indices count
    from the end, anything outside [-len, len) raises [IndexError]. *)
Definition index (len : nat) (i : Z) : outcome nat :=
  if bool_decide (0 ≤ i < Z.of_nat len) then Ret (Z.to_nat i)
  else if bool_decide (- Z.of_nat len ≤ i < 0) then Ret (Z.to_nat (i + Z.of_nat len))
  else Raise IndexError.

(** [m[a][b]] *)
Definition getitem2 (m : ndarray) (a b : Z) : outcome Z :=
  i ← index (shape0 m) a;
  j ← index (shape1 m) b;
  Ret (item m i j).

(** [np.diag(m)] *)
Definition np_diag (m : ndarray) : list Z :=
  (λ i, item m i i) <$> seq 0 (Nat.min (shape0 m) (shape1 m)).

(** ** Results *)

Record TSPResult : Type := mk_result {
  tour : list Z;
  cost : ecost;
  algorithm : string;
  num_cities : nat;
  is_optimal : bool;
  approximation_ratio : option Q
}.

(** ** The solver object *)

Record TSPSolver : Type := mk_solver {
  distance_matrix : ndarray;
  n : nat
}.

Definition validate_input (self : TSPSolver) : outcome unit :=
  if bool_decide (shape0 (distance_matrix self) ≠ shape1 (distance_matrix self))
  then Raise (ValueError "Distance matrix must be square")
  else if bool_decide (n self < 2)%nat
  then Raise (ValueError "Need at least 2 cities")
  else if negb (forallb (λ x, bool_decide (x = 0)) (np_diag (distance_matrix self)))
  then Raise (ValueError "Diagonal elements must be zero")
  else Ret ().

(** [TSPSolver.__init__]: the only way a solver object comes into being. *)
Definition init (dm : ndarray) : outcome TSPSolver :=
  let self := {| distance_matrix := dm; n := shape0 dm |} in
  _ ← validate_input self;
  Ret self.

(** Python's [l[i]] on a list, for a non-negative index. *)
Definition list_get (l : list Z) (i : nat) : outcome Z :=
  match l !! i with
  | Some x => Ret x
  | None => Raise IndexError
  end.

Definition calculate_tour_cost (self : TSPSolver) (t : list Z) : outcome Z :=
  for_each (seq 0 (length t)) 0 (λ acc i,
    a ← list_get t i;
    b ← list_get t ((i + 1) `mod` length t)%nat;
    w ← getitem2 (distance_matrix self) a b;
    Ret (np_add acc w)).

(** ** The exact solver (Held-Karp) *)

(** [itertools.combinations(l, k)], in the order in which the library yields
    them. *)
Fixpoint combinations {A : Type} (l : list A) (k : nat) : list (list A) :=
  match k, l with
  | O, _ => [[]]
  | S _, [] => []
  | S k', x :: l' => ((x ::.) <$> combinations l' k') ++ combinations l' k
  end.

(** [sum(xs)] *)
Definition sum (xs : list Z) : Z := foldl Z.add 0 xs.

(** [dp.get(key, (float('inf'), -1))] *)
Definition dp_get (dp : gmap (Z * Z) (ecost * Z)) (key : Z * Z) : ecost * Z :=
  default (Inf, -1) (dp !! key).

(** The loop [for prev in subset] of [held_karp]: the cheapest way to arrive
    at [last] and the predecessor that gives it. *)
Definition hk_min_prev (self : TSPSolver) (dp : gmap (Z * Z) (ecost * Z))
    (subset : list Z) (bits last : Z) : outcome (ecost * Z) :=
  let prev_bits := Z.land bits (Z.lnot (Z.shiftl 1 last)) in
  for_each subset (Inf, -1) (λ '(min_cost, min_prev) prev,
    if bool_decide (prev = last) || negb (bool_decide (prev ∈ subset))
    then Ret (min_cost, min_prev)
    else
      let prev_cost := (dp_get dp (prev_bits, prev)).1 in
      w ← getitem2 (distance_matrix self) prev last;
      let c := ecost_add prev_cost w in
      if ecost_ltb c min_cost then Ret (c, prev) else Ret (min_cost, min_prev)).

(** The body of [for subset in combinations(...)]. *)
Definition hk_subset (self : TSPSolver) (dp : gmap (Z * Z) (ecost * Z))
    (subset0 : list Z) : outcome (gmap (Z * Z) (ecost * Z)) :=
  let subset := 0 :: subset0 in
  let bits := sum ((λ i, Z.shiftl 1 i) <$> subset) in
  for_each subset dp (λ dp last,
    if bool_decide (last = 0) then Ret dp
    else
      e ← hk_min_prev self dp subset bits last;
      Ret (<[(bits, last) := e]> dp)).

(** The table after the loop over subset sizes. *)
Definition hk_table (self : TSPSolver) : outcome (gmap (Z * Z) (ecost * Z)) :=
  for_each (range 2 (Z.of_nat (n self) + 1)) {[ (1, 0) := (Fin 0, -1) ]}
    (λ dp subset_size,
      for_each (combinations (range 1 (Z.of_nat (n self))) (Z.to_nat (subset_size - 1)))
        dp (hk_subset self)).

(** The [while current != 0] loop of [reconstruct_path_hk], run with a step
    budget. *)
Fixpoint hk_walk (fuel : nat) (dp : gmap (Z * Z) (ecost * Z))
    (path : list Z) (current_mask current : Z) : outcome (list Z) :=
  if bool_decide (current = 0) then Ret path
  else match fuel with
       | O => OutOfFuel
       | S fuel' =>
           match dp !! (current_mask, current) with
           | None => Raise KeyError
           | Some (_, prev) =>
               if bool_decide (prev = -1) then Ret path
               else hk_walk fuel' dp (path ++ [prev])
                      (Z.land current_mask (Z.lnot (Z.shiftl 1 current))) prev
           end
       end.

Definition reconstruct_path_hk (fuel : nat) (dp : gmap (Z * Z) (ecost * Z))
    (mask last : Z) : outcome (list Z) :=
  path ← hk_walk fuel dp [last] mask last;
  Ret (reverse path).

(** [held_karp].  The walk back through the table is given the budget [n]:
    every step clears one bit of the mask. *)
Definition held_karp (self : TSPSolver) : outcome TSPResult :=
  if bool_decide (20 < n self)%nat
  then Raise (ValueError "Held-Karp: Too many cities (max 20 for practical computation)")
  else
    dp ← hk_table self;
    let all_cities_mask := Z.shiftl 1 (Z.of_nat (n self)) - 1 in
    '(min_cost, last_city) ←
      for_each (range 1 (Z.of_nat (n self))) (Inf, -1) (λ '(min_cost, last_city) i,
        let c0 := (dp_get dp (all_cities_mask, i)).1 in
        w ← getitem2 (distance_matrix self) i 0;
        let c := ecost_add c0 w in
        if ecost_ltb c min_cost then Ret (c, i) else Ret (min_cost, last_city));
    t ← reconstruct_path_hk (n self) dp all_cities_mask last_city;
    Ret {| tour := t;
           cost := min_cost;
           algorithm := "Held-Karp (Exact DP)";
           num_cities := n self;
           is_optimal := true;
           approximation_ratio := None |}.

(** ** Python sequences, sets and heaps used by the heuristics *)

(** [l[i]] and [l[i] = x] on a Python list, for any integer index. *)
Definition py_get {A : Type} (l : list A) (i : Z) : outcome A :=
  k ← index (length l) i;
  match l !! k with
  | Some x => Ret x
  | None => Raise IndexError
  end.

Definition py_set {A : Type} (l : list A) (i : Z) (x : A) : outcome (list A) :=
  k ← index (length l) i;
  Ret (<[k := x]> l).

(** [min(xs, key=key)]: the first element, in the order of iteration, whose
    key is least. *)
Definition py_min (xs : list Z) (key : Z → outcome Z) : outcome Z :=
  match xs with
  | [] => Raise (ValueError "min() arg is an empty sequence")
  | x :: xs' =>
      kx ← key x;
      r ← for_each xs' (x, kx) (λ '(best, kbest) y,
             ky ← key y;
             if bool_decide (ky < kbest) then Ret (y, ky) else Ret (best, kbest));
      Ret r.1
  end.

(** A set of integers whose order of iteration matters to the code is the
    list of its (distinct) elements.  [s.remove(x)] raises [KeyError] when
    [x] is absent. *)
Definition set_remove (x : Z) (s : list Z) : outcome (list Z) :=
  if bool_decide (x ∈ s) then Ret (filter (λ y, y ≠ x) s) else Raise KeyError.

(** [l.remove(x)] on a list: the first occurrence goes. *)
Fixpoint list_remove (x : Z) (l : list Z) : outcome (list Z) :=
  match l with
  | [] => Raise (ValueError "list.remove(x): x not in list")
  | y :: l' => if bool_decide (y = x) then Ret l'
               else l'' ← list_remove x l'; Ret (y :: l'')
  end.

(** [l.pop()] on a list: the last element and the rest. *)
Definition list_pop (l : list Z) : option (Z * list Z) :=
  match last l with
  | Some x => Some (x, removelast l)
  | None => None
  end.

(** Order of the tuples [(weight, u, v)] kept in the heap. *)
Definition tuple_ltb (a b : Z * Z * Z) : bool :=
  let '(w1, u1, v1) := a in
  let '(w2, u2, v2) := b in
  bool_decide (w1 < w2) ||
  (bool_decide (w1 = w2) &&
    (bool_decide (u1 < u2) || (bool_decide (u1 = u2) && bool_decide (v1 < v2)))).

(** A [heapq] heap is the list of its entries; [heappop] takes out a least
    one. *)
Fixpoint remove_first (x : Z * Z * Z) (h : list (Z * Z * Z)) : list (Z * Z * Z) :=
  match h with
  | [] => []
  | y :: h' => if bool_decide (y = x) then h' else y :: remove_first x h'
  end.

Definition heappop (h : list (Z * Z * Z)) : option (Z * Z * Z * list (Z * Z * Z)) :=
  match h with
  | [] => None
  | x :: h' =>
      let m := foldl (λ m y, if tuple_ltb y m then y else m) x h' in
      Some (m, remove_first m h)
  end.

Definition heappush (h : list (Z * Z * Z)) (x : Z * Z * Z) : list (Z * Z * Z) :=
  x :: h.

Section Solvers.

(** The order in which Python iterates over a set of integers is not fixed
    by the language; the solvers are embedded for an arbitrary one:
    [set_order s] lists the elements of the set [s] as iteration meets
    them.  The theorems assume no more of it than that it is a permutation
    of [s]. *)
Variable set_order : list Z → list Z.

(** ** Nearest neighbour *)

(** The [while unvisited] loop, with a step budget. *)
Fixpoint nn_loop (fuel : nat) (self : TSPSolver) (unvisited t : list Z)
    (current total_cost : Z) : outcome (list Z * Z * Z) :=
  match unvisited with
  | [] => Ret (t, current, total_cost)
  | _ :: _ =>
      match fuel with
      | O => OutOfFuel
      | S fuel' =>
          nearest ← py_min (set_order unvisited)
                      (λ x, getitem2 (distance_matrix self) current x);
          w ← getitem2 (distance_matrix self) current nearest;
          unvisited' ← set_remove nearest unvisited;
          nn_loop fuel' self unvisited' (t ++ [nearest]) nearest
            (np_add total_cost w)
      end
  end.

(** [nearest_neighbor(start)].  Every pass of the loop removes a city from
    [unvisited], so the budget [n] is enough. *)
Definition nearest_neighbor (self : TSPSolver) (start : Z) : outcome TSPResult :=
  let unvisited := range 0 (Z.of_nat (n self)) in
  let t := [start] in
  unvisited ← set_remove start unvisited;
  '(t, current, total_cost) ← nn_loop (n self) self unvisited t start 0;
  w ← getitem2 (distance_matrix self) current start;
  Ret {| tour := t;
         cost := Fin (np_add total_cost w);
         algorithm := "Nearest Neighbor";
         num_cities := n self;
         is_optimal := false;
         approximation_ratio := None |}.

(** ** The Christofides pipeline *)

(** The [while len(visited) < self.n and edges] loop of Prim's algorithm. *)
Fixpoint mst_loop (fuel : nat) (self : TSPSolver) (mst : list (Z * Z))
    (visited : gset Z) (edges : list (Z * Z * Z)) : outcome (list (Z * Z)) :=
  if bool_decide (size visited < n self)%nat then
    match heappop edges with
    | None => Ret mst
    | Some ((weight, u, v), edges) =>
        match fuel with
        | O => OutOfFuel
        | S fuel' =>
            if bool_decide (v ∈ visited) then mst_loop fuel' self mst visited edges
            else
              let visited := visited ∪ {[v]} in
              let mst := mst ++ [(u, v)] in
              edges ← for_each (range 0 (Z.of_nat (n self))) edges (λ edges j,
                         if bool_decide (j ∉ visited)
                         then w ← getitem2 (distance_matrix self) v j;
                              Ret (heappush edges (w, v, j))
                         else Ret edges);
              mst_loop fuel' self mst visited edges
        end
    end
  else Ret mst.

(** [compute_mst].  At most [(n-1)^2] entries are ever pushed, and every pass
    pops one. *)
Definition compute_mst (self : TSPSolver) : outcome (list (Z * Z)) :=
  edges ← for_each (range 1 (Z.of_nat (n self))) [] (λ edges j,
             w ← getitem2 (distance_matrix self) 0 j;
             Ret (edges ++ [(w, 0, j)]));
  mst_loop (n self * n self) self [] {[ 0 ]} edges.

Definition find_odd_degree_vertices (self : TSPSolver) (mst : list (Z * Z))
  : outcome (list Z) :=
  degree ← for_each mst (replicate (n self) 0) (λ degree '(u, v),
              du ← py_get degree u;
              degree ← py_set degree u (du + 1);
              dv ← py_get degree v;
              py_set degree v (dv + 1));
  for_each (range 0 (Z.of_nat (n self))) [] (λ acc i,
    di ← py_get degree i;
    if bool_decide (di `mod` 2 = 1) then Ret (acc ++ [i]) else Ret acc).

(** [s.pop()]: an element leaves the set; which one is left to the order of
    iteration. *)
Definition set_pop (s : list Z) : outcome (Z * list Z) :=
  match set_order s with
  | [] => Raise KeyError
  | v :: _ => Ret (v, filter (λ y, y ≠ v) s)
  end.

(** The [while len(unmatched) > 0] loop of the greedy matching. *)
Fixpoint matching_loop (fuel : nat) (self : TSPSolver) (matching : list (Z * Z))
    (unmatched : list Z) : outcome (list (Z * Z)) :=
  match unmatched with
  | [] => Ret matching
  | _ :: _ =>
      match fuel with
      | O => OutOfFuel
      | S fuel' =>
          '(v, unmatched) ← set_pop unmatched;
          nearest ← py_min (set_order unmatched)
                      (λ u, getitem2 (distance_matrix self) v u);
          unmatched ← set_remove nearest unmatched;
          matching_loop fuel' self (matching ++ [(v, nearest)]) unmatched
      end
  end.

Definition min_weight_matching (self : TSPSolver) (odd_vertices : list Z)
  : outcome (list (Z * Z)) :=
  let unmatched := remove_dups odd_vertices in
  matching_loop (length unmatched) self [] unmatched.

(** [graph[k]] on a dict *)
Definition dict_get (graph : gmap Z (list Z)) (k : Z) : outcome (list Z) :=
  match graph !! k with
  | Some l => Ret l
  | None => Raise KeyError
  end.

Definition combine_mst_matching (self : TSPSolver) (mst matching : list (Z * Z))
  : outcome (gmap Z (list Z)) :=
  let graph : gmap Z (list Z) :=
    list_to_map ((λ i, (i, [])) <$> range 0 (Z.of_nat (n self))) in
  for_each (mst ++ matching) graph (λ graph '(u, v),
    gu ← dict_get graph u;
    let graph := <[u := gu ++ [v]]> graph in
    gv ← dict_get graph v;
    Ret (<[v := gv ++ [u]]> graph)).

(** The [while curr_path] loop of Hierholzer's algorithm.  [curr_path] is
    kept with its top (the Python list's last element) at the head;
    [curr_graph] is the private copy of the graph that the function makes. *)
Fixpoint euler_loop (fuel : nat) (curr_path circuit : list Z)
    (curr_graph : gmap Z (list Z)) : outcome (list Z) :=
  match curr_path with
  | [] => Ret circuit
  | curr :: rest =>
      match fuel with
      | O => OutOfFuel
      | S fuel' =>
          adj ← dict_get curr_graph curr;
          match list_pop adj with
          | Some (next_vertex, adj') =>
              let curr_graph := <[curr := adj']> curr_graph in
              adjn ← dict_get curr_graph next_vertex;
              adjn' ← list_remove curr adjn;
              let curr_graph := <[next_vertex := adjn']> curr_graph in
              euler_loop fuel' (next_vertex :: curr_path) circuit curr_graph
          | None => euler_loop fuel' rest (circuit ++ [curr]) curr_graph
          end
      end
  end.

(** [find_eulerian_circuit].  A pass either uses up an edge (two adjacency
    entries) and pushes a vertex, or pops a vertex: the number of adjacency
    entries plus one bounds the number of passes. *)
Definition find_eulerian_circuit (graph : gmap Z (list Z)) : outcome (list Z) :=
  let budget := S (map_fold (λ _ adj acc, length adj + acc)%nat 0%nat graph) in
  circuit ← euler_loop budget [0] [] graph;
  Ret (reverse circuit).

Definition make_hamiltonian (circuit : list Z) : list Z :=
  (foldl (λ '(visited, t) city,
     if bool_decide (city ∉ visited)
     then (visited ∪ {[city]}, t ++ [city])
     else (visited, t)) ((∅ : gset Z), []) circuit).2.

Definition christofides (self : TSPSolver) : outcome TSPResult :=
  mst ← compute_mst self;
  odd_vertices ← find_odd_degree_vertices self mst;
  matching ← min_weight_matching self odd_vertices;
  multigraph ← combine_mst_matching self mst matching;
  circuit ← find_eulerian_circuit multigraph;
  let t := make_hamiltonian circuit in
  c ← calculate_tour_cost self t;
  Ret {| tour := t;
         cost := Fin c;
         algorithm := "Christofides";
         num_cities := n self;
         is_optimal := false;
         approximation_ratio := Some (3 # 2)%Q |}.

(** ** 2-opt *)

(** [tour[:i] + tour[i:j+1][::-1] + tour[j+1:]] for [0 <= i], [0 <= j+1] *)
Definition reverse_segment (t : list Z) (i j : Z) : list Z :=
  take (Z.to_nat i) t
  ++ reverse (take (Z.to_nat (j + 1) - Z.to_nat i) (drop (Z.to_nat i) t))
  ++ drop (Z.to_nat (j + 1)) t.

(** The loop [for j in range(i + 1, self.n)]: [Some] of the accepted tour and
    its cost when the loop is left by [break]. *)
Fixpoint two_opt_scan_j (self : TSPSolver) (t : list Z) (best_cost : Z) (i : Z)
    (js : list Z) : outcome (option (list Z * Z)) :=
  match js with
  | [] => Ret None
  | j :: js' =>
      let new_tour := reverse_segment t i j in
      new_cost ← calculate_tour_cost self new_tour;
      if bool_decide (new_cost < best_cost) then Ret (Some (new_tour, new_cost))
      else two_opt_scan_j self t best_cost i js'
  end.

(** The loop [for i in range(1, self.n - 1)]. *)
Fixpoint two_opt_scan_i (self : TSPSolver) (t : list Z) (best_cost : Z)
    (i_range : list Z) : outcome (option (list Z * Z)) :=
  match i_range with
  | [] => Ret None
  | i :: i_range' =>
      r ← two_opt_scan_j self t best_cost i (range (i + 1) (Z.of_nat (n self)));
      match r with
      | Some improved => Ret (Some improved)
      | None => two_opt_scan_i self t best_cost i_range'
      end
  end.

(** The loop [while improved and iteration < max_iterations]; [budget] is the
    number of iterations that are left. *)
Fixpoint two_opt_loop (budget : nat) (self : TSPSolver) (t : list Z)
    (best_cost : Z) : outcome (list Z * Z) :=
  match budget with
  | O => Ret (t, best_cost)
  | S budget' =>
      r ← two_opt_scan_i self t best_cost (range 1 (Z.of_nat (n self) - 1));
      match r with
      | Some (new_tour, new_cost) => two_opt_loop budget' self new_tour new_cost
      | None => Ret (t, best_cost)
      end
  end.

Definition two_opt (self : TSPSolver) (initial_tour : option (list Z))
    (max_iterations : Z) : outcome TSPResult :=
  let t := match initial_tour with
           | None => range 0 (Z.of_nat (n self))
           | Some l => l
           end in
  best_cost ← calculate_tour_cost self t;
  '(t, best_cost) ← two_opt_loop (Z.to_nat max_iterations) self t best_cost;
  Ret {| tour := t;
         cost := Fin best_cost;
         algorithm := "2-opt";
         num_cities := n self;
         is_optimal := false;
         approximation_ratio := None |}.

(** *** 2-opt on list objects

    The same function with Python's lists as objects in a store: a slice, a
    concatenation and [list(...)] allocate a new object, an assignment to a
    variable copies the reference.  The caller passes the address of its
    list. *)

Definition alloc (h : gmap nat (list Z)) (l : list Z) : gmap nat (list Z) * nat :=
  let a := fresh (dom h) in (<[a := l]> h, a).

Fixpoint two_opt_scan_j_st (self : TSPSolver) (h : gmap nat (list Z)) (t : nat)
    (best_cost : Z) (i : Z) (js : list Z)
  : outcome (gmap nat (list Z) * option (nat * Z)) :=
  match js with
  | [] => Ret (h, None)
  | j :: js' =>
      let '(h, new_tour) := alloc h (reverse_segment (h !!! t) i j) in
      new_cost ← calculate_tour_cost self (h !!! new_tour);
      if bool_decide (new_cost < best_cost) then Ret (h, Some (new_tour, new_cost))
      else two_opt_scan_j_st self h t best_cost i js'
  end.

Fixpoint two_opt_scan_i_st (self : TSPSolver) (h : gmap nat (list Z)) (t : nat)
    (best_cost : Z) (i_range : list Z)
  : outcome (gmap nat (list Z) * option (nat * Z)) :=
  match i_range with
  | [] => Ret (h, None)
  | i :: i_range' =>
      '(h, r) ← two_opt_scan_j_st self h t best_cost i
                  (range (i + 1) (Z.of_nat (n self)));
      match r with
      | Some improved => Ret (h, Some improved)
      | None => two_opt_scan_i_st self h t best_cost i_range'
      end
  end.

Fixpoint two_opt_loop_st (budget : nat) (self : TSPSolver) (h : gmap nat (list Z))
    (t : nat) (best_cost : Z) : outcome (gmap nat (list Z) * (nat * Z)) :=
  match budget with
  | O => Ret (h, (t, best_cost))
  | S budget' =>
      '(h, r) ← two_opt_scan_i_st self h t best_cost
                  (range 1 (Z.of_nat (n self) - 1));
      match r with
      | Some (new_tour, new_cost) => two_opt_loop_st budget' self h new_tour new_cost
      | None => Ret (h, (t, best_cost))
      end
  end.

(** The result is the final store, the address of the list placed in the
    [TSPResult], and the [TSPResult] with that list's contents. *)
Definition two_opt_st (self : TSPSolver) (h : gmap nat (list Z))
    (initial_tour : option nat) (max_iterations : Z)
  : outcome (gmap nat (list Z) * nat * TSPResult) :=
  let '(h, t) := match initial_tour with
                 | None => alloc h (range 0 (Z.of_nat (n self)))
                 | Some a => alloc h (h !!! a)
                 end in
  best_cost ← calculate_tour_cost self (h !!! t);
  '(h, (t, best_cost)) ← two_opt_loop_st (Z.to_nat max_iterations) self h t best_cost;
  Ret (h, t, {| tour := h !!! t;
                cost := Fin best_cost;
                algorithm := "2-opt";
                num_cities := n self;
                is_optimal := false;
                approximation_ratio := None |}).

(** ** Dispatch *)

Definition solve (self : TSPSolver) (algorithm : string) : outcome TSPResult :=
  if bool_decide (algorithm = "auto") then
    if bool_decide (n self ≤ 15)%nat then held_karp self
    else if bool_decide (n self ≤ 100)%nat then christofides self
    else
      nn_result ← nearest_neighbor self 0;
      two_opt self (Some (tour nn_result)) 1000
  else
    let algorithms : list (string * (unit → outcome TSPResult)) :=
      [ ("held-karp", λ _, held_karp self);
        ("christofides", λ _, christofides self);
        ("nearest-neighbor", λ _, nearest_neighbor self 0);
        ("2-opt", λ _, two_opt self None 1000) ] in
    match list_find (λ kv, kv.1 = algorithm) algorithms with
    | None => Raise (ValueError ("Unknown algorithm: " +:+ algorithm))
    | Some (_, (_, f)) => f ()
    end.

End Solvers.

(** * Properties *)

(** ** Outcomes and loops *)

Lemma bind_Ret {A B : Type} (m : outcome A) (f : A → outcome B) (b : B) :
  m ≫= f = Ret b ↔ ∃ a, m = Ret a ∧ f a = Ret b.
Proof.
  destruct m as [a| |]; simpl; split; try naive_solver.
Qed.

Lemma bind_Ret_l {A B : Type} (m : outcome A) (f : A → outcome B) (a : A) :
  m = Ret a → m ≫= f = f a.
Proof. by intros ->. Qed.

Ltac inv_bind H :=
  repeat match type of H with
  | (_ ≫= _) = Ret _ =>
      let x := fresh "x" in
      let Hx := fresh "Hx" in
      apply bind_Ret in H as (x & Hx & H)
  end.

(** The invariant rule of a [for] loop: [I done b] holds of the state [b]
    reached after the iterations over the prefix [done]. *)
Lemma for_each_inv {A B : Type} (I : list A → B → Prop)
    (l : list A) (b0 : B) (body : B → A → outcome B) :
  I [] b0 →
  (∀ done x rest b, l = done ++ x :: rest → I done b →
     ∃ b', body b x = Ret b' ∧ I (done ++ [x]) b') →
  ∃ b, for_each l b0 body = Ret b ∧ I l b.
Proof.
  intros H0 Hstep.
  assert (Hgen : ∀ rest done b, l = done ++ rest → I done b →
            ∃ b', for_each rest b body = Ret b' ∧ I l b').
  { induction rest as [|x rest IH]; intros done b Hl Hb.
    - rewrite app_nil_r in Hl. subst. by exists b.
    - destruct (Hstep done x rest b Hl Hb) as (b' & Hb' & HI).
      simpl. rewrite Hb'. simpl.
      apply (IH (done ++ [x])); [|done]. by rewrite <- app_assoc. }
  by apply (Hgen l [] b0).
Qed.

Lemma for_each_app {A B : Type} (l1 l2 : list A) (b : B) body :
  for_each (l1 ++ l2) b body = b' ← for_each l1 b body; for_each l2 b' body.
Proof.
  revert b. induction l1 as [|x l1 IH]; intros b; simpl; [done|].
  destruct (body b x); simpl; auto.
Qed.

(** ** Ranges and indexing *)

Lemma elem_of_range (lo hi x : Z) : x ∈ range lo hi ↔ lo ≤ x < hi.
Proof. unfold range. rewrite elem_of_seqZ. lia. Qed.

Lemma NoDup_range (lo hi : Z) : NoDup (range lo hi).
Proof. apply NoDup_seqZ. Qed.

Lemma length_range (lo hi : Z) : length (range lo hi) = Z.to_nat (hi - lo).
Proof. unfold range. by rewrite length_seqZ. Qed.

Lemma index_nonneg (len : nat) (i : Z) :
  0 ≤ i < Z.of_nat len → index len i = Ret (Z.to_nat i).
Proof. intros H. unfold index. by rewrite bool_decide_eq_true_2. Qed.

Lemma index_Ret (len : nat) (i : Z) (k : nat) :
  index len i = Ret k → (k < len)%nat ∧ - Z.of_nat len ≤ i < Z.of_nat len.
Proof.
  unfold index. repeat case_bool_decide; intros [= <-]; lia.
Qed.

Lemma index_is_Ret (len : nat) (i : Z) :
  - Z.of_nat len ≤ i < Z.of_nat len → ∃ k, index len i = Ret k.
Proof.
  intros H. unfold index. repeat case_bool_decide; eauto; lia.
Qed.

(** ** Validated solvers *)

(** A solver object exists only as the result of [init]. *)
Definition valid (self : TSPSolver) : Prop := ∃ dm, init dm = Ret self.

Lemma forallb_diag (dm : ndarray) :
  forallb (λ x, bool_decide (x = 0)) (np_diag dm) = true ↔
  ∀ i, (i < Nat.min (shape0 dm) (shape1 dm))%nat → item dm i i = 0.
Proof.
  unfold np_diag. rewrite forallb_forall. split.
  - intros H i Hi. specialize (H (item dm i i)).
    rewrite bool_decide_eq_true in H. apply H.
    apply list_elem_of_In, list_elem_of_fmap. exists i. split; [done|].
    apply elem_of_seq. lia.
  - intros H x Hx. apply list_elem_of_In, list_elem_of_fmap in Hx as (i & -> & Hi).
    apply elem_of_seq in Hi. apply bool_decide_eq_true. apply H. lia.
Qed.

Lemma init_Ret (dm : ndarray) (self : TSPSolver) :
  init dm = Ret self ↔
  self = {| distance_matrix := dm; n := shape0 dm |} ∧
  shape0 dm = shape1 dm ∧ (2 ≤ shape0 dm)%nat ∧
  ∀ i, (i < shape0 dm)%nat → item dm i i = 0.
Proof.
  unfold init, validate_input. simpl.
  pose proof (forallb_diag dm) as Hd.
  destruct (decide (shape0 dm = shape1 dm)) as [Hsq|Hsq].
  2:{ rewrite bool_decide_eq_true_2 by done. simpl. naive_solver. }
  rewrite bool_decide_eq_false_2 by (intros ?; done).
  destruct (decide (shape0 dm < 2)%nat) as [Hn|Hn].
  { rewrite bool_decide_eq_true_2 by done. simpl. split; [done|]. lia. }
  rewrite bool_decide_eq_false_2 by done.
  rewrite <- Hsq, Nat.min_id in Hd.
  destruct (forallb _ (np_diag dm)); simpl.
  - split; [intros [= <-]|intros (-> & _); done].
    repeat split; [done|lia|]. by apply Hd.
  - split; [done|]. intros (_ & _ & _ & H). by apply Hd in H.
Qed.

Lemma valid_inv (self : TSPSolver) :
  valid self →
  shape0 (distance_matrix self) = n self ∧
  shape1 (distance_matrix self) = n self ∧
  (2 ≤ n self)%nat ∧
  ∀ i, (i < n self)%nat → item (distance_matrix self) i i = 0.
Proof.
  intros (dm & H). apply init_Ret in H as (-> & H1 & H2 & H3). simpl.
  repeat split; auto.
Qed.

(** The entry of the matrix for the edge from [a] to [b]. *)
Definition edge (self : TSPSolver) (a b : Z) : Z :=
  item (distance_matrix self) (Z.to_nat a) (Z.to_nat b).

Lemma getitem2_edge (self : TSPSolver) (a b : Z) :
  valid self → 0 ≤ a < Z.of_nat (n self) → 0 ≤ b < Z.of_nat (n self) →
  getitem2 (distance_matrix self) a b = Ret (edge self a b).
Proof.
  intros (H0 & H1 & _)%valid_inv Ha Hb. unfold getitem2.
  rewrite H0, H1, !index_nonneg by done. done.
Qed.

(** ** Construction validates the matrix *)

(** C8: construction runs the validation, which checks in this order that the
    matrix is square, that it has at least two cities and that its diagonal is
    zero; a matrix that fails a check is refused with a [ValueError] whose
    message names the violated check, a matrix that passes the three checks
    yields the solver, and a solver is only ever obtained from a matrix that
    passes them. *)
Theorem init_validates (dm : ndarray) :
  (shape0 dm ≠ shape1 dm →
     init dm = Raise (ValueError "Distance matrix must be square")) ∧
  (shape0 dm = shape1 dm → (shape0 dm < 2)%nat →
     init dm = Raise (ValueError "Need at least 2 cities")) ∧
  (shape0 dm = shape1 dm → (2 ≤ shape0 dm)%nat →
   (∃ i, (i < shape0 dm)%nat ∧ item dm i i ≠ 0) →
     init dm = Raise (ValueError "Diagonal elements must be zero")) ∧
  (shape0 dm = shape1 dm → (2 ≤ shape0 dm)%nat →
   (∀ i, (i < shape0 dm)%nat → item dm i i = 0) →
     init dm = Ret {| distance_matrix := dm; n := shape0 dm |}) ∧
  (∀ self, init dm = Ret self →
     distance_matrix self = dm ∧ n self = shape0 dm ∧
     shape0 dm = shape1 dm ∧ (2 ≤ shape0 dm)%nat ∧
     ∀ i, (i < shape0 dm)%nat → item dm i i = 0).
Proof.
  repeat split.
  - intros H. unfold init, validate_input. simpl.
    by rewrite bool_decide_eq_true_2.
  - intros H1 H2. unfold init, validate_input. simpl.
    rewrite bool_decide_eq_false_2 by (intros ?; done).
    by rewrite bool_decide_eq_true_2.
  - intros H1 H2 (i & Hi & Hne). unfold init, validate_input. simpl.
    rewrite bool_decide_eq_false_2 by (intros ?; done).
    rewrite bool_decide_eq_false_2 by lia.
    destruct (forallb _ (np_diag dm)) eqn:E; [|done].
    destruct Hne. apply (proj1 (forallb_diag dm) E). lia.
  - intros H1 H2 H3. by apply init_Ret.
  - by apply init_Ret in H as (-> & _).
  - by apply init_Ret in H as (-> & _).
  - by apply init_Ret in H as (_ & ? & _).
  - by apply init_Ret in H as (_ & _ & ? & _).
  - by apply init_Ret in H as (_ & _ & _ & ?).
Qed.

Lemma for_each_total {A B : Type} (l : list A) (b0 : B) (body : B → A → outcome B) :
  (∀ b x, x ∈ l → ∃ b', body b x = Ret b') →
  ∃ b, for_each l b0 body = Ret b.
Proof.
  intros H.
  destruct (for_each_inv (λ _ _, True) l b0 body) as (b & Hb & _); [done| |eauto].
  intros done x rest b Hl _. destruct (H b x) as (b' & Hb').
  - rewrite Hl. set_solver.
  - eauto.
Qed.

Lemma for_each_Ret_elem {A B : Type} (l : list A) (b0 b : B) body (x : A) :
  for_each l b0 body = Ret b → x ∈ l → ∃ b1 b2, body b1 x = Ret b2.
Proof.
  revert b0. induction l as [|y l IH]; intros b0 H Hx; [by apply elem_of_nil in Hx|].
  simpl in H. apply bind_Ret in H as (b1 & Hb1 & H).
  apply elem_of_cons in Hx as [->|Hx]; eauto.
Qed.

(** ** Arithmetic of dtype int64 *)

Lemma int64_range (z : Z) : - 2 ^ 63 ≤ int64 z < 2 ^ 63.
Proof.
  unfold int64. pose proof (Z.mod_pos_bound (z + 2 ^ 63) (2 ^ 64) eq_refl).
  change (2 ^ 64) with (2 * 2 ^ 63) in *. lia.
Qed.

Lemma int64_small (z : Z) : - 2 ^ 63 ≤ z < 2 ^ 63 → int64 z = z.
Proof.
  intros Hz. unfold int64. rewrite Z.mod_small; [lia|].
  change (2 ^ 64) with (2 * 2 ^ 63). lia.
Qed.

Lemma int64_idemp (z : Z) : int64 (int64 z) = int64 z.
Proof. apply int64_small, int64_range. Qed.

Lemma int64_add_l (a b : Z) : int64 (int64 a + b) = int64 (a + b).
Proof.
  unfold int64. f_equal.
  replace ((a + 2 ^ 63) `mod` 2 ^ 64 - 2 ^ 63 + b + 2 ^ 63)
    with ((a + 2 ^ 63) `mod` 2 ^ 64 + b) by lia.
  rewrite Z.add_mod_idemp_l by done. f_equal. lia.
Qed.

Lemma int64_add_r (a b : Z) : int64 (a + int64 b) = int64 (a + b).
Proof. by rewrite (Z.add_comm a), int64_add_l, (Z.add_comm b). Qed.

Lemma np_add_int64 (a b : Z) : np_add (int64 a) b = int64 (a + b).
Proof. apply int64_add_l. Qed.

Lemma np_add_0 (b : Z) : np_add 0 b = int64 b.
Proof. done. Qed.

(** ** The cost of a tour *)

(** The sum of the edges along a path, and around a cycle. *)
Fixpoint path_cost (self : TSPSolver) (p : list Z) : Z :=
  match p with
  | a :: p' =>
      match p' with
      | b :: _ => edge self a b + path_cost self p'
      | [] => 0
      end
  | [] => 0
  end.

Definition cycle_cost (self : TSPSolver) (t : list Z) : Z :=
  path_cost self (t ++ take 1 t).

Lemma path_cost_snoc (self : TSPSolver) (p : list Z) (a b : Z) :
  path_cost self ((p ++ [a]) ++ [b]) = path_cost self (p ++ [a]) + edge self a b.
Proof.
  induction p as [|x p IH]; simpl; [lia|].
  destruct (p ++ [a]) as [|y q] eqn:E; [by destruct p|].
  simpl in *. rewrite IH. lia.
Qed.

Definition in_bounds (self : TSPSolver) (x : Z) : Prop :=
  - Z.of_nat (n self) ≤ x < Z.of_nat (n self).

Lemma getitem2_is_Ret self a b :
  valid self → in_bounds self a → in_bounds self b →
  ∃ w, getitem2 (distance_matrix self) a b = Ret w.
Proof.
  intros (H0 & H1 & _)%valid_inv Ha Hb. unfold getitem2. rewrite H0, H1.
  destruct (index_is_Ret (n self) a Ha) as (i & ->).
  destruct (index_is_Ret (n self) b Hb) as (j & ->). simpl. eauto.
Qed.

Lemma getitem2_Ret_inv self a b w :
  valid self → getitem2 (distance_matrix self) a b = Ret w →
  in_bounds self a ∧ in_bounds self b.
Proof.
  intros (H0 & H1 & _)%valid_inv H. unfold getitem2 in H. rewrite H0, H1 in H.
  inv_bind H. apply index_Ret in Hx, Hx0. unfold in_bounds. lia.
Qed.

Lemma list_get_lookup (l : list Z) (i : nat) (x : Z) :
  l !! i = Some x → list_get l i = Ret x.
Proof. unfold list_get. by intros ->. Qed.

Lemma calculate_tour_cost_is_Ret self t :
  valid self → Forall (in_bounds self) t →
  ∃ c, calculate_tour_cost self t = Ret c.
Proof.
  intros Hv Ht. apply for_each_total. intros acc i Hi.
  apply elem_of_seq in Hi.
  destruct (lookup_lt_is_Some_2 t i) as [a Ha]; [lia|].
  destruct (lookup_lt_is_Some_2 t ((i + 1) `mod` length t)%nat) as [b Hb].
  { apply Nat.mod_upper_bound. lia. }
  rewrite (list_get_lookup _ _ _ Ha), (list_get_lookup _ _ _ Hb). simpl.
  destruct (getitem2_is_Ret self a b) as (w & ->); [done| | |simpl; eauto].
  - eapply Forall_lookup_1; eauto.
  - eapply Forall_lookup_1; eauto.
Qed.

Lemma calculate_tour_cost_Ret_inv self t c :
  valid self → calculate_tour_cost self t = Ret c → Forall (in_bounds self) t.
Proof.
  intros Hv H. apply Forall_lookup. intros i a Ha.
  destruct (for_each_Ret_elem _ _ _ _ i H) as (b1 & b2 & Hb).
  { apply elem_of_seq. apply lookup_lt_Some in Ha. lia. }
  simpl in Hb. rewrite (list_get_lookup _ _ _ Ha) in Hb. simpl in Hb.
  inv_bind Hb. by apply getitem2_Ret_inv in Hx0 as [? _].
Qed.

Lemma calculate_tour_cost_perm self t t' c :
  valid self → calculate_tour_cost self t = Ret c → t' ≡ₚ t →
  ∃ c', calculate_tour_cost self t' = Ret c'.
Proof.
  intros Hv H Hp. apply calculate_tour_cost_is_Ret; [done|].
  rewrite Hp. by eapply calculate_tour_cost_Ret_inv.
Qed.

(** The cost that the code computes is the sum around the cycle, as 64 bits
    hold it. *)
Lemma calculate_tour_cost_cycle self t :
  valid self → Forall (λ x, 0 ≤ x < Z.of_nat (n self)) t →
  calculate_tour_cost self t = Ret (int64 (cycle_cost self t)).
Proof.
  intros Hv Ht. unfold calculate_tour_cost, cycle_cost.
  assert (Hgen : ∀ m k acc, (k + m = length t)%nat →
    for_each (seq k m) (int64 acc) (λ acc i,
      a ← list_get t i;
      b ← list_get t ((i + 1) `mod` length t)%nat;
      w ← getitem2 (distance_matrix self) a b;
      Ret (np_add acc w))
    = Ret (int64 (acc + path_cost self (drop k t ++ take 1 t)))).
  { induction m as [|m IH]; intros k acc Hk.
    - simpl. rewrite drop_ge, app_nil_l by lia.
      destruct t as [|? [|? ?]]; simpl; do 2 f_equal; lia.
    - simpl.
      destruct (lookup_lt_is_Some_2 t k) as [a Ha]; [lia|].
      destruct (lookup_lt_is_Some_2 t ((k + 1) `mod` length t)%nat) as [b Hb].
      { apply Nat.mod_upper_bound. lia. }
      rewrite (list_get_lookup _ _ _ Ha), (list_get_lookup _ _ _ Hb). simpl.
      rewrite getitem2_edge; [|done|..].
      2:{ eapply (Forall_lookup_1 _ _ _ _ Ht); eauto. }
      2:{ eapply (Forall_lookup_1 _ _ _ _ Ht); eauto. }
      simpl. rewrite np_add_int64, IH by lia. do 2 f_equal.
      rewrite (drop_S _ _ _ Ha). simpl.
      destruct m as [|m].
      + replace (k + 1)%nat with (length t) in Hb by lia.
        rewrite Nat.Div0.mod_same in Hb.
        rewrite drop_ge by lia. simpl.
        destruct t as [|y t']; [done|]. simpl in *. injection Hb as ->. simpl. lia.
      + rewrite Nat.mod_small in Hb by lia.
        replace (k + 1)%nat with (S k) in Hb by lia.
        rewrite (drop_S _ _ _ Hb). simpl. lia. }
  change 0 with (int64 0) at 1.
  rewrite (Hgen (length t) 0%nat 0) by lia. by rewrite drop_0.
Qed.

(** ** 2-opt *)

Lemma reverse_segment_perm (t : list Z) (i j : Z) :
  i ≤ j + 1 → reverse_segment t i j ≡ₚ t.
Proof.
  intros Hij. unfold reverse_segment.
  rewrite reverse_Permutation.
  rewrite <- (take_drop (Z.to_nat i) t) at 4.
  apply Permutation_app_head.
  rewrite <- (take_drop (Z.to_nat (j + 1) - Z.to_nat i) (drop (Z.to_nat i) t)) at 2.
  apply Permutation_app_head.
  rewrite drop_drop. by replace (Z.to_nat i + (Z.to_nat (j + 1) - Z.to_nat i))%nat
    with (Z.to_nat (j + 1)) by lia.
Qed.

(** One pass of the two nested [for] loops, from what it returns. *)
Lemma two_opt_scan_j_Some self t best i js t' c' :
  two_opt_scan_j self t best i js = Ret (Some (t', c')) →
  ∃ j, j ∈ js ∧ t' = reverse_segment t i j ∧
       calculate_tour_cost self t' = Ret c' ∧ c' < best.
Proof.
  induction js as [|j js IH]; simpl; [done|]. intros H.
  apply bind_Ret in H as (c & Hc & H). case_bool_decide.
  - injection H as <- <-. exists j. set_solver.
  - destruct (IH H) as (j' & ? & ?). exists j'. set_solver.
Qed.

Lemma two_opt_scan_i_Some self t best i_range t' c' :
  two_opt_scan_i self t best i_range = Ret (Some (t', c')) →
  ∃ i j, i ∈ i_range ∧ i < j ∧ t' = reverse_segment t i j ∧
         calculate_tour_cost self t' = Ret c' ∧ c' < best.
Proof.
  induction i_range as [|i i_range IH]; simpl; [done|]. intros H.
  apply bind_Ret in H as (r & Hr & H). destruct r as [[t1 c1]|].
  - injection H as <- <-.
    apply two_opt_scan_j_Some in Hr as (j & Hj & ?).
    apply elem_of_range in Hj. exists i, j. split; [set_solver|]. split; [lia|done].
  - destruct (IH H) as (i' & j' & ? & ?). exists i', j'. set_solver.
Qed.

Lemma two_opt_scan_j_is_Ret self t best i js :
  valid self → Forall (in_bounds self) t → Forall (λ j, i ≤ j + 1) js →
  ∃ r, two_opt_scan_j self t best i js = Ret r.
Proof.
  intros Hv Ht. induction js as [|j js IH]; intros Hjs; simpl; [eauto|].
  apply Forall_cons in Hjs as [Hj Hjs].
  destruct (calculate_tour_cost_is_Ret self (reverse_segment t i j)) as (c & ->);
    [done| |].
  { by rewrite reverse_segment_perm. }
  simpl. case_bool_decide; eauto.
Qed.

Lemma two_opt_scan_i_is_Ret self t best i_range :
  valid self → Forall (in_bounds self) t →
  ∃ r, two_opt_scan_i self t best i_range = Ret r.
Proof.
  intros Hv Ht. induction i_range as [|i i_range IH]; simpl; [eauto|].
  destruct (two_opt_scan_j_is_Ret self t best i (range (i + 1) (Z.of_nat (n self))))
    as (r & ->); [done|done| |].
  { apply Forall_forall. intros j Hj%elem_of_range. lia. }
  simpl. destruct r; eauto.
Qed.

(** A tour reached from [t] by reversals of contiguous segments. *)
Inductive reversals (t : list Z) : list Z → Prop :=
  | reversals_refl : reversals t t
  | reversals_step t1 i j :
      reversals t t1 → 0 ≤ i < j → reversals t (reverse_segment t1 i j).

Lemma reversals_perm t t' : reversals t t' → t' ≡ₚ t.
Proof.
  induction 1 as [|t1 i j _ IH Hij]; [done|].
  rewrite reverse_segment_perm by lia. done.
Qed.

Lemma reversals_trans t t1 t2 :
  reversals t t1 → reversals t1 t2 → reversals t t2.
Proof. intros H1 H2. induction H2; [done|]. by constructor. Qed.

(** The [while] loop: what it returns, and that it returns. *)
Lemma two_opt_loop_Ret budget self t best t' c' :
  valid self → calculate_tour_cost self t = Ret best →
  two_opt_loop budget self t best = Ret (t', c') →
  reversals t t' ∧ calculate_tour_cost self t' = Ret c' ∧ c' ≤ best.
Proof.
  intros Hv. revert t best. induction budget as [|b IH]; intros t best Hc H; simpl in H.
  - injection H as <- <-. split; [constructor|]. split; [done|lia].
  - apply bind_Ret in H as (r & Hr & H). destruct r as [[t1 c1]|].
    + apply two_opt_scan_i_Some in Hr as (i & j & Hi & Hij & -> & Hc1 & Hlt).
      apply elem_of_range in Hi.
      destruct (IH _ _ Hc1 H) as (Hrev & Hc' & Hle).
      split; [|split; [done|lia]].
      eapply reversals_trans; [|done]. constructor; [constructor|lia].
    + injection H as <- <-. split; [constructor|]. split; [done|lia].
Qed.

Lemma two_opt_loop_is_Ret budget self t best :
  valid self → Forall (in_bounds self) t →
  ∃ r, two_opt_loop budget self t best = Ret r.
Proof.
  intros Hv. revert t best. induction budget as [|b IH]; intros t best Ht; simpl; [eauto|].
  destruct (two_opt_scan_i_is_Ret self t best (range 1 (Z.of_nat (n self) - 1)))
    as (r & Hr); [done..|].
  rewrite Hr. simpl. destruct r as [[t1 c1]|]; [|eauto].
  apply IH. apply two_opt_scan_i_Some in Hr as (i & j & Hi & Hij & -> & _).
  rewrite reverse_segment_perm; [done|lia].
Qed.

(** One more unit of budget can only lower the cost. *)
Lemma two_opt_loop_S budget self t best t1 c1 :
  valid self → calculate_tour_cost self t = Ret best →
  two_opt_loop budget self t best = Ret (t1, c1) →
  ∃ t2 c2, two_opt_loop (S budget) self t best = Ret (t2, c2) ∧ c2 ≤ c1.
Proof.
  intros Hv. revert t best.
  induction budget as [|b IH]; intros t best Hc H.
  - simpl in H. injection H as <- <-.
    destruct (two_opt_loop_is_Ret 1 self t best) as ([t2 c2] & H2); [done| |].
    { by eapply calculate_tour_cost_Ret_inv. }
    exists t2, c2. split; [done|].
    by apply two_opt_loop_Ret in H2 as (_ & _ & ?).
  - change (two_opt_loop (S b) self t best) with
      (r ← two_opt_scan_i self t best (range 1 (Z.of_nat (n self) - 1));
       match r with
       | Some (new_tour, new_cost) => two_opt_loop b self new_tour new_cost
       | None => Ret (t, best)
       end) in H.
    change (two_opt_loop (S (S b)) self t best) with
      (r ← two_opt_scan_i self t best (range 1 (Z.of_nat (n self) - 1));
       match r with
       | Some (new_tour, new_cost) => two_opt_loop (S b) self new_tour new_cost
       | None => Ret (t, best)
       end).
    apply bind_Ret in H as (r & Hr & H). rewrite Hr. simpl.
    destruct r as [[t' c']|].
    + apply two_opt_scan_i_Some in Hr as (i & j & _ & _ & _ & Hc' & _). eauto.
    + injection H as <- <-. exists t, best. split; [done|lia].
Qed.

Lemma two_opt_loop_mono b1 b2 self t best t1 c1 :
  valid self → calculate_tour_cost self t = Ret best → (b1 ≤ b2)%nat →
  two_opt_loop b1 self t best = Ret (t1, c1) →
  ∃ t2 c2, two_opt_loop b2 self t best = Ret (t2, c2) ∧ c2 ≤ c1.
Proof.
  intros Hv Hc Hle H. induction Hle as [|b2 Hle IH].
  - exists t1, c1. split; [done|lia].
  - destruct IH as (t2 & c2 & H2 & Hc2).
    destruct (two_opt_loop_S _ _ _ _ _ _ Hv Hc H2) as (t3 & c3 & H3 & Hc3).
    exists t3, c3. split; [done|lia].
Qed.

(** The tour with which [two_opt] starts. *)
Definition initial (self : TSPSolver) (initial_tour : option (list Z)) : list Z :=
  match initial_tour with
  | None => range 0 (Z.of_nat (n self))
  | Some l => l
  end.

Lemma two_opt_Ret self initial_tour k r :
  valid self → two_opt self initial_tour k = Ret r →
  ∃ c0 c, calculate_tour_cost self (initial self initial_tour) = Ret c0 ∧
    reversals (initial self initial_tour) (tour r) ∧
    calculate_tour_cost self (tour r) = Ret c ∧ cost r = Fin c ∧ c ≤ c0 ∧
    num_cities r = n self.
Proof.
  intros Hv H. unfold two_opt in H. fold (initial self initial_tour) in H.
  apply bind_Ret in H as (c0 & Hc0 & H).
  apply bind_Ret in H as ([t c] & Hl & H). injection H as <-. simpl.
  apply two_opt_loop_Ret in Hl as (? & ? & ?); [|done..].
  exists c0, c. done.
Qed.

Lemma two_opt_is_Ret self initial_tour k :
  valid self → Forall (in_bounds self) (initial self initial_tour) →
  ∃ r, two_opt self initial_tour k = Ret r.
Proof.
  intros Hv Ht. unfold two_opt. fold (initial self initial_tour).
  destruct (calculate_tour_cost_is_Ret self _ Hv Ht) as (c0 & ->). simpl.
  destruct (two_opt_loop_is_Ret (Z.to_nat k) self _ c0 Hv Ht) as ([t c] & ->).
  simpl. eauto.
Qed.

(** C3: whenever the cost of the initial tour is defined, [two_opt] returns
    for every budget, the cost it returns is at most the cost of the initial
    tour, and a larger budget never gives a larger cost. *)
Theorem two_opt_never_worsens (self : TSPSolver) (initial_tour : option (list Z))
    (k k' c0 : Z) :
  valid self →
  calculate_tour_cost self (initial self initial_tour) = Ret c0 →
  0 ≤ k ≤ k' →
  ∃ r r' c c',
    two_opt self initial_tour k = Ret r ∧ cost r = Fin c ∧
    two_opt self initial_tour k' = Ret r' ∧ cost r' = Fin c' ∧
    c' ≤ c ∧ c ≤ c0.
Proof.
  intros Hv Hc0 Hk. unfold two_opt. fold (initial self initial_tour).
  rewrite Hc0. simpl.
  destruct (two_opt_loop_is_Ret (Z.to_nat k) self (initial self initial_tour) c0)
    as ([t c] & Hl); [done| |].
  { by eapply calculate_tour_cost_Ret_inv. }
  destruct (two_opt_loop_mono (Z.to_nat k) (Z.to_nat k') _ _ _ _ _ Hv Hc0 ltac:(lia) Hl)
    as (t' & c' & Hl' & Hle).
  rewrite Hl, Hl'. simpl.
  eexists _, _, c, c'. repeat split; try done.
  by apply two_opt_loop_Ret in Hl as (_ & _ & ?).
Qed.

(** *** First-improvement local search, as the specification words it *)

(** The pairs of positions [(i, j)] with [lo <= i < j < len], in the order of
    a scan. *)
Definition position_pairs (lo : Z) (len : nat) : list (Z * Z) :=
  i ← range lo (Z.of_nat len); j ← range (i + 1) (Z.of_nat len); [(i, j)].

(** The cost of a tour whose cost is defined. *)
Definition tour_cost (self : TSPSolver) (t : list Z) : Z :=
  match calculate_tour_cost self t with
  | Ret c => c
  | _ => 0
  end.

(** The first candidate of a scan over [pairs] that costs strictly less than
    [t]. *)
Definition first_improvement (self : TSPSolver) (pairs : list (Z * Z))
    (t : list Z) : option (list Z) :=
  head (filter (λ t', tour_cost self t' < tour_cost self t)
          ((λ p, reverse_segment t p.1 p.2) <$> pairs)).

(** Accept the first improvement and scan again, until a scan finds none or
    the budget is used up. *)
Fixpoint local_search (self : TSPSolver) (pairs : list (Z * Z)) (budget : nat)
    (t : list Z) : list Z :=
  match budget with
  | O => t
  | S budget' =>
      match first_improvement self pairs t with
      | Some t' => local_search self pairs budget' t'
      | None => t
      end
  end.

Lemma tour_cost_Ret self t c : calculate_tour_cost self t = Ret c → tour_cost self t = c.
Proof. unfold tour_cost. by intros ->. Qed.

Lemma calculate_tour_cost_tour_cost self t :
  valid self → Forall (in_bounds self) t →
  calculate_tour_cost self t = Ret (tour_cost self t).
Proof.
  intros Hv Ht. destruct (calculate_tour_cost_is_Ret self t Hv Ht) as (c & Hc).
  by rewrite (tour_cost_Ret _ _ _ Hc).
Qed.

Lemma head_app {A : Type} (l1 l2 : list A) :
  head (l1 ++ l2) = match head l1 with Some x => Some x | None => head l2 end.
Proof. by destruct l1. Qed.

Lemma two_opt_scan_j_spec self t best i js :
  valid self → Forall (in_bounds self) t → Forall (λ j, i ≤ j + 1) js →
  two_opt_scan_j self t best i js =
  Ret ((λ t', (t', tour_cost self t')) <$>
       head (filter (λ t', tour_cost self t' < best) (reverse_segment t i <$> js))).
Proof.
  intros Hv Ht. induction js as [|j js IH]; intros Hjs; simpl; [done|].
  apply Forall_cons in Hjs as [Hj Hjs].
  rewrite calculate_tour_cost_tour_cost; [|done|by rewrite reverse_segment_perm].
  simpl. rewrite filter_cons. case_bool_decide; case_decide; try lia; [done|].
  by apply IH.
Qed.

Lemma pairs_of_row (t : list Z) (i : Z) (js : list Z) :
  (λ p : Z * Z, reverse_segment t p.1 p.2) <$> (j ← js; [(i, j)]) =
  reverse_segment t i <$> js.
Proof. induction js as [|j js IH]; simpl; [done|]. by f_equal. Qed.

Lemma two_opt_scan_i_spec self t best i_range :
  valid self → Forall (in_bounds self) t →
  two_opt_scan_i self t best i_range =
  Ret ((λ t', (t', tour_cost self t')) <$>
       head (filter (λ t', tour_cost self t' < best)
               ((λ p : Z * Z, reverse_segment t p.1 p.2) <$>
                  (i ← i_range; j ← range (i + 1) (Z.of_nat (n self)); [(i, j)])))).
Proof.
  intros Hv Ht. induction i_range as [|i i_range IH]; simpl; [done|].
  rewrite two_opt_scan_j_spec; [|done..|].
  2:{ apply Forall_forall. intros j Hj%elem_of_range. lia. }
  simpl. rewrite fmap_app, filter_app, head_app, pairs_of_row.
  destruct (head (filter _ (reverse_segment t i <$> _))) as [t'|]; simpl; [done|].
  apply IH.
Qed.

Lemma position_pairs_code (len : nat) :
  (2 ≤ len)%nat →
  position_pairs 1 len =
  (i ← range 1 (Z.of_nat len - 1); j ← range (i + 1) (Z.of_nat len); [(i, j)]).
Proof.
  intros Hlen. unfold position_pairs, range.
  replace (Z.of_nat len - 1) with (Z.of_nat (len - 1) - 1 + 1) at 1 by lia.
  rewrite seqZ_app by lia. rewrite bind_app.
  replace (Z.of_nat len - 1 - 1) with (Z.of_nat (len - 1) - 1) by lia.
  replace (1 + (Z.of_nat (len - 1) - 1)) with (Z.of_nat len - 1) by lia.
  change (seqZ (Z.of_nat len - 1) 1) with [Z.of_nat len - 1]. simpl.
  replace (Z.of_nat len - (Z.of_nat len - 1 + 1)) with 0 by lia.
  by rewrite app_nil_r.
Qed.

Lemma two_opt_scan_spec self t :
  valid self → Forall (in_bounds self) t →
  two_opt_scan_i self t (tour_cost self t) (range 1 (Z.of_nat (n self) - 1)) =
  Ret ((λ t', (t', tour_cost self t')) <$>
       first_improvement self (position_pairs 1 (n self)) t).
Proof.
  intros Hv Ht. rewrite two_opt_scan_i_spec by done.
  unfold first_improvement. rewrite position_pairs_code; [done|].
  apply valid_inv in Hv. lia.
Qed.

Lemma first_improvement_perm self lo len t t' :
  0 ≤ lo → first_improvement self (position_pairs lo len) t = Some t' → t' ≡ₚ t.
Proof.
  intros Hlo E. unfold first_improvement in E.
  apply head_Some_elem_of, list_elem_of_filter in E as [_ E].
  apply list_elem_of_fmap in E as ([i j] & -> & E). simpl.
  apply list_elem_of_bind in E as (i' & E & Hi).
  apply list_elem_of_bind in E as (j' & E & Hj).
  apply list_elem_of_singleton in E. injection E as -> ->.
  apply elem_of_range in Hj. rewrite reverse_segment_perm; [done|lia].
Qed.

Lemma two_opt_loop_spec budget self t :
  valid self → Forall (in_bounds self) t →
  two_opt_loop budget self t (tour_cost self t) =
  Ret (local_search self (position_pairs 1 (n self)) budget t,
       tour_cost self (local_search self (position_pairs 1 (n self)) budget t)).
Proof.
  intros Hv. revert t. induction budget as [|b IH]; intros t Ht; simpl; [done|].
  rewrite two_opt_scan_spec by done. simpl.
  destruct (first_improvement _ _ t) as [t'|] eqn:E; simpl; [|done].
  apply IH. apply first_improvement_perm in E; [|lia]. by rewrite E.
Qed.

(** C6, amended: [two_opt] is first-improvement local search over the pairs
    of positions [(i, j)] with [1 <= i < j <= n-1]: every iteration scans
    these pairs in order, accepts the first reversal of the segment between
    [i] and [j] that costs strictly less than the current tour and starts
    the scan again; it stops when a scan finds no such pair or when the
    budget is used up. *)
Theorem two_opt_first_improvement (self : TSPSolver)
    (initial_tour : option (list Z)) (k : Z) :
  valid self →
  Forall (in_bounds self) (initial self initial_tour) →
  ∃ r, two_opt self initial_tour k = Ret r ∧
       tour r = local_search self (position_pairs 1 (n self)) (Z.to_nat k)
                  (initial self initial_tour) ∧
       cost r = Fin (tour_cost self (tour r)).
Proof.
  intros Hv Ht. unfold two_opt. fold (initial self initial_tour).
  rewrite calculate_tour_cost_tour_cost by done. simpl.
  rewrite two_opt_loop_spec by done. simpl. eauto.
Qed.

(** The asymmetric instance on which a reversal that starts at position 0 is
    the only improvement. *)
Definition m_asym : ndarray :=
  np_array [[0; 10; 1; 10]; [1; 0; 10; 10]; [10; 50; 0; 10]; [10; 1; 10; 0]].
Definition s_asym : TSPSolver := {| distance_matrix := m_asym; n := 4 |}.

(** C6, as stated, fails: on [m_asym] the scan over all pairs [i < j] would
    accept the pair [(0, 1)], which lowers the cost from 40 to 13, while
    [two_opt] returns the identity tour after one iteration, with 999
    iterations of its budget left. *)
Lemma two_opt_skips_position_0 :
  init m_asym = Ret s_asym ∧
  two_opt s_asym None 1000 =
    Ret {| tour := [0; 1; 2; 3]; cost := Fin 40; algorithm := "2-opt";
           num_cities := 4; is_optimal := false; approximation_ratio := None |} ∧
  (0, 1) ∈ position_pairs 0 4 ∧
  calculate_tour_cost s_asym (reverse_segment [0; 1; 2; 3] 0 1) = Ret 13 ∧
  two_opt s_asym None 1 = two_opt s_asym None 1000 ∧
  local_search s_asym (position_pairs 0 4) 1000 [0; 1; 2; 3] = [1; 0; 2; 3] ∧
  local_search s_asym (position_pairs 0 4) 1000 [0; 1; 2; 3] ≠ [0; 1; 2; 3].
Proof.
  split; [reflexivity|]. split; [by vm_compute|]. split; [by left|].
  split; [by vm_compute|]. split; [by vm_compute|]. split; [by vm_compute|].
  by vm_compute.
Qed.

(** *** 2-opt on list objects: the caller's list is left alone *)

Lemma alloc_spec (h : gmap nat (list Z)) (l : list Z) :
  h !! (alloc h l).2 = None ∧ (alloc h l).1 = <[(alloc h l).2 := l]> h.
Proof.
  unfold alloc. simpl. split; [|done].
  apply not_elem_of_dom, is_fresh.
Qed.

Lemma alloc_subseteq (h : gmap nat (list Z)) (l : list Z) : h ⊆ (alloc h l).1.
Proof.
  destruct (alloc_spec h l) as [Hf ->]. by apply insert_subseteq.
Qed.

Lemma lookup_total_Some (h : gmap nat (list Z)) (a : nat) (v : list Z) :
  h !! a = Some v → h !!! a = v.
Proof. intros H. by rewrite lookup_total_alt, H. Qed.

(** How the choice of a pass on objects relates to the choice of the pass on
    values: same cost, and the accepted tour is a new object. *)
Definition same_pick (h h' : gmap nat (list Z)) (r : option (nat * Z))
    (rv : option (list Z * Z)) : Prop :=
  match r, rv with
  | None, None => True
  | Some (a, c), Some (v, c') => c = c' ∧ h !! a = None ∧ h' !! a = Some v
  | _, _ => False
  end.

(** An outcome on objects that simulates an outcome on values. *)
Definition sim {A B : Type} (R : A → B → Prop) (st : outcome A) (val : outcome B)
  : Prop :=
  match val with
  | Ret b => ∃ a, st = Ret a ∧ R a b
  | Raise e => st = Raise e
  | OutOfFuel => st = OutOfFuel
  end.

Lemma same_pick_weaken h0 h h' r rv :
  h0 ⊆ h → same_pick h h' r rv → same_pick h0 h' r rv.
Proof.
  intros Hsub. destruct r as [[a c]|], rv as [[v c']|]; simpl; try done.
  intros (? & Hn & ?). repeat split; try done.
  destruct (h0 !! a) eqn:E; [|done].
  eapply lookup_weaken in E; [|done]. congruence.
Qed.

Lemma two_opt_scan_j_st_sim self h t v best i js :
  h !! t = Some v →
  sim (λ '(h', r) rv, h ⊆ h' ∧ same_pick h h' r rv)
    (two_opt_scan_j_st self h t best i js)
    (two_opt_scan_j self v best i js).
Proof.
  revert h. induction js as [|j js IH]; intros h Ht;
    cbn [two_opt_scan_j_st two_opt_scan_j].
  { exists (h, None). done. }
  rewrite (lookup_total_Some _ _ _ Ht).
  pose proof (alloc_spec h (reverse_segment v i j)) as [Hfresh Hh1].
  pose proof (alloc_subseteq h (reverse_segment v i j)) as Hsub.
  destruct (alloc h (reverse_segment v i j)) as [h1 a1]. simpl in *.
  assert (h1 !! a1 = Some (reverse_segment v i j)) as Ha1.
  { subst h1. apply lookup_insert_eq. }
  rewrite (lookup_total_Some _ _ _ Ha1).
  destruct (calculate_tour_cost self (reverse_segment v i j)) as [c| |]; simpl;
    try done.
  case_bool_decide.
  - exists (h1, Some (a1, c)). done.
  - specialize (IH h1 (lookup_weaken _ _ _ _ Ht Hsub)).
    unfold sim in *. destruct (two_opt_scan_j self v best i js) as [rv| |]; try done.
    destruct IH as ([h' r] & -> & Hsub' & Hpick). exists (h', r).
    split; [done|]. split; [by etrans|]. by eapply same_pick_weaken.
Qed.

Lemma two_opt_scan_i_st_sim self h t v best i_range :
  h !! t = Some v →
  sim (λ '(h', r) rv, h ⊆ h' ∧ same_pick h h' r rv)
    (two_opt_scan_i_st self h t best i_range)
    (two_opt_scan_i self v best i_range).
Proof.
  revert h. induction i_range as [|i i_range IH]; intros h Ht; simpl.
  { exists (h, None). done. }
  pose proof (two_opt_scan_j_st_sim self h t v best i
                (range (i + 1) (Z.of_nat (n self))) Ht) as Hj.
  unfold sim in Hj.
  destruct (two_opt_scan_j self v best i _) as [rv| |]; simpl;
    [|by rewrite Hj..].
  destruct Hj as ([h1 r] & -> & Hsub & Hpick). simpl.
  destruct r as [[a c]|], rv as [[v' c']|]; simpl in Hpick; try done.
  - exists (h1, Some (a, c)). done.
  - specialize (IH h1 (lookup_weaken _ _ _ _ Ht Hsub)).
    unfold sim in *. destruct (two_opt_scan_i self v best i_range) as [rv| |]; try done.
    destruct IH as ([h' r] & -> & Hsub' & Hpick'). exists (h', r).
    split; [done|]. split; [by etrans|]. by eapply same_pick_weaken.
Qed.

Lemma two_opt_loop_st_sim budget self h t v best :
  h !! t = Some v →
  sim (λ '(h', (t', c)) '(v', c'), h ⊆ h' ∧ c = c' ∧ h' !! t' = Some v' ∧
                                    (t' = t ∨ h !! t' = None))
    (two_opt_loop_st budget self h t best)
    (two_opt_loop budget self v best).
Proof.
  revert h t v best. induction budget as [|b IH]; intros h t v best Ht; simpl.
  { exists (h, (t, best)). naive_solver. }
  pose proof (two_opt_scan_i_st_sim self h t v best
                (range 1 (Z.of_nat (n self) - 1)) Ht) as Hi.
  unfold sim in Hi.
  destruct (two_opt_scan_i self v best _) as [rv| |]; simpl; [|by rewrite Hi..].
  destruct Hi as ([h1 r] & -> & Hsub & Hpick). simpl.
  destruct r as [[a c]|], rv as [[v' c']|]; simpl in Hpick; try done.
  - destruct Hpick as (-> & Hfresh & Ha).
    specialize (IH h1 a v' c' Ha). unfold sim in *.
    destruct (two_opt_loop b self v' c') as [[v2 c2]| |]; try done.
    destruct IH as ([h' [t' c]] & -> & Hsub' & -> & Ht' & Hor).
    exists (h', (t', c2)). split; [done|]. split; [by etrans|].
    split; [done|]. split; [done|]. right. destruct Hor as [->|Hn]; [done|].
    destruct (h !! t') eqn:E; [|done].
    eapply lookup_weaken in E; [|done]. congruence.
  - exists (h1, (t, best)). split; [done|]. split; [done|]. split; [done|].
    split; [|by left]. by eapply lookup_weaken.
Qed.

Lemma two_opt_st_sim self h a l k :
  h !! a = Some l →
  sim (λ '(h', t, r) rv, h ⊆ h' ∧ r = rv ∧ h' !! t = Some (tour r) ∧ h !! t = None)
    (two_opt_st self h (Some a) k)
    (two_opt self (Some l) k).
Proof.
  intros Ha. unfold two_opt_st, two_opt.
  rewrite (lookup_total_Some _ _ _ Ha).
  pose proof (alloc_spec h l) as [Hfresh Hh1].
  pose proof (alloc_subseteq h l) as Hsub.
  destruct (alloc h l) as [h1 t]. simpl in *.
  assert (h1 !! t = Some l) as Ht by (subst h1; apply lookup_insert_eq).
  rewrite (lookup_total_Some _ _ _ Ht).
  destruct (calculate_tour_cost self l) as [c0| |]; simpl; try done.
  pose proof (two_opt_loop_st_sim (Z.to_nat k) self h1 t l c0 Ht) as Hl.
  unfold sim in Hl.
  destruct (two_opt_loop (Z.to_nat k) self l c0) as [[v c]| |]; simpl;
    [|by rewrite Hl..].
  destruct Hl as ([h' [t' c']] & -> & Hsub' & -> & Ht' & Hor). simpl.
  eexists (_, _, _). split; [done|]. simpl.
  rewrite (lookup_total_Some _ _ _ Ht').
  split; [by etrans|]. split; [done|]. split; [done|].
  destruct Hor as [->|Hn]; [done|].
  destruct (h !! t') eqn:E; [|done].
  eapply lookup_weaken in E; [|done]. congruence.
Qed.

(** C10: [two_opt], run on the address [a] of the caller's list [l], returns
    whenever the cost of [l] is defined; every object of the caller's store,
    the list at [a] among them, is unchanged in the final store; the list
    placed in the result is a new object; its contents are reached from [l] by
    reversals of contiguous segments and are a permutation of [l], whatever
    [l] is. *)
Theorem two_opt_keeps_initial_tour (self : TSPSolver) (h : gmap nat (list Z))
    (a : nat) (l : list Z) (k : Z) :
  valid self → h !! a = Some l → Forall (in_bounds self) l →
  ∃ h' t r,
    two_opt_st self h (Some a) k = Ret (h', t, r) ∧
    two_opt self (Some l) k = Ret r ∧
    h' !! a = Some l ∧ h ⊆ h' ∧
    t ≠ a ∧ h !! t = None ∧ h' !! t = Some (tour r) ∧
    reversals l (tour r) ∧ tour r ≡ₚ l.
Proof.
  intros Hv Ha Hl. pose proof (two_opt_st_sim self h a l k Ha) as Hsim.
  destruct (two_opt_is_Ret self (Some l) k Hv Hl) as (r & Hr).
  unfold sim in Hsim. rewrite Hr in Hsim.
  destruct Hsim as ([[h' t] r'] & Hst & Hsub & -> & Ht & Hfresh).
  exists h', t, r. repeat split; try done.
  - by eapply lookup_weaken.
  - intros ->. congruence.
  - apply two_opt_Ret in Hr as (c0 & c & _ & Hrev & _); done.
  - apply two_opt_Ret in Hr as (c0 & c & _ & Hrev & _); [|done].
    by apply reversals_perm.
Qed.

(** ** Tours *)

(** The cities of a solver, in order. *)
Definition cities (self : TSPSolver) : list Z := range 0 (Z.of_nat (n self)).

(** A Hamiltonian cycle: every city exactly once. *)
Definition hamiltonian (self : TSPSolver) (t : list Z) : Prop := t ≡ₚ cities self.

Lemma elem_of_cities self x : x ∈ cities self ↔ 0 ≤ x < Z.of_nat (n self).
Proof. apply elem_of_range. Qed.

Lemma hamiltonian_Forall self t :
  hamiltonian self t → Forall (λ x, 0 ≤ x < Z.of_nat (n self)) t.
Proof.
  intros H. apply Forall_forall. intros x Hx. apply elem_of_cities. by rewrite <- H.
Qed.

Lemma hamiltonian_length self t : hamiltonian self t → length t = n self.
Proof.
  intros H. rewrite H. unfold cities. rewrite length_range. lia.
Qed.

Lemma hamiltonian_NoDup self t : hamiltonian self t → NoDup t.
Proof. intros H. rewrite H. apply NoDup_range. Qed.

Lemma cycle_cost_cons self a u :
  cycle_cost self (a :: u) =
  path_cost self (a :: u) + edge self (default a (last u)) a.
Proof.
  unfold cycle_cost. simpl take.
  destruct (decide (u = [])) as [->|Hne]; [simpl; lia|].
  destruct (exists_last Hne) as (p & z & ->). rewrite last_snoc. simpl default.
  rewrite !app_comm_cons. apply path_cost_snoc.
Qed.

(** What a result must satisfy: the tour is a Hamiltonian cycle of
    [num_cities] cities and the cost is the cost of the tour. *)
Definition well_formed (self : TSPSolver) (r : TSPResult) : Prop :=
  length (tour r) = num_cities r ∧ num_cities r = n self ∧
  hamiltonian self (tour r) ∧
  ∃ c, cost r = Fin c ∧ calculate_tour_cost self (tour r) = Ret c.

(** ** Sets and [min] *)

Lemma set_remove_Ret (x : Z) (s : list Z) :
  x ∈ s → set_remove x s = Ret (filter (λ y, y ≠ x) s).
Proof. intros H. unfold set_remove. by rewrite bool_decide_eq_true_2. Qed.

Lemma set_remove_Raise (x : Z) (s : list Z) :
  x ∉ s → set_remove x s = Raise KeyError.
Proof. intros H. unfold set_remove. by rewrite bool_decide_eq_false_2. Qed.

Lemma filter_ne_length (x : Z) (s : list Z) :
  x ∈ s → (length (filter (λ y, y ≠ x) s) < length s)%nat.
Proof.
  induction s as [|y s IH]; [by intros ?%elem_of_nil|].
  intros Hx. rewrite filter_cons. case_decide as Hy; simpl.
  - apply elem_of_cons in Hx as [->|Hx]; [done|]. specialize (IH Hx). lia.
  - pose proof (length_filter (λ y, y ≠ x) s). lia.
Qed.

Lemma filter_ne_perm (x : Z) (s : list Z) :
  NoDup s → x ∈ s → s ≡ₚ x :: filter (λ y, y ≠ x) s.
Proof.
  intros Hnd Hx. apply NoDup_Permutation; [done| |].
  - constructor; [|by apply NoDup_filter].
    rewrite list_elem_of_filter. naive_solver.
  - intros y. rewrite elem_of_cons, list_elem_of_filter.
    destruct (decide (y = x)); naive_solver.
Qed.

Lemma Forall_filter_keep {A : Type} (P Q : A → Prop) `{!∀ x, Decision (Q x)}
    (l : list A) :
  Forall P l → Forall P (filter Q l).
Proof.
  rewrite !Forall_forall. intros HP x [_ Hx]%list_elem_of_filter. by apply HP.
Qed.

Lemma py_min_elem (xs : list Z) (key : Z → outcome Z) :
  xs ≠ [] → (∀ x, x ∈ xs → ∃ k, key x = Ret k) →
  ∃ m, py_min xs key = Ret m ∧ m ∈ xs.
Proof.
  intros Hne Hkey. destruct xs as [|x xs]; [done|]. simpl.
  destruct (Hkey x) as (kx & ->); [by left|]. simpl.
  destruct (for_each_inv (λ _ (b : Z * Z), b.1 ∈ x :: xs) xs (x, kx)
              (λ '(best, kbest) y, ky ← key y;
                 if bool_decide (ky < kbest) then Ret (y, ky) else Ret (best, kbest)))
    as (b & -> & Hb).
  - by left.
  - intros done y rest [best kbest] Hl Hin.
    destruct (Hkey y) as (ky & ->).
    { rewrite Hl. set_solver. }
    simpl. case_bool_decide; eexists; (split; [done|]); simpl; [|done].
    rewrite Hl. set_solver.
  - simpl. eauto.
Qed.

(** ** Nearest neighbour *)

Lemma path_cost_single self a : path_cost self [a] = 0.
Proof. done. Qed.

Lemma path_cost_cons2 self a b p :
  path_cost self (a :: b :: p) = edge self a b + path_cost self (b :: p).
Proof. done. Qed.

Arguments path_cost : simpl never.

Section Nearest.

Context (set_order : list Z → list Z).
Context (set_order_perm : ∀ l, set_order l ≡ₚ l).
Context (self : TSPSolver) (Hvalid : valid self).

Lemma last_cons_default (a x : Z) (u : list Z) :
  default a (last (x :: u)) = default x (last u).
Proof. destruct u as [|y u]; [done|]. rewrite last_cons. by destruct (last (y :: u)). Qed.

Lemma nn_loop_Ret fuel unvisited t current total :
  NoDup unvisited →
  Forall (λ x, 0 ≤ x < Z.of_nat (n self)) unvisited →
  0 ≤ current < Z.of_nat (n self) →
  (length unvisited ≤ fuel)%nat →
  ∃ u, u ≡ₚ unvisited ∧
    nn_loop set_order fuel self unvisited t current (int64 total) =
    Ret (t ++ u, default current (last u),
         int64 (total + path_cost self (current :: u))).
Proof.
  revert unvisited t current total.
  induction fuel as [|fuel IH]; intros unvisited t current total Hnd Hall Hcur Hlen.
  { destruct unvisited; [|simpl in Hlen; lia].
    exists []. split; [done|]. simpl. rewrite app_nil_r. do 3 f_equal.
    rewrite path_cost_single. lia. }
  destruct unvisited as [|x xs].
  { exists []. split; [done|]. simpl. rewrite app_nil_r. do 3 f_equal.
    rewrite path_cost_single. lia. }
  cbn [nn_loop]. remember (x :: xs) as unvisited eqn:Eu.
  destruct (py_min_elem (set_order unvisited)
              (λ x, getitem2 (distance_matrix self) current x)) as (m & -> & Hm).
  { intros E. pose proof (set_order_perm unvisited) as Hp. rewrite E, Eu in Hp.
    by apply Permutation_nil_cons in Hp. }
  { intros y Hy. rewrite set_order_perm in Hy.
    rewrite getitem2_edge; eauto. by eapply (proj1 (Forall_forall _ _) Hall). }
  rewrite set_order_perm in Hm.
  assert (0 ≤ m < Z.of_nat (n self)) as Hmr by by eapply (proj1 (Forall_forall _ _) Hall).
  simpl. rewrite getitem2_edge by done. simpl.
  rewrite set_remove_Ret by done. simpl. rewrite np_add_int64.
  destruct (IH (filter (λ y, y ≠ m) unvisited) (t ++ [m]) m
              (total + edge self current m)) as (u & Hu & ->).
  - by apply NoDup_filter.
  - by apply Forall_filter_keep.
  - done.
  - pose proof (filter_ne_length m unvisited Hm). lia.
  - exists (m :: u). split.
    + rewrite Hu. symmetry. by apply filter_ne_perm.
    + rewrite last_cons_default, <- app_assoc. simpl app.
      do 3 f_equal. rewrite path_cost_cons2. lia.
Qed.

Lemma nearest_neighbor_Ret start :
  0 ≤ start < Z.of_nat (n self) →
  ∃ r, nearest_neighbor set_order self start = Ret r ∧
       head (tour r) = Some start ∧ well_formed self r.
Proof.
  intros Hs. unfold nearest_neighbor. fold (cities self).
  assert (start ∈ cities self) as Hin by by apply elem_of_cities.
  rewrite set_remove_Ret by done. simpl.
  change (nn_loop set_order (n self) self (filter (λ y, y ≠ start) (cities self))
            [start] start 0)
    with (nn_loop set_order (n self) self (filter (λ y, y ≠ start) (cities self))
            [start] start (int64 0)).
  destruct (nn_loop_Ret (n self) (filter (λ y, y ≠ start) (cities self)) [start]
              start 0) as (u & Hu & ->).
  - apply NoDup_filter, NoDup_range.
  - apply Forall_filter_keep, Forall_forall. intros x. apply elem_of_cities.
  - done.
  - pose proof (filter_ne_length start (cities self) Hin) as Hlt.
    unfold cities in Hlt at 2. rewrite length_range in Hlt. lia.
  - assert (hamiltonian self (start :: u)) as Hham.
    { unfold hamiltonian. rewrite Hu. symmetry.
      apply filter_ne_perm; [apply NoDup_range|done]. }
    assert (0 ≤ default start (last u) < Z.of_nat (n self)) as Hl.
    { destruct (last u) as [z|] eqn:E; [|done]. simpl.
      apply last_Some_elem_of in E.
      apply hamiltonian_Forall in Hham.
      eapply (proj1 (Forall_forall _ _) Hham). by right. }
    simpl. rewrite getitem2_edge by done. simpl.
    eexists. split; [done|]. cbn [tour cost num_cities]. split; [done|].
    split; [by apply hamiltonian_length in Hham|]. split; [done|]. split; [done|].
    eexists. split; [done|].
    rewrite calculate_tour_cost_cycle; [|done|by apply hamiltonian_Forall].
    cbn [tour]. rewrite cycle_cost_cons, np_add_int64. done.
Qed.

Lemma nearest_neighbor_Raise start :
  ¬ (0 ≤ start < Z.of_nat (n self)) →
  nearest_neighbor set_order self start = Raise KeyError.
Proof.
  intros Hs. unfold nearest_neighbor.
  rewrite set_remove_Raise; [done|]. by rewrite elem_of_range.
Qed.

End Nearest.

(** C9: [nearest_neighbor] does not check its starting city: with
    [0 <= start < n] it returns a tour that begins with [start]; with any other
    [start] it raises [KeyError], which is not one of the [ValueError]s of the
    solver. *)
Theorem nearest_neighbor_start (set_order : list Z → list Z) (self : TSPSolver)
    (start : Z) :
  (∀ l, set_order l ≡ₚ l) → valid self →
  (0 ≤ start < Z.of_nat (n self) →
     ∃ r, nearest_neighbor set_order self start = Ret r ∧
          head (tour r) = Some start) ∧
  (¬ (0 ≤ start < Z.of_nat (n self)) →
     nearest_neighbor set_order self start = Raise KeyError ∧
     ∀ msg, nearest_neighbor set_order self start ≠ Raise (ValueError msg)).
Proof.
  intros Hperm Hv. split.
  - intros Hs. destruct (nearest_neighbor_Ret set_order Hperm self Hv start Hs)
      as (r & Hr & Hh & _). eauto.
  - intros Hs. rewrite (nearest_neighbor_Raise set_order self start Hs). done.
Qed.

(** ** Dispatch *)

(** C5: [solve] in "auto" mode runs [held_karp] for [n <= 15], [christofides]
    for [15 < n <= 100] and otherwise [nearest_neighbor] followed by [two_opt]
    on the tour it found; the four names of solvers run that solver, "2-opt"
    from the identity tour; any other name raises the [ValueError] for an
    unknown algorithm. *)
Theorem solve_dispatch (set_order : list Z → list Z) (self : TSPSolver)
    (name : string) :
  (name = "auto" →
     ((n self ≤ 15)%nat → solve set_order self name = held_karp self) ∧
     ((15 < n self ≤ 100)%nat →
        solve set_order self name = christofides set_order self) ∧
     ((100 < n self)%nat →
        solve set_order self name =
        (nn_result ← nearest_neighbor set_order self 0;
         two_opt self (Some (tour nn_result)) 1000))) ∧
  (name = "held-karp" → solve set_order self name = held_karp self) ∧
  (name = "christofides" →
     solve set_order self name = christofides set_order self) ∧
  (name = "nearest-neighbor" →
     solve set_order self name = nearest_neighbor set_order self 0) ∧
  (name = "2-opt" → solve set_order self name = two_opt self None 1000) ∧
  (name ∉ ["auto"; "held-karp"; "christofides"; "nearest-neighbor"; "2-opt"] →
     solve set_order self name = Raise (ValueError ("Unknown algorithm: " +:+ name))).
Proof.
  split; [intros ->; repeat split|repeat split].
  - intros Hn. unfold solve. simpl. by rewrite bool_decide_eq_true_2.
  - intros Hn. unfold solve. simpl.
    rewrite bool_decide_eq_false_2 by lia. by rewrite bool_decide_eq_true_2 by lia.
  - intros Hn. unfold solve. simpl.
    rewrite bool_decide_eq_false_2 by lia. by rewrite bool_decide_eq_false_2 by lia.
  - by intros ->.
  - by intros ->.
  - by intros ->.
  - by intros ->.
  - intros Hn. unfold solve.
    rewrite bool_decide_eq_false_2 by (intros ->; apply Hn; set_solver).
    simpl. repeat (case_decide; [subst; exfalso; apply Hn; set_solver|]). done.
Qed.

(** ** Held-Karp: bit masks of subsets *)

Lemma Forall_elem {A : Type} (P : A → Prop) (l : list A) (x : A) :
  Forall P l → x ∈ l → P x.
Proof. rewrite Forall_forall. auto. Qed.

(** The mask of a list of cities, as [held_karp] computes it. *)
Definition bits (l : list Z) : Z := sum ((λ i, Z.shiftl 1 i) <$> l).

Lemma foldl_add (a : Z) (xs : list Z) : foldl Z.add a xs = a + sum xs.
Proof.
  unfold sum. revert a. induction xs as [|x xs IH]; intros a; simpl; [lia|].
  rewrite (IH (a + x)), (IH (0 + x)). lia.
Qed.

Lemma sum_cons (x : Z) (xs : list Z) : sum (x :: xs) = x + sum xs.
Proof. unfold sum at 1. simpl. rewrite foldl_add. lia. Qed.

Lemma bits_cons (x : Z) (l : list Z) : bits (x :: l) = 2 ^ x + bits l.
Proof. unfold bits. rewrite fmap_cons, sum_cons. by rewrite Z.shiftl_1_l. Qed.

Lemma bits_nil : bits [] = 0.
Proof. done. Qed.

Lemma bits_spec (l : list Z) :
  NoDup l → Forall (λ x, 0 ≤ x) l →
  0 ≤ bits l ∧ ∀ i, 0 ≤ i → Z.testbit (bits l) i = bool_decide (i ∈ l).
Proof.
  induction l as [|x l IH]; intros Hnd Hpos.
  - rewrite bits_nil. split; [lia|]. intros i Hi. rewrite Z.testbit_0_l.
    symmetry. apply bool_decide_eq_false. apply not_elem_of_nil.
  - apply NoDup_cons in Hnd as [Hx Hnd]. apply Forall_cons in Hpos as [Hx0 Hpos].
    destruct (IH Hnd Hpos) as [Hb Hbits]. rewrite bits_cons.
    assert (Z.land (2 ^ x) (bits l) = 0) as Hland.
    { apply Z.bits_inj'. intros i Hi.
      rewrite Z.land_spec, Z.testbit_0_l, Z.pow2_bits_eqb, Hbits by lia.
      destruct (Z.eqb_spec x i) as [->|]; [|done].
      by rewrite bool_decide_eq_false_2. }
    rewrite Z.add_nocarry_lxor, Z.lxor_lor by done. split.
    + apply Z.lor_nonneg. split; [|done]. apply Z.pow_nonneg. lia.
    + intros i Hi. rewrite Z.lor_spec, Z.pow2_bits_eqb, Hbits by lia.
      destruct (Z.eqb_spec x i) as [->|Hne]; simpl.
      * symmetry. apply bool_decide_eq_true. by left.
      * apply bool_decide_ext. rewrite elem_of_cons. naive_solver.
Qed.

Lemma bits_perm (l l' : list Z) : l ≡ₚ l' → bits l = bits l'.
Proof.
  induction 1 as [|x l l' _ IH|x y l|l1 l2 l3 _ IH1 _ IH2];
    rewrite ?bits_cons; lia.
Qed.

Lemma bits_inj (l l' : list Z) :
  NoDup l → Forall (λ x, 0 ≤ x) l → NoDup l' → Forall (λ x, 0 ≤ x) l' →
  bits l = bits l' → l ≡ₚ l'.
Proof.
  intros Hnd Hpos Hnd' Hpos' Heq.
  destruct (bits_spec l Hnd Hpos) as [_ Hb].
  destruct (bits_spec l' Hnd' Hpos') as [_ Hb'].
  apply NoDup_Permutation; [done..|]. intros i.
  assert (∀ k k' : list Z, Forall (λ x, 0 ≤ x) k →
            (∀ i, 0 ≤ i → Z.testbit (bits k) i = bool_decide (i ∈ k)) →
            (∀ i, 0 ≤ i → Z.testbit (bits k') i = bool_decide (i ∈ k')) →
            bits k = bits k' → i ∈ k → i ∈ k') as Hdir.
  { intros k k' Hk Hbk Hbk' E Hi.
    pose proof (Forall_elem _ _ _ Hk Hi) as Hi0. simpl in Hi0.
    specialize (Hbk i Hi0). specialize (Hbk' i Hi0).
    rewrite E, Hbk' in Hbk. rewrite (bool_decide_eq_true_2 (i ∈ k)) in Hbk by done.
    by apply bool_decide_eq_true in Hbk. }
  split; eauto.
Qed.

(** Clearing the bit of [x] removes [x] from the subset. *)
Lemma bits_clear (l : list Z) (x : Z) :
  NoDup l → Forall (λ y, 0 ≤ y) l → 0 ≤ x →
  Z.land (bits l) (Z.lnot (Z.shiftl 1 x)) = bits (filter (λ y, y ≠ x) l).
Proof.
  intros Hnd Hpos Hx.
  destruct (bits_spec l Hnd Hpos) as [Hb0 Hb].
  destruct (bits_spec (filter (λ y, y ≠ x) l)) as [Hf0 Hf].
  { by apply NoDup_filter. }
  { by apply Forall_filter_keep. }
  apply Z.bits_inj'. intros i Hi.
  rewrite Z.land_spec, Z.lnot_spec, Z.shiftl_1_l, Z.pow2_bits_eqb, Hb, Hf by lia.
  destruct (Z.eqb_spec x i) as [->|Hne]; simpl.
  - rewrite andb_false_r. symmetry. apply bool_decide_eq_false.
    rewrite list_elem_of_filter. naive_solver.
  - rewrite andb_true_r. apply bool_decide_ext.
    rewrite list_elem_of_filter. naive_solver.
Qed.

(** The mask of all cities. *)
Lemma bits_range (len : nat) : bits (range 0 (Z.of_nat len)) = Z.shiftl 1 (Z.of_nat len) - 1.
Proof.
  destruct (bits_spec (range 0 (Z.of_nat len))) as [H0 Hb].
  { apply NoDup_range. }
  { apply Forall_forall. intros x Hx%elem_of_range. lia. }
  rewrite Z.shiftl_1_l, Z.sub_1_r, <- Z.ones_equiv.
  apply Z.bits_inj'. intros i Hi. rewrite Hb by done.
  destruct (decide (i < Z.of_nat len)).
  - rewrite Z.ones_spec_low by lia. apply bool_decide_eq_true, elem_of_range. lia.
  - rewrite Z.ones_spec_high by lia. apply bool_decide_eq_false.
    rewrite elem_of_range. lia.
Qed.

(** ** Held-Karp: costs with infinity *)

Lemma ecost_ltb_Fin (a b : Z) : ecost_ltb (Fin a) (Fin b) = bool_decide (a < b).
Proof. simpl. destruct (Z.ltb_spec a b); by rewrite ?bool_decide_eq_true_2, ?bool_decide_eq_false_2 by lia. Qed.

Lemma ecost_ltb_false_trans (a b c : ecost) :
  ecost_ltb b a = false → ecost_ltb c b = false → ecost_ltb c a = false.
Proof.
  destruct a, b, c; simpl; try done; rewrite !Z.ltb_ge; lia.
Qed.

Lemma ecost_ltb_irrefl (a : ecost) : ecost_ltb a a = false.
Proof. destruct a; simpl; [apply Z.ltb_irrefl|done]. Qed.

Lemma ecost_ltb_asym (a b : ecost) : ecost_ltb a b = true → ecost_ltb b a = false.
Proof. destruct a, b; simpl; try done. rewrite Z.ltb_lt, Z.ltb_ge. lia. Qed.

(** The loop that keeps the least value met so far and where it was met. *)
Lemma argmin_loop (l : list Z) (skip : Z → bool) (val : Z → ecost)
    (body : ecost * Z → Z → outcome (ecost * Z)) :
  (∀ mc mp x, x ∈ l →
     body (mc, mp) x =
     Ret (if skip x then (mc, mp)
          else if ecost_ltb (val x) mc then (val x, x) else (mc, mp))) →
  ∃ mc mp, for_each l (Inf, -1) body = Ret (mc, mp) ∧
    (∀ x, x ∈ l → skip x = false → ecost_ltb (val x) mc = false) ∧
    (mc = Inf ∨ (mp ∈ l ∧ skip mp = false ∧ val mp = mc)).
Proof.
  intros Hbody.
  destruct (for_each_inv (λ done '(mc, mp),
      (∀ x, x ∈ done → skip x = false → ecost_ltb (val x) mc = false) ∧
      (mc = Inf ∨ (mp ∈ done ∧ skip mp = false ∧ val mp = mc)))
    l (Inf, -1) body) as ([mc mp] & Hr & Hinv).
  - split; [|by left]. intros x Hx. by apply elem_of_nil in Hx.
  - intros done x rest [mc mp] Hl [Hmin Harg].
    rewrite Hbody by (rewrite Hl; set_solver).
    eexists. split; [done|].
    destruct (skip x) eqn:Hs; [|destruct (ecost_ltb (val x) mc) eqn:Hlt].
    + split.
      * intros y [Hy| ->%list_elem_of_singleton]%elem_of_app Hy'; [eauto|congruence].
      * destruct Harg as [?|(? & ? & ?)]; [by left|right]. set_solver.
    + split.
      * intros y [Hy| ->%list_elem_of_singleton]%elem_of_app Hy'.
        -- eapply ecost_ltb_false_trans; [|by apply Hmin].
           by apply ecost_ltb_asym.
        -- apply ecost_ltb_irrefl.
      * right. set_solver.
    + split.
      * intros y [Hy| ->%list_elem_of_singleton]%elem_of_app Hy'; [eauto|done].
      * destruct Harg as [?|(? & ? & ?)]; [by left|right]. set_solver.
  - exists mc, mp. done.
Qed.

(** ** Held-Karp: the subsets that are enumerated *)

Lemma elem_of_combinations {A : Type} (l s : list A) (k : nat) :
  s ∈ combinations l k ↔ sublist s l ∧ length s = k.
Proof.
  revert s k. induction l as [|x l IH]; intros s k.
  - destruct k; simpl.
    + rewrite list_elem_of_singleton. split.
      * by intros ->.
      * intros [H%sublist_nil_r _]. done.
    + split; [by intros ?%elem_of_nil|].
      intros [->%sublist_nil_r ?]. done.
  - destruct k; simpl.
    + rewrite list_elem_of_singleton. split.
      * intros ->. split; [apply sublist_nil_l|done].
      * intros [_ Hlen]. by destruct s.
    + rewrite elem_of_app, list_elem_of_fmap. split.
      * intros [(s' & -> & Hs')|Hs].
        -- apply IH in Hs' as [? ?]. split; [by constructor|simpl; lia].
        -- apply IH in Hs as [? ?]. split; [by constructor|done].
      * intros [Hsub Hlen]. apply sublist_cons_r in Hsub as [Hsub|(s' & -> & Hsub)].
        -- right. by apply IH.
        -- left. exists s'. split; [done|]. apply IH. simpl in Hlen. split; [done|lia].
Qed.

Lemma combinations_cover (l s : list Z) :
  NoDup l → NoDup s → s ⊆ l →
  ∃ s', s' ∈ combinations l (length s) ∧ s' ≡ₚ s.
Proof.
  intros Hl Hs Hsub. exists (filter (λ x, x ∈ s) l).
  assert (filter (λ x, x ∈ s) l ≡ₚ s) as Hp.
  { apply NoDup_Permutation; [by apply NoDup_filter|done|].
    intros x. rewrite list_elem_of_filter. set_solver. }
  split; [|done]. apply elem_of_combinations. split.
  - apply sublist_filter.
  - by rewrite Hp.
Qed.

(** ** Held-Karp: the table *)

Lemma path_cost_snoc' (self : TSPSolver) (p : list Z) (a b : Z) :
  path_cost self (p ++ [a; b]) = path_cost self (p ++ [a]) + edge self a b.
Proof.
  replace (p ++ [a; b]) with ((p ++ [a]) ++ [b]) by by rewrite <- app_assoc.
  apply path_cost_snoc.
Qed.

Lemma path_cost_app (self : TSPSolver) (p q : list Z) (a : Z) :
  path_cost self (p ++ a :: q) = path_cost self (p ++ [a]) + path_cost self (a :: q).
Proof.
  induction p as [|x p IH]; simpl app.
  - rewrite path_cost_single. lia.
  - destruct p as [|y p]; simpl app in *.
    + rewrite !path_cost_cons2, path_cost_single. lia.
    + rewrite !path_cost_cons2, IH. lia.
Qed.

(** The cost of a cycle does not depend on where the cycle is entered. *)
Lemma cycle_cost_rotate (self : TSPSolver) (t1 t2 : list Z) :
  cycle_cost self (t1 ++ t2) = cycle_cost self (t2 ++ t1).
Proof.
  destruct t1 as [|a t1]; [by rewrite app_nil_r|].
  destruct t2 as [|b t2]; [by rewrite app_nil_r|].
  change (cycle_cost self ((a :: t1) ++ b :: t2))
    with (path_cost self (((a :: t1) ++ b :: t2) ++ [a])).
  change (cycle_cost self ((b :: t2) ++ a :: t1))
    with (path_cost self (((b :: t2) ++ a :: t1) ++ [b])).
  rewrite <- !app_assoc.
  change ((b :: t2) ++ [a]) with (b :: (t2 ++ [a])).
  change ((a :: t1) ++ [b]) with (a :: (t1 ++ [b])).
  rewrite (path_cost_app self (a :: t1) (t2 ++ [a]) b).
  rewrite (path_cost_app self (b :: t2) (t1 ++ [b]) a).
  simpl app. lia.
Qed.

(** ** Sums that fit 64 bits *)

(** The entries are so small that no sum of [n] of them leaves the range of
    int64: they lie between [-B] and [B] for a [B] with [n * B < 2^63]. *)
Definition no_overflow (self : TSPSolver) : Prop :=
  ∃ B, Z.of_nat (n self) * B < 2 ^ 63 ∧
    ∀ i j, (i < n self)%nat → (j < n self)%nat →
      - B ≤ item (distance_matrix self) i j ≤ B.

Lemma path_cost_bound (self : TSPSolver) (B : Z) (p : list Z) :
  (∀ i j, (i < n self)%nat → (j < n self)%nat →
     - B ≤ item (distance_matrix self) i j ≤ B) →
  Forall (λ x, 0 ≤ x < Z.of_nat (n self)) p →
  - (Z.of_nat (length p - 1) * B) ≤ path_cost self p ≤ Z.of_nat (length p - 1) * B.
Proof.
  intros HB. induction p as [|a p IH]; intros Hp; [done|].
  apply Forall_cons in Hp as [Ha Hp]. specialize (IH Hp).
  destruct p as [|b p]; [done|]. apply Forall_cons in Hp as [Hb _].
  rewrite path_cost_cons2.
  pose proof (HB (Z.to_nat a) (Z.to_nat b) ltac:(lia) ltac:(lia)) as He.
  fold (edge self a b) in He.
  replace (Z.of_nat (length (a :: b :: p) - 1))
    with (Z.of_nat (length (b :: p) - 1) + 1) by (simpl; lia).
  lia.
Qed.

(** Without overflow the 64 bits hold the sum itself. *)
Lemma path_cost_exact (self : TSPSolver) (p : list Z) :
  no_overflow self → Forall (λ x, 0 ≤ x < Z.of_nat (n self)) p →
  (length p ≤ n self + 1)%nat →
  int64 (path_cost self p) = path_cost self p.
Proof.
  intros (B & HnB & HB) Hp Hlen. apply int64_small.
  pose proof (path_cost_bound self B p HB Hp) as Hb.
  destruct p as [|a [|b p]]; [done|done|].
  assert (0 ≤ B) as HB0.
  { apply Forall_cons in Hp as [Ha [Hb' _]%Forall_cons].
    pose proof (HB (Z.to_nat a) (Z.to_nat b) ltac:(lia) ltac:(lia)). lia. }
  assert (Z.of_nat (length (a :: b :: p) - 1) * B ≤ Z.of_nat (n self) * B).
  { apply Z.mul_le_mono_nonneg_r; [done|]. simpl in *. lia. }
  lia.
Qed.

Lemma cycle_cost_exact (self : TSPSolver) (t : list Z) :
  no_overflow self → Forall (λ x, 0 ≤ x < Z.of_nat (n self)) t →
  (length t ≤ n self)%nat →
  int64 (cycle_cost self t) = cycle_cost self t.
Proof.
  intros Hno Ht Hlen. unfold cycle_cost. apply path_cost_exact; [done| |].
  - apply Forall_app. split; [done|]. by apply Forall_take.
  - rewrite length_app, length_take. lia.
Qed.

(** Without overflow the cost that the code computes is the sum around the
    cycle. *)
Lemma calculate_tour_cost_exact (self : TSPSolver) (t : list Z) :
  valid self → no_overflow self →
  Forall (λ x, 0 ≤ x < Z.of_nat (n self)) t → (length t ≤ n self)%nat →
  calculate_tour_cost self t = Ret (cycle_cost self t).
Proof.
  intros Hv Hno Ht Hlen.
  by rewrite calculate_tour_cost_cycle, cycle_cost_exact.
Qed.

(** One more step at the end of a path, without overflow. *)
Lemma np_add_path_exact (self : TSPSolver) (q : list Z) (x e : Z) :
  no_overflow self → Forall (λ x, 0 ≤ x < Z.of_nat (n self)) (q ++ [x; e]) →
  (length q + 1 ≤ n self)%nat →
  np_add (int64 (path_cost self (q ++ [x]))) (edge self x e) =
  path_cost self (q ++ [x]) + edge self x e.
Proof.
  intros Hno Hq Hlen. rewrite np_add_int64, <- path_cost_snoc'.
  apply path_cost_exact; [done..|]. rewrite length_app. simpl. lia.
Qed.

Section HeldKarp.

Context (self : TSPSolver) (Hvalid : valid self).

(** A set of cities other than city 0, as a list. *)
Definition subset_ok (s : list Z) : Prop :=
  NoDup s ∧ Forall (λ x, 1 ≤ x < Z.of_nat (n self)) s.

(** A path that starts in city 0, then visits the cities of [s], each once,
    and ends in [e]. *)
Definition zero_path (s : list Z) (e : Z) (q : list Z) : Prop :=
  ∃ q', q = 0 :: q' ∧ q' ≡ₚ s ∧ last q' = Some e.

(** The entry of the table for the set [s] and the last city [e] is the
    cost of such a path, as 64 bits hold it, and its link leads to an entry
    from which this cost arises; without overflow it is the least cost of
    such a path. *)
Definition good (dp : gmap (Z * Z) (ecost * Z)) (s : list Z) (e : Z) : Prop :=
  ∃ c prev,
    dp !! (bits (0 :: s), e) = Some (Fin c, prev) ∧
    (∃ q, zero_path s e q ∧ c = int64 (path_cost self q)) ∧
    (no_overflow self → ∀ q, zero_path s e q → c ≤ path_cost self q) ∧
    ((length s = 1%nat ∧ prev = 0 ∧ c = np_add 0 (edge self 0 e)) ∨
     (prev ∈ s ∧ prev ≠ e ∧
      ∃ c' p', dp !! (bits (0 :: filter (λ y, y ≠ e) s), prev) = Some (Fin c', p') ∧
               c = np_add c' (edge self prev e))).

Definition zero_inv (dp : gmap (Z * Z) (ecost * Z)) : Prop :=
  dp !! (1, 0) = Some (Fin 0, -1) ∧ ∀ m, m ≠ 1 → dp !! (m, 0) = None.

(** The invariant of the loops that fill the table: the entries of the sets
    selected by [P] are in place. *)
Definition hk_inv (dp : gmap (Z * Z) (ecost * Z)) (P : list Z → Z → Prop) : Prop :=
  zero_inv dp ∧ ∀ s e, subset_ok s → e ∈ s → P s e → good dp s e.

Lemma subset_ok_perm s s' : s ≡ₚ s' → subset_ok s → subset_ok s'.
Proof. intros Hp [H1 H2]. split; by rewrite <- Hp. Qed.

Lemma subset_ok_cons0 s :
  subset_ok s → NoDup (0 :: s) ∧ Forall (λ x, 0 ≤ x) (0 :: s).
Proof.
  intros [Hnd Hall]. split.
  - constructor; [|done]. intros H0. pose proof (Forall_elem _ _ _ Hall H0). simpl in *. lia.
  - constructor; [done|]. eapply Forall_impl; [done|]. simpl. lia.
Qed.

Lemma subset_ok_filter s e : subset_ok s → subset_ok (filter (λ y, y ≠ e) s).
Proof. intros [H1 H2]. split; [by apply NoDup_filter|by apply Forall_filter_keep]. Qed.

Lemma subset_ok_length s : subset_ok s → (length s < n self)%nat.
Proof.
  intros [Hnd Hall].
  assert (s ⊆+ range 1 (Z.of_nat (n self))) as Hsub.
  { apply NoDup_submseteq; [done|]. intros x Hx. apply elem_of_range.
    apply (Forall_elem _ _ _ Hall Hx). }
  apply submseteq_length in Hsub. rewrite length_range in Hsub.
  apply valid_inv in Hvalid. lia.
Qed.

Lemma bits_cons0_inj s s' :
  subset_ok s → subset_ok s' → bits (0 :: s) = bits (0 :: s') → s ≡ₚ s'.
Proof.
  intros [H1 H2]%subset_ok_cons0 [H1' H2']%subset_ok_cons0 Heq.
  apply (Permutation_cons_inv (a := 0)). by apply bits_inj.
Qed.

Lemma bits_cons0_clear s e :
  subset_ok s → e ∈ s →
  Z.land (bits (0 :: s)) (Z.lnot (Z.shiftl 1 e)) = bits (0 :: filter (λ y, y ≠ e) s).
Proof.
  intros Hs He. destruct (subset_ok_cons0 s Hs) as [H1 H2].
  pose proof (Forall_elem _ _ _ (proj2 Hs) He) as Hr. simpl in Hr.
  rewrite bits_clear by (done || lia).
  rewrite filter_cons_True by lia. done.
Qed.

Lemma bits_cons0_ne1 s : subset_ok s → s ≠ [] → bits (0 :: s) ≠ 1.
Proof.
  intros Hs Hne Heq. destruct s as [|x s]; [done|].
  assert (x :: s ≡ₚ []) as Hp; [|by apply Permutation_nil_r in Hp].
  apply bits_cons0_inj; [done| |done].
  split; [constructor|constructor].
Qed.

Lemma zero_path_perm s s' e q : s ≡ₚ s' → zero_path s e q → zero_path s' e q.
Proof. intros Hp (q' & ? & ? & ?). exists q'. split; [done|]. split; [by etrans|done]. Qed.

Lemma good_perm dp s s' e : s ≡ₚ s' → good dp s e → good dp s' e.
Proof.
  intros Hp (c & prev & Hdp & (q0 & Hq0 & Hatt) & Hlow & Hlink). exists c, prev.
  assert (bits (0 :: s) = bits (0 :: s')) as Hb by (apply bits_perm; by constructor).
  assert (bits (0 :: filter (λ y, y ≠ e) s) = bits (0 :: filter (λ y, y ≠ e) s')) as Hb'.
  { apply bits_perm. constructor. by rewrite Hp. }
  rewrite <- Hb, <- Hb'. split; [done|]. split; [|split].
  - exists q0. split; [by eapply zero_path_perm|done].
  - intros Hno q Hq. apply Hlow; [done|]. by eapply zero_path_perm.
  - destruct Hlink as [(? & ? & ?)|(? & ? & ?)]; [left|right].
    + by rewrite <- Hp.
    + by rewrite <- Hp.
Qed.

(** Writing the entry of a set does not disturb the entries of the sets that
    are not larger. *)
Lemma good_insert dp s e v s' e' :
  subset_ok s → subset_ok s' → e' ∈ s' → (length s' ≤ length s)%nat →
  good (<[(bits (0 :: s), e) := v]> dp) s e →
  good dp s' e' →
  good (<[(bits (0 :: s), e) := v]> dp) s' e'.
Proof.
  intros Hs Hs' He' Hlen Hnew Hold.
  destruct (decide ((bits (0 :: s'), e') = (bits (0 :: s), e))) as [Heq|Hne].
  { injection Heq as Hb ->. apply (good_perm _ s); [|done].
    symmetry. by apply bits_cons0_inj. }
  destruct Hold as (c & prev & Hdp & Hatt & Hlow & Hlink). exists c, prev.
  split; [by rewrite lookup_insert_ne|]. split; [done|]. split; [done|].
  destruct Hlink as [?|(Hp & Hpe & c' & p' & Hdp' & Hc)]; [by left|right].
  split; [done|]. split; [done|]. exists c', p'. split; [|done].
  rewrite lookup_insert_ne; [done|]. intros [= Hb ->].
  apply bits_cons0_inj in Hb; [|done|by apply subset_ok_filter].
  pose proof (filter_ne_length e' s' He') as Hlt. rewrite <- Hb in Hlt. lia.
Qed.

Lemma subset_ok_range s x : subset_ok s → x ∈ s → 1 ≤ x < Z.of_nat (n self).
Proof. intros [_ H] Hx. apply (Forall_elem _ _ _ H Hx). Qed.

Lemma zero_path_length s e q : zero_path s e q → length q = S (length s).
Proof. intros (q' & -> & Hq' & _). simpl. by rewrite Hq'. Qed.

Lemma zero_path_Forall s e q :
  subset_ok s → zero_path s e q → Forall (λ x, 0 ≤ x < Z.of_nat (n self)) q.
Proof.
  intros [_ Hs] (q' & -> & Hq' & _). pose proof (valid_inv self Hvalid) as (_ & _ & Hn & _).
  constructor; [lia|]. rewrite Hq'. eapply Forall_impl; [done|]. simpl. lia.
Qed.

Lemma zero_path_exact s e q :
  no_overflow self → subset_ok s → zero_path s e q →
  int64 (path_cost self q) = path_cost self q.
Proof.
  intros Hno Hs Hq. apply path_cost_exact; [done|by eapply zero_path_Forall|].
  rewrite (zero_path_length s e q Hq). pose proof (subset_ok_length s Hs). lia.
Qed.

(** The step from the entry of [(s, x)] to the city [e], without overflow. *)
Lemma zero_path_step_exact s x q e :
  no_overflow self → subset_ok s → zero_path s x q →
  0 ≤ e < Z.of_nat (n self) →
  np_add (int64 (path_cost self q)) (edge self x e) = path_cost self q + edge self x e.
Proof.
  intros Hno Hs Hq He. pose proof (zero_path_Forall s x q Hs Hq) as Hall.
  pose proof (zero_path_length s x q Hq) as Hlen.
  pose proof (subset_ok_length s Hs) as Hlt.
  destruct Hq as (q' & -> & Hq' & Hlast).
  apply last_Some in Hlast as (q1 & ->).
  rewrite (app_comm_cons q1 [x] 0) in *.
  apply np_add_path_exact; [done| |].
  - apply Forall_app in Hall as [Hq1 [Hx _]%Forall_cons].
    apply Forall_app. split; [done|]. constructor; [done|]. by constructor.
  - rewrite length_app in Hlen. simpl in *. lia.
Qed.

Lemma bits_filter_ne s e v :
  subset_ok s → e ∈ s → (bits (0 :: filter (λ y, y ≠ e) s), v) ≠ (bits (0 :: s), e).
Proof.
  intros Hs He [= Hb _].
  apply bits_cons0_inj in Hb; [|by apply subset_ok_filter|done].
  pose proof (filter_ne_length e s He) as Hlt. rewrite Hb in Hlt. lia.
Qed.

(** The entry computed for [(s, e)] from a table that holds the entries of
    the smaller sets. *)
Lemma hk_min_prev_good dp s e :
  subset_ok s → e ∈ s → zero_inv dp →
  (∀ s' e', subset_ok s' → e' ∈ s' → (length s' < length s)%nat → good dp s' e') →
  ∃ v, hk_min_prev self dp (0 :: s) (bits (0 :: s)) e = Ret v ∧
       good (<[(bits (0 :: s), e) := v]> dp) s e.
Proof.
  intros Hs He [Hz1 Hz] Hsmall. unfold hk_min_prev.
  pose proof (subset_ok_range s e Hs He) as Her.
  rewrite bits_cons0_clear by done.
  set (s' := filter (λ y, y ≠ e) s).
  set (val := λ x, ecost_add (dp_get dp (bits (0 :: s'), x)).1 (edge self x e)).
  assert (subset_ok s') as Hs' by by apply subset_ok_filter.
  assert (length s' < length s)%nat as Hlen by by apply filter_ne_length.
  assert (s ≡ₚ e :: s') as Hperm by (apply filter_ne_perm; [apply Hs|done]).
  assert (∀ x, x ∈ s' → ∃ c p q, dp !! (bits (0 :: s'), x) = Some (Fin c, p) ∧
            val x = Fin (np_add c (edge self x e)) ∧
            zero_path s' x q ∧ c = int64 (path_cost self q) ∧
            (no_overflow self →
               np_add c (edge self x e) = c + edge self x e ∧
               ∀ q, zero_path s' x q → c ≤ path_cost self q)) as Hval.
  { intros x Hx.
    destruct (Hsmall s' x Hs' Hx Hlen) as (c & p & Hdp & (q & Hq & Hc) & Hlow & _).
    exists c, p, q. split; [done|]. split; [unfold val, dp_get; by rewrite Hdp|].
    split; [done|]. split; [done|]. intros Hno. split; [|by apply Hlow].
    rewrite Hc, (zero_path_step_exact s' x q e) by (done || lia).
    by rewrite (zero_path_exact s' x q). }
  cbv zeta.
  match goal with
  | |- context [for_each _ _ ?body] =>
      destruct (argmin_loop (0 :: s) (λ x, bool_decide (x = e)) val body)
        as (mc & mp & Hr & Hmin & Harg)
  end.
  { intros mc mp x Hx. rewrite (bool_decide_eq_true_2 (x ∈ 0 :: s)) by done.
    simpl. rewrite orb_false_r. case_bool_decide; [done|].
    rewrite getitem2_edge; [|done| |lia].
    - simpl. fold (val x). by destruct (ecost_ltb (val x) mc).
    - apply elem_of_cons in Hx as [->|Hx]; [lia|].
      pose proof (subset_ok_range s x Hs Hx). lia. }
  rewrite Hr. exists (mc, mp). split; [done|].
  destruct (decide (s' = [])) as [Hnil|Hnil].
  - (* the set is {e}: the only predecessor is city 0 *)
    rewrite Hnil in Hperm.
    assert (val 0 = Fin (np_add 0 (edge self 0 e))) as Hv0.
    { unfold val, dp_get. rewrite Hnil. change (bits [0]) with 1. by rewrite Hz1. }
    assert (mc ≠ Inf) as Hfin.
    { intros ->. specialize (Hmin 0 ltac:(by left)). rewrite Hv0 in Hmin.
      rewrite bool_decide_eq_false_2 in Hmin by lia. by specialize (Hmin eq_refl). }
    destruct Harg as [?|(Hmp & Hskip & Hvmp)]; [done|].
    apply bool_decide_eq_false in Hskip.
    assert (mp = 0) as ->.
    { apply elem_of_cons in Hmp as [?|Hmp]; [done|].
      rewrite Hperm in Hmp. by apply list_elem_of_singleton in Hmp. }
    rewrite Hv0 in Hvmp. subst mc.
    assert (zero_path s e [0; e]) as Hq0.
    { exists [e]. split; [done|]. split; [by rewrite Hperm|done]. }
    assert (path_cost self [0; e] = edge self 0 e) as Hpc.
    { rewrite path_cost_cons2, path_cost_single. lia. }
    exists (np_add 0 (edge self 0 e)), 0. split; [apply lookup_insert_eq|].
    split; [|split].
    + exists [0; e]. split; [done|]. by rewrite Hpc.
    + intros Hno q (q' & -> & Hq' & _). rewrite Hperm in Hq'.
      apply Permutation_singleton_r in Hq' as ->.
      rewrite np_add_0, <- Hpc, (zero_path_exact s e [0; e]) by done. lia.
    + left. by rewrite Hperm.
  - (* larger sets: the predecessor is a city of the rest *)
    assert (val 0 = Inf) as Hv0.
    { unfold val, dp_get. rewrite Hz; [done|]. by apply bits_cons0_ne1. }
    destruct s' as [|p0 s0] eqn:Es'; [done|]. rewrite <- Es' in *.
    assert (p0 ∈ s') as Hp0 by (rewrite Es'; by left).
    assert (p0 ∈ s) as Hp0s by (rewrite Hperm; by right).
    assert (mc ≠ Inf) as Hfin.
    { intros ->. destruct (Hval p0 Hp0) as (c & p & q & _ & Hv & _).
      specialize (Hmin p0 ltac:(by right)). rewrite Hv in Hmin.
      assert (p0 ≠ e) as Hne by by apply list_elem_of_filter in Hp0 as [? _].
      rewrite bool_decide_eq_false_2 in Hmin by done. by specialize (Hmin eq_refl). }
    destruct Harg as [?|(Hmp & Hskip & Hvmp)]; [done|].
    apply bool_decide_eq_false in Hskip.
    assert (mp ∈ s') as Hmp'.
    { apply elem_of_cons in Hmp as [->|Hmp]; [congruence|].
      by apply list_elem_of_filter. }
    destruct (Hval mp Hmp') as (c' & p' & qm & Hdp & Hv & Hqm & Hc' & Hex).
    rewrite Hv in Hvmp. subst mc.
    exists (np_add c' (edge self mp e)), mp. split; [apply lookup_insert_eq|].
    split; [|split].
    + (* the cost is the cost of a path *)
      destruct Hqm as (q0 & -> & Hq0 & Hlast).
      exists ((0 :: q0) ++ [e]). split.
      * exists (q0 ++ [e]). split; [done|]. split; [|apply last_snoc].
        rewrite Hperm, <- Hq0. symmetry. apply Permutation_cons_append.
      * apply last_Some in Hlast as (q1 & ->). rewrite Hc', np_add_int64.
        f_equal. rewrite (app_comm_cons q1 [mp] 0). symmetry. apply path_cost_snoc.
    + (* without overflow no path costs less *)
      intros Hno q (q' & -> & Hq' & Hlast).
      destruct (Hex Hno) as [Hstep' _]. rewrite Hstep'.
      apply last_Some in Hlast as (q'' & ->).
      assert (q'' ≡ₚ s') as Hq''.
      { apply (Permutation_cons_inv (a := e)).
        rewrite <- Hperm, <- Hq'. apply Permutation_cons_append. }
      destruct (decide (q'' = [])) as [->|Hne].
      { rewrite Es' in Hq''. by apply Permutation_nil_cons in Hq''. }
      destruct (exists_last Hne) as (q3 & p & ->).
      assert (p ∈ s') as Hp by (rewrite <- Hq''; set_solver).
      destruct (Hval p Hp) as (cp & pp & qp & _ & Hvp & _ & _ & Hexp).
      destruct (Hexp Hno) as [Hstep Hlow].
      assert (p ∈ 0 :: s) as Hps.
      { right. by apply list_elem_of_filter in Hp as [_ ?]. }
      assert (p ≠ e) as Hpe by by apply list_elem_of_filter in Hp as [? _].
      specialize (Hmin p Hps). rewrite bool_decide_eq_false_2 in Hmin by done.
      specialize (Hmin eq_refl). rewrite Hvp, ecost_ltb_Fin in Hmin.
      apply bool_decide_eq_false in Hmin. rewrite Hstep, Hstep' in Hmin.
      specialize (Hlow (0 :: q3 ++ [p])).
      rewrite <- app_assoc. simpl app.
      rewrite (app_comm_cons q3 [p; e] 0), path_cost_snoc'. simpl app.
      assert (c' + edge self mp e ≤ cp + edge self p e) by lia.
      assert (cp ≤ path_cost self (0 :: q3 ++ [p])); [|lia].
      apply Hlow. exists (q3 ++ [p]). split; [done|]. split; [done|].
      apply last_snoc.
    + right. split; [by apply list_elem_of_filter in Hmp' as [_ ?]|].
      split; [done|]. exists c', p'. split; [|done].
      rewrite lookup_insert_ne; [done|]. intros H. symmetry in H. revert H.
      by apply bits_filter_ne.
Qed.

Lemma hk_inv_weaken dp (P Q : list Z → Z → Prop) :
  hk_inv dp P →
  (∀ s e, subset_ok s → e ∈ s → Q s e → P s e) →
  hk_inv dp Q.
Proof. intros [Hz HP] HQ. split; [done|]. intros s e Hs He Hq. apply HP; auto. Qed.

Lemma hk_step dp (P : list Z → Z → Prop) s e :
  hk_inv dp P → subset_ok s → e ∈ s →
  (∀ s' e', subset_ok s' → e' ∈ s' → (length s' < length s)%nat → P s' e') →
  (∀ s' e', subset_ok s' → e' ∈ s' → P s' e' → (length s' ≤ length s)%nat) →
  ∃ v, hk_min_prev self dp (0 :: s) (bits (0 :: s)) e = Ret v ∧
       hk_inv (<[(bits (0 :: s), e) := v]> dp) (λ s' e', P s' e' ∨ (s' ≡ₚ s ∧ e' = e)).
Proof.
  intros [Hz HP] Hs He Hsmall Hbound.
  destruct (hk_min_prev_good dp s e Hs He Hz) as (v & Hv & Hgood).
  { intros s' e' Hs' He' Hlt. apply HP; auto. }
  exists v. split; [done|]. split.
  - pose proof (subset_ok_range s e Hs He) as Her.
    destruct Hz as [Hz1 Hz2]. split.
    + rewrite lookup_insert_ne; [done|]. intros [= _ ->]. lia.
    + intros m Hm. rewrite lookup_insert_ne; [by apply Hz2|]. intros [= _ ->]. lia.
  - intros s' e' Hs' He' [Hp|[Hp ->]].
    + apply good_insert; auto. by eapply Hbound.
    + apply (good_perm _ s); [done|done].
Qed.

Lemma hk_subset_inv dp (P : list Z → Z → Prop) s :
  hk_inv dp P → subset_ok s →
  (∀ s' e', subset_ok s' → e' ∈ s' → (length s' < length s)%nat → P s' e') →
  (∀ s' e', subset_ok s' → e' ∈ s' → P s' e' → (length s' ≤ length s)%nat) →
  ∃ dp', hk_subset self dp s = Ret dp' ∧ hk_inv dp' (λ s' e', P s' e' ∨ s' ≡ₚ s).
Proof.
  intros Hinv Hs Hsmall Hbound. unfold hk_subset. fold (bits (0 :: s)).
  destruct (for_each_inv
    (λ done dp, hk_inv dp (λ s' e', P s' e' ∨ (s' ≡ₚ s ∧ e' ∈ done)))
    (0 :: s) dp
    (λ dp e, if bool_decide (e = 0) then Ret dp
             else v ← hk_min_prev self dp (0 :: s) (bits (0 :: s)) e;
                  Ret (<[(bits (0 :: s), e) := v]> dp)))
    as (dp' & Hr & Hinv').
  - eapply hk_inv_weaken; [done|]. intros s' e' _ _ [?|[_ ?%elem_of_nil]]; done.
  - intros done x rest dp0 Hl Hinv0. case_bool_decide as Hx.
    + exists dp0. split; [done|]. eapply hk_inv_weaken; [done|].
      intros s' e' Hs' He' [?|[Hp Hin]]; [by left|right]. split; [done|].
      apply elem_of_app in Hin as [?|Hin%list_elem_of_singleton]; [done|].
      pose proof (subset_ok_range s' e' Hs' He'). lia.
    + assert (x ∈ s) as Hxs.
      { assert (x ∈ 0 :: s) as Hin by (rewrite Hl; set_solver).
        by apply elem_of_cons in Hin as [?|?]. }
      destruct (hk_step dp0 _ s x Hinv0 Hs Hxs) as (v & -> & Hinv1).
      * intros s' e' Hs' He' Hlt. left. by apply Hsmall.
      * intros s' e' Hs' He' [?|[Hp _]]; [by eapply Hbound|]. by rewrite Hp.
      * simpl. eexists. split; [done|]. eapply hk_inv_weaken; [done|].
        intros s' e' _ _ [?|[Hp Hin]]; [by left; left|].
        apply elem_of_app in Hin as [?|Hin%list_elem_of_singleton]; [left|]; by right.
  - exists dp'. split; [done|]. eapply hk_inv_weaken; [done|].
    intros s' e' _ He' [?|Hp]; [by left|right]. split; [done|].
    right. by rewrite <- Hp.
Qed.

Lemma combination_ok s k :
  s ∈ combinations (range 1 (Z.of_nat (n self))) k → subset_ok s ∧ length s = k.
Proof.
  intros [Hsub Hlen]%elem_of_combinations. split; [|done]. split.
  - eapply sublist_NoDup; [apply NoDup_range|done].
  - apply Forall_forall. intros x Hx. apply elem_of_range.
    by eapply elem_of_sublist.
Qed.

Lemma hk_size_inv dp k :
  hk_inv dp (λ s' _, (length s' < k)%nat) →
  ∃ dp', for_each (combinations (range 1 (Z.of_nat (n self))) k) dp (hk_subset self)
           = Ret dp' ∧
         hk_inv dp' (λ s' _, (length s' ≤ k)%nat).
Proof.
  intros Hinv.
  destruct (for_each_inv
    (λ done dp, hk_inv dp (λ s' _, (length s' < k)%nat ∨ ∃ s, s ∈ done ∧ s' ≡ₚ s))
    (combinations (range 1 (Z.of_nat (n self))) k) dp (hk_subset self))
    as (dp' & Hr & Hinv').
  - eapply hk_inv_weaken; [done|]. intros s' e' _ _ [?|(s & ?%elem_of_nil & _)]; done.
  - intros done x rest dp0 Hl Hinv0.
    destruct (combination_ok x k) as [Hx Hlen].
    { rewrite Hl. set_solver. }
    destruct (hk_subset_inv dp0 _ x Hinv0 Hx) as (dp1 & Hr1 & Hinv1).
    + intros s' e' _ _ Hlt. left. lia.
    + intros s' e' _ _ [?|(s & Hin & Hp)]; [lia|].
      destruct (combination_ok s k) as [_ Hlens].
      { rewrite Hl. set_solver. }
      rewrite Hp. lia.
    + exists dp1. split; [done|]. eapply hk_inv_weaken; [done|].
      intros s' e' _ _ [?|(s & Hin & Hp)]; [by left; left|].
      apply elem_of_app in Hin as [?|Hin%list_elem_of_singleton].
      * left. right. eauto.
      * right. by subst.
  - exists dp'. split; [done|]. eapply hk_inv_weaken; [done|].
    intros s' e' Hs' _ Hle.
    destruct (decide (length s' < k)%nat) as [Hlt|Hlt]; [by left|right].
    assert (length s' = k) as <- by lia.
    destruct (combinations_cover (range 1 (Z.of_nat (n self))) s') as (s & Hin & Hp).
    + apply NoDup_range.
    + apply Hs'.
    + intros x Hx. apply elem_of_range. by apply (subset_ok_range s').
    + exists s. done.
Qed.

(** The table that [held_karp] has filled holds a good entry for every set
    and every last city. *)
Lemma hk_table_good :
  ∃ dp, hk_table self = Ret dp ∧ hk_inv dp (λ _ _, True).
Proof.
  unfold hk_table.
  destruct (for_each_inv
    (λ done dp, hk_inv dp (λ s' _, (length s' ≤ length done)%nat))
    (range 2 (Z.of_nat (n self) + 1)) {[ (1, 0) := (Fin 0, -1) ]}
    (λ dp subset_size,
      for_each (combinations (range 1 (Z.of_nat (n self))) (Z.to_nat (subset_size - 1)))
        dp (hk_subset self)))
    as (dp & Hr & Hinv).
  - split.
    + split; [apply lookup_singleton_eq|]. intros m Hm.
      apply lookup_singleton_ne. congruence.
    + intros s e _ He Hlen. destruct s; [by apply elem_of_nil in He|simpl in Hlen; lia].
  - intros done x rest dp0 Hl Hinv0.
    assert (x = 2 + Z.of_nat (length done)) as ->.
    { assert (range 2 (Z.of_nat (n self) + 1) !! length done = Some x) as Hlk.
      { rewrite Hl. by apply list_lookup_middle. }
      unfold range in Hlk. apply lookup_seqZ in Hlk as [-> _]. done. }
    replace (Z.to_nat (2 + Z.of_nat (length done) - 1)) with (S (length done)) by lia.
    destruct (hk_size_inv dp0 (S (length done))) as (dp1 & Hr1 & Hinv1).
    + eapply hk_inv_weaken; [done|]. intros s' e' _ _ ?. simpl in *. lia.
    + exists dp1. split; [done|]. eapply hk_inv_weaken; [done|].
      intros s' e' _ _ Hle. rewrite length_app in Hle. simpl in *. lia.
  - exists dp. split; [done|]. eapply hk_inv_weaken; [done|].
    intros s e Hs _ _. rewrite length_range. pose proof (subset_ok_length s Hs). lia.
Qed.

(** The walk back through the links of a good table. *)
Lemma hk_walk_spec dp fuel s e :
  hk_inv dp (λ _ _, True) → subset_ok s → e ∈ s → (length s ≤ fuel)%nat →
  ∃ q c prev,
    dp !! (bits (0 :: s), e) = Some (Fin c, prev) ∧
    zero_path s e q ∧ int64 (path_cost self q) = c ∧
    ∀ path, hk_walk fuel dp path (bits (0 :: s)) e = Ret (path ++ tail (reverse q)).
Proof.
  intros [Hz Hgood]. revert s e.
  induction fuel as [|fuel IH]; intros s e Hs He Hlen.
  { destruct s; [by apply elem_of_nil in He|simpl in Hlen; lia]. }
  pose proof (subset_ok_range s e Hs He) as Her.
  destruct (Hgood s e Hs He I) as (c & prev & Hdp & _ & _ & Hlink).
  destruct Hlink as [(Hl1 & -> & ->)|(Hp & Hpe & c' & p' & Hdp' & ->)].
  - assert (s = [e]) as ->.
    { destruct s as [|x [|? ?]]; try done. by apply list_elem_of_singleton in He as ->. }
    exists [0; e], (np_add 0 (edge self 0 e)), 0. split; [done|]. split.
    { exists [e]. done. }
    split.
    { rewrite path_cost_cons2, path_cost_single. unfold np_add. f_equal. lia. }
    intros path. cbn [hk_walk]. rewrite bool_decide_eq_false_2 by lia.
    rewrite Hdp. rewrite bool_decide_eq_false_2 by lia.
    destruct fuel; cbn [hk_walk]; by rewrite bool_decide_eq_true_2.
  - set (s' := filter (λ y, y ≠ e) s) in *.
    assert (prev ∈ s') as Hp' by by apply list_elem_of_filter.
    pose proof (filter_ne_length e s He) as Hlt. fold s' in Hlt.
    destruct (IH s' prev) as (q' & c'' & p'' & Hdp'' & Hq' & Hc'' & Hwalk).
    { by apply subset_ok_filter. }
    { done. }
    { lia. }
    rewrite Hdp' in Hdp''. injection Hdp'' as <- <-.
    destruct Hq' as (q0 & -> & Hq0 & Hlast).
    apply last_Some in Hlast as (q1 & ->).
    exists ((0 :: q1 ++ [prev]) ++ [e]), (np_add c' (edge self prev e)), prev.
    split; [done|]. split.
    { exists ((q1 ++ [prev]) ++ [e]). split; [done|]. split; [|apply last_snoc].
      rewrite <- Permutation_cons_append, Hq0. symmetry.
      apply filter_ne_perm; [apply Hs|done]. }
    split.
    { rewrite (app_comm_cons q1 [prev] 0), path_cost_snoc. simpl app.
      rewrite <- Hc''. symmetry. apply np_add_int64. }
    intros path. cbn [hk_walk]. rewrite bool_decide_eq_false_2 by lia.
    rewrite Hdp.
    pose proof (subset_ok_range s prev Hs Hp) as Hpr.
    rewrite bool_decide_eq_false_2 by lia.
    rewrite bits_cons0_clear by done. fold s'. rewrite Hwalk.
    rewrite reverse_app. simpl tail.
    rewrite (app_comm_cons q1 [prev] 0), reverse_app. simpl.
    by rewrite <- app_assoc.
Qed.

Lemma cities_cons : cities self = 0 :: range 1 (Z.of_nat (n self)).
Proof.
  unfold cities, range. apply valid_inv in Hvalid as (_ & _ & Hn & _).
  rewrite (seqZ_cons 0) by lia. f_equal. f_equal; lia.
Qed.

Lemma subset_ok_all : subset_ok (range 1 (Z.of_nat (n self))).
Proof.
  split; [apply NoDup_range|]. apply Forall_forall. by intros x ?%elem_of_range.
Qed.

(** [held_karp] returns a Hamiltonian cycle with its cost whenever it is
    allowed to run; without overflow the cycle is optimal. *)
Lemma held_karp_correct :
  (n self ≤ 20)%nat →
  ∃ r c, held_karp self = Ret r ∧
    is_optimal r = true ∧ approximation_ratio r = None ∧
    num_cities r = n self ∧ length (tour r) = n self ∧
    hamiltonian self (tour r) ∧
    cost r = Fin c ∧ calculate_tour_cost self (tour r) = Ret c ∧
    (no_overflow self →
       c = cycle_cost self (tour r) ∧
       ∀ t, hamiltonian self t →
         calculate_tour_cost self t = Ret (cycle_cost self t) ∧
         c ≤ cycle_cost self t).
Proof.
  intros Hcap. unfold held_karp. rewrite bool_decide_eq_false_2 by lia.
  destruct hk_table_good as (dp & -> & Hinv). simpl.
  pose proof (valid_inv self Hvalid) as (_ & _ & Hn & _).
  set (S := range 1 (Z.of_nat (n self))).
  pose proof subset_ok_all as HS. fold S in HS.
  rewrite <- bits_range. fold (cities self). rewrite cities_cons. fold S.
  set (val := λ i, ecost_add (dp_get dp (bits (0 :: S), i)).1 (edge self i 0)).
  assert (∀ i, i ∈ S → ∃ c p, dp !! (bits (0 :: S), i) = Some (Fin c, p) ∧
            val i = Fin (np_add c (edge self i 0)) ∧
            (no_overflow self →
               np_add c (edge self i 0) = c + edge self i 0 ∧
               ∀ q, zero_path S i q → c ≤ path_cost self q)) as Hval.
  { intros i Hi.
    destruct (proj2 Hinv S i HS Hi I) as (c & p & Hdp & (q & Hq & Hc) & Hlow & _).
    exists c, p. split; [done|]. split; [unfold val, dp_get; by rewrite Hdp|].
    intros Hno. split; [|by apply Hlow].
    rewrite Hc, (zero_path_step_exact S i q 0) by (done || lia).
    by rewrite (zero_path_exact S i q). }
  match goal with
  | |- context [for_each _ _ ?body] =>
      destruct (argmin_loop S (λ _, false) val body) as (mc & mp & Hr & Hmin & Harg)
  end.
  { intros mc mp x Hx%elem_of_range. rewrite getitem2_edge by (done || lia).
    simpl. fold (val x). by destruct (ecost_ltb (val x) mc). }
  rewrite Hr. simpl.
  assert (1 ∈ S) as H1 by (apply elem_of_range; lia).
  assert (mc ≠ Inf) as Hfin.
  { intros ->. destruct (Hval 1 H1) as (c & p & _ & Hv & _).
    specialize (Hmin 1 H1 eq_refl). by rewrite Hv in Hmin. }
  destruct Harg as [?|(Hmp & _ & Hvmp)]; [done|].
  destruct (Hval mp Hmp) as (cm & pm & Hdpm & Hvm & Hexm).
  rewrite Hvm in Hvmp. subst mc.
  destruct (hk_walk_spec dp (n self) S mp Hinv HS Hmp)
    as (q & c' & p' & Hdp' & Hq & Hcq & Hwalk).
  { unfold S. rewrite length_range. lia. }
  rewrite Hdpm in Hdp'. injection Hdp' as <- <-.
  unfold reconstruct_path_hk. rewrite Hwalk. simpl.
  destruct Hq as (q' & -> & Hq' & Hlast).
  assert (reverse ([mp] ++ tail (reverse (0 :: q'))) = 0 :: q') as Hrev.
  { apply last_Some in Hlast as (q1 & ->).
    change (0 :: q1 ++ [mp]) with ((0 :: q1) ++ [mp]).
    rewrite (reverse_app (0 :: q1)).
    change (reverse [mp]) with [mp]. cbn [app tail].
    rewrite reverse_cons, reverse_involutive. done. }
  simpl in Hrev. rewrite Hrev.
  assert (hamiltonian self (0 :: q')) as Hham.
  { unfold hamiltonian. rewrite cities_cons. by constructor. }
  assert (np_add cm (edge self mp 0) = int64 (cycle_cost self (0 :: q'))) as Hcyc.
  { rewrite cycle_cost_cons, Hlast. simpl. rewrite <- Hcq. apply np_add_int64. }
  eexists _, (np_add cm (edge self mp 0)). split; [done|].
  cbn [tour cost num_cities is_optimal approximation_ratio].
  split; [done|]. split; [done|]. split; [done|].
  split; [by apply hamiltonian_length|]. split; [done|]. split; [done|]. split.
  { rewrite calculate_tour_cost_cycle; [|done|by apply hamiltonian_Forall].
    by rewrite Hcyc. }
  intros Hno. split.
  { rewrite Hcyc. apply cycle_cost_exact; [done|by apply hamiltonian_Forall|].
    by rewrite (hamiltonian_length self _ Hham). }
  intros t Ht. split.
  { apply calculate_tour_cost_exact; [done|done|by apply hamiltonian_Forall|].
    by rewrite (hamiltonian_length self _ Ht). }
  destruct (Hexm Hno) as [Hstepm _]. rewrite Hstepm.
  assert (0 ∈ t) as H0.
  { rewrite Ht. apply elem_of_cities. lia. }
  apply list_elem_of_split in H0 as (t1 & t2 & ->).
  rewrite (cycle_cost_rotate self t1 (0 :: t2)). simpl app.
  assert (t2 ++ t1 ≡ₚ S) as Hp.
  { apply (Permutation_cons_inv (a := 0)). unfold S. rewrite <- cities_cons.
    rewrite <- Ht. rewrite (Permutation_app_comm t1). done. }
  destruct (last (t2 ++ t1)) as [l|] eqn:El.
  2:{ apply last_None in El. rewrite El in Hp. apply Permutation_nil_l in Hp.
      unfold S in Hp. apply (f_equal length) in Hp. rewrite length_range in Hp.
      simpl in Hp. lia. }
  assert (l ∈ S) as Hl.
  { rewrite <- Hp. by apply last_Some_elem_of. }
  destruct (Hval l Hl) as (cl & pl & _ & Hvl & Hexl).
  destruct (Hexl Hno) as [Hstepl Hlow].
  specialize (Hmin l Hl eq_refl). rewrite Hvl, ecost_ltb_Fin in Hmin.
  apply bool_decide_eq_false in Hmin. rewrite Hstepl, Hstepm in Hmin.
  rewrite cycle_cost_cons, El. simpl.
  assert (cl ≤ path_cost self (0 :: t2 ++ t1)); [|lia].
  apply Hlow. exists (t2 ++ t1). done.
Qed.

End HeldKarp.


(** A matrix of three cities on which the sums of [held_karp] overflow. *)
Definition m_wrap : ndarray :=
  np_array [[0; 2 ^ 62; 1]; [1; 0; 2 ^ 62]; [0; 1; 0]].
Definition s_wrap : TSPSolver := {| distance_matrix := m_wrap; n := 3 |}.


(** C4: on a validated matrix with more than 20 cities [held_karp] raises the
    [ValueError] that names the limit of 20, without looking at the matrix;
    with at most 20 cities it raises nothing and returns a result. *)
Theorem held_karp_capacity (self : TSPSolver) :
  valid self →
  ((20 < n self)%nat →
     held_karp self =
     Raise (ValueError "Held-Karp: Too many cities (max 20 for practical computation)") ∧
     ∀ dm, held_karp {| distance_matrix := dm; n := n self |} = held_karp self) ∧
  ((n self ≤ 20)%nat → ∃ r, held_karp self = Ret r ∧ is_optimal r = true).
Proof.
  intros Hv. split.
  - intros Hn. unfold held_karp. simpl. by rewrite !bool_decide_eq_true_2.
  - intros Hn. destruct (held_karp_correct self Hv Hn) as (r & c & Hr & Ho & _).
    eauto.
Qed.

(** ** Christofides: the spanning tree *)

Lemma foldl_least_elem (x : Z * Z * Z) (h : list (Z * Z * Z)) :
  foldl (λ m y, if tuple_ltb y m then y else m) x h ∈ x :: h.
Proof.
  revert x. induction h as [|y h IH]; intros x; simpl; [by left|].
  destruct (tuple_ltb y x).
  - right. apply IH.
  - specialize (IH x). set_solver.
Qed.

Lemma remove_first_perm (x : Z * Z * Z) (h : list (Z * Z * Z)) :
  x ∈ h → h ≡ₚ x :: remove_first x h.
Proof.
  induction h as [|y h IH]; [by intros ?%elem_of_nil|].
  intros Hx. simpl. case_bool_decide as Hy; [by subst|].
  apply elem_of_cons in Hx as [->|Hx]; [done|].
  rewrite (IH Hx) at 1. apply Permutation_swap.
Qed.

Lemma heappop_Some h m h' : heappop h = Some (m, h') → h ≡ₚ m :: h'.
Proof.
  unfold heappop. destruct h as [|x h]; [done|]. intros [= <- <-].
  apply remove_first_perm, foldl_least_elem.
Qed.

Lemma heappop_None h : heappop h = None → h = [].
Proof. by destruct h. Qed.

(** The cities that a list of tree edges reaches from the set [vis]. *)
Definition reached (vis : gset Z) (mst : list (Z * Z)) : gset Z :=
  vis ∪ list_to_set (mst.*2).

Lemma reached_snoc (vis : gset Z) (mst : list (Z * Z)) (u v : Z) :
  reached vis (mst ++ [(u, v)]) = reached vis mst ∪ {[v]}.
Proof.
  unfold reached. rewrite fmap_app, list_to_set_app_L. simpl. set_solver.
Qed.

Lemma reached_cons (vis : gset Z) (mst : list (Z * Z)) (u v : Z) :
  reached vis ((u, v) :: mst) = reached (vis ∪ {[v]}) mst.
Proof. unfold reached. simpl. set_solver. Qed.

Section SpanningTree.

Context (self : TSPSolver) (Hvalid : valid self).

(** The edges of a tree that grows from the set [vis]: every edge leaves the
    part built so far for a city that is new. *)
Fixpoint grows (vis : gset Z) (mst : list (Z * Z)) : Prop :=
  match mst with
  | [] => True
  | (u, v) :: mst' =>
      u ∈ vis ∧ v ∉ vis ∧ 0 ≤ v < Z.of_nat (n self) ∧ grows (vis ∪ {[v]}) mst'
  end.

(** A tree that grows from city 0 and reaches every city. *)
Definition spanning (mst : list (Z * Z)) : Prop :=
  grows {[ 0 ]} mst ∧ ∀ x, x ∈ reached {[ 0 ]} mst ↔ 0 ≤ x < Z.of_nat (n self).

Lemma grows_snoc vis mst u v :
  grows vis mst → u ∈ reached vis mst → v ∉ reached vis mst →
  0 ≤ v < Z.of_nat (n self) → grows vis (mst ++ [(u, v)]).
Proof.
  revert vis. induction mst as [|[u' v'] mst IH]; intros vis; simpl.
  - unfold reached. simpl. set_solver.
  - rewrite reached_cons. intros (? & ? & ? & ?) Hu Hv Hr.
    split; [done|]. split; [done|]. split; [done|]. by apply IH.
Qed.

Lemma unvisited_city (visited : gset Z) :
  (∀ x, x ∈ visited → 0 ≤ x < Z.of_nat (n self)) →
  (size visited < n self)%nat →
  ∃ j, 0 ≤ j < Z.of_nat (n self) ∧ j ∉ visited.
Proof.
  intros Hsub Hsize.
  destruct (decide (list_to_set (cities self) ∖ visited = (∅ : gset Z))) as [He|Hne].
  - assert (list_to_set (cities self) ⊆ visited) as Hc by set_solver.
    apply subseteq_size in Hc.
    rewrite size_list_to_set in Hc by apply NoDup_range.
    unfold cities in Hc. rewrite length_range in Hc. lia.
  - apply set_choose_L in Hne as (j & Hj). exists j.
    apply elem_of_difference in Hj as [Hj ?]. split; [|done].
    apply elem_of_list_to_set in Hj. by apply elem_of_cities.
Qed.

Lemma all_visited (visited : gset Z) :
  (∀ x, x ∈ visited → 0 ≤ x < Z.of_nat (n self)) →
  ¬ (size visited < n self)%nat →
  ∀ x, x ∈ visited ↔ 0 ≤ x < Z.of_nat (n self).
Proof.
  intros Hsub Hsize.
  assert (visited = list_to_set (cities self)) as ->.
  { apply set_subseteq_size_eq.
    - intros x Hx. apply elem_of_list_to_set, elem_of_cities. by apply Hsub.
    - rewrite size_list_to_set by apply NoDup_range.
      unfold cities. rewrite length_range. lia. }
  intros x. by rewrite elem_of_list_to_set, elem_of_cities.
Qed.

(** The loop that pushes the edges from the new city [v]. *)
Lemma push_edges_spec (visited : gset Z) (v : Z) (edges : list (Z * Z * Z)) :
  0 ≤ v < Z.of_nat (n self) →
  ∃ edges',
    for_each (range 0 (Z.of_nat (n self))) edges (λ edges j,
      if bool_decide (j ∉ visited)
      then w ← getitem2 (distance_matrix self) v j; Ret (heappush edges (w, v, j))
      else Ret edges) = Ret edges' ∧
    (∀ x, x ∈ edges' → x ∈ edges ∨ ∃ w j, x = (w, v, j) ∧ 0 ≤ j < Z.of_nat (n self)) ∧
    (∀ x, x ∈ edges → x ∈ edges') ∧
    (∀ j, 0 ≤ j < Z.of_nat (n self) → j ∉ visited → ∃ w, (w, v, j) ∈ edges') ∧
    (length edges' ≤ length edges + n self)%nat.
Proof.
  intros Hv.
  destruct (for_each_inv (λ done e,
      (∀ x, x ∈ e → x ∈ edges ∨ ∃ w j, x = (w, v, j) ∧ 0 ≤ j < Z.of_nat (n self)) ∧
      (∀ x, x ∈ edges → x ∈ e) ∧
      (∀ j, j ∈ done → j ∉ visited → ∃ w, (w, v, j) ∈ e) ∧
      (length e ≤ length edges + length done)%nat)
    (range 0 (Z.of_nat (n self))) edges (λ edges j,
      if bool_decide (j ∉ visited)
      then w ← getitem2 (distance_matrix self) v j; Ret (heappush edges (w, v, j))
      else Ret edges)) as (e & He & H1 & H2 & H3 & H4).
  - split; [by left|]. split; [done|]. split; [|simpl; lia].
    intros j Hj. by apply elem_of_nil in Hj.
  - intros done j rest e Hl (H1 & H2 & H3 & H4).
    assert (0 ≤ j < Z.of_nat (n self)) as Hj.
    { apply elem_of_range. rewrite Hl. set_solver. }
    rewrite length_app. simpl.
    case_bool_decide as Hjv.
    + rewrite getitem2_edge by done. simpl. eexists. split; [done|].
      unfold heappush. repeat split.
      * intros x [->|Hx]%elem_of_cons; [right; eauto|by apply H1].
      * intros x Hx. right. by apply H2.
      * intros j' [Hj'| ->%list_elem_of_singleton]%elem_of_app Hn.
        -- destruct (H3 j' Hj' Hn) as (w & Hw). exists w. by right.
        -- eexists. by left.
      * simpl. lia.
    + exists e. split; [done|]. repeat split; auto; [|lia].
      intros j' [Hj'| ->%list_elem_of_singleton]%elem_of_app Hn; [auto|done].
  - exists e. split; [done|]. repeat split; auto.
    + intros j Hj. apply H3. by apply elem_of_range.
    + rewrite length_range in H4. lia.
Qed.

Lemma mst_loop_spec fuel mst visited edges :
  visited = reached {[ 0 ]} mst → grows {[ 0 ]} mst →
  (∀ x, x ∈ visited → 0 ≤ x < Z.of_nat (n self)) →
  (∀ w u v, (w, u, v) ∈ edges → u ∈ visited ∧ 0 ≤ v < Z.of_nat (n self)) →
  (∀ j, 0 ≤ j < Z.of_nat (n self) → j ∉ visited → ∃ w u, (w, u, j) ∈ edges) →
  (length edges + (n self - size visited) * n self ≤ fuel)%nat →
  ∃ mst', mst_loop fuel self mst visited edges = Ret mst' ∧ spanning mst'.
Proof.
  revert mst visited edges.
  induction fuel as [|fuel IH]; intros mst visited edges Hvis Hg Hsub Hedges Hcompl Hfuel.
  - assert (¬ (size visited < n self)%nat) as Hsize by nia.
    exists mst. split.
    + simpl. by rewrite bool_decide_eq_false_2.
    + split; [done|]. rewrite <- Hvis. by apply all_visited.
  - cbn [mst_loop]. case_bool_decide as Hsize.
    2:{ exists mst. split; [done|]. split; [done|]. rewrite <- Hvis. by apply all_visited. }
    destruct (heappop edges) as [[[[w u] v] edges']|] eqn:Hpop.
    2:{ apply heappop_None in Hpop as ->.
        destruct (unvisited_city visited Hsub Hsize) as (j & Hj & Hjv).
        destruct (Hcompl j Hj Hjv) as (? & ? & []%elem_of_nil). }
    apply heappop_Some in Hpop.
    assert (length edges = S (length edges')) as Hlen by by rewrite Hpop.
    destruct (Hedges w u v) as [Hu Hv]; [rewrite Hpop; by left|].
    case_bool_decide as Hvv.
    + apply IH; auto.
      * intros w' u' v' Hin. apply (Hedges w'). rewrite Hpop. by right.
      * intros j Hj Hjv. destruct (Hcompl j Hj Hjv) as (w' & u' & Hin).
        rewrite Hpop in Hin. apply elem_of_cons in Hin as [[= -> -> ->]|Hin]; [done|eauto].
      * lia.
    + destruct (push_edges_spec (visited ∪ {[v]}) v edges' Hv)
        as (edges'' & -> & H1 & H2 & H3 & H4). simpl.
      apply IH.
      * rewrite reached_snoc. by rewrite Hvis.
      * apply grows_snoc; auto; by rewrite <- Hvis.
      * intros x [Hx| ->%elem_of_singleton]%elem_of_union; auto.
      * intros w' u' v' Hin. apply H1 in Hin as [Hin|(w'' & j & [= -> -> ->] & Hj)].
        -- destruct (Hedges w' u' v') as [? ?]; [rewrite Hpop; by right|].
           split; [set_solver|done].
        -- split; [set_solver|done].
      * intros j Hj Hjv. destruct (H3 j Hj Hjv) as (w' & Hw). eauto.
      * rewrite size_union by set_solver. rewrite size_singleton. nia.
Qed.

Lemma compute_mst_spec : ∃ mst, compute_mst self = Ret mst ∧ spanning mst.
Proof.
  unfold compute_mst.
  pose proof (valid_inv self Hvalid) as (_ & _ & Hn & _).
  destruct (for_each_inv (λ done (e : list (Z * Z * Z)),
      (∀ x, x ∈ e ↔ ∃ j, j ∈ done ∧ x = (edge self 0 j, 0, j)) ∧
      length e = length done)
    (range 1 (Z.of_nat (n self))) [] (λ edges j,
       w ← getitem2 (distance_matrix self) 0 j; Ret (edges ++ [(w, 0, j)])))
    as (e & -> & H1 & H2).
  - split; [|done]. intros x. split; [by intros ?%elem_of_nil|].
    by intros (j & ?%elem_of_nil & _).
  - intros done j rest e Hl [H1 H2].
    assert (1 ≤ j < Z.of_nat (n self)) as Hj.
    { apply elem_of_range. rewrite Hl. set_solver. }
    rewrite getitem2_edge by (done || lia). simpl. eexists. split; [done|].
    split; [|rewrite !length_app; simpl; lia].
    intros x. rewrite elem_of_app, list_elem_of_singleton, H1. split.
    + intros [(j' & ? & ->)| ->]; [exists j'|exists j]; set_solver.
    + intros (j' & [?| ->%list_elem_of_singleton]%elem_of_app & ->); [left|right]; eauto.
  - simpl. apply mst_loop_spec.
    + unfold reached. simpl. set_solver.
    + done.
    + intros x ->%elem_of_singleton. lia.
    + intros w u v Hin. apply H1 in Hin as (j & Hj%elem_of_range & [= -> -> ->]).
      split; [set_solver|lia].
    + intros j Hj Hj0. exists (edge self 0 j), 0. apply H1. exists j.
      split; [|done]. apply elem_of_range.
      assert (j ≠ 0) by set_solver. lia.
    + rewrite H2, length_range, size_singleton. nia.
Qed.

End SpanningTree.

(** ** Christofides: vertices of odd degree *)

Lemma py_get_Ret {A : Type} (l : list A) (i : Z) (x : A) :
  0 ≤ i → l !! Z.to_nat i = Some x → py_get l i = Ret x.
Proof.
  intros Hi Hx. unfold py_get. pose proof (lookup_lt_Some _ _ _ Hx).
  rewrite index_nonneg by lia. simpl. by rewrite Hx.
Qed.

Lemma py_set_Ret {A : Type} (l : list A) (i : Z) (x : A) :
  0 ≤ i < Z.of_nat (length l) → py_set l i x = Ret (<[Z.to_nat i := x]> l).
Proof. intros Hi. unfold py_set. by rewrite index_nonneg by lia. Qed.

Lemma sum_app (l1 l2 : list Z) : sum (l1 ++ l2) = sum l1 + sum l2.
Proof.
  induction l1 as [|x l1 IH]; simpl; [by change (sum []) with 0|].
  rewrite !sum_cons, IH. lia.
Qed.

Lemma sum_insert (l : list Z) (k : nat) (x y : Z) :
  l !! k = Some y → sum (<[k := x]> l) = sum l - y + x.
Proof.
  revert k. induction l as [|z l IH]; intros k Hk; [done|].
  destruct k as [|k]; simpl in *.
  - injection Hk as ->. rewrite !sum_cons. lia.
  - rewrite !sum_cons, (IH k Hk). lia.
Qed.

Lemma sum_replicate_0 (k : nat) : sum (replicate k 0) = 0.
Proof. induction k as [|k IH]; simpl; [done|]. rewrite sum_cons, IH. lia. Qed.

Lemma range_snoc (k : nat) :
  range 0 (Z.of_nat (S k)) = range 0 (Z.of_nat k) ++ [Z.of_nat k].
Proof.
  unfold range. replace (Z.of_nat (S k) - 0) with (Z.of_nat k + 1) by lia.
  rewrite seqZ_app by lia.
  replace (Z.of_nat k - 0) with (Z.of_nat k) by lia. done.
Qed.

(** The number of odd entries of a list has the parity of its sum. *)
Lemma odd_entries_parity (degree : list Z) (k : nat) :
  (k ≤ length degree)%nat →
  Z.of_nat (length (filter (λ i, default 0 (degree !! Z.to_nat i) `mod` 2 = 1)
                      (range 0 (Z.of_nat k)))) `mod` 2
  = sum (take k degree) `mod` 2.
Proof.
  induction k as [|k IH]; intros Hk; [done|].
  destruct (lookup_lt_is_Some_2 degree k) as [d Hd]; [lia|].
  rewrite range_snoc, filter_app, length_app, (take_S_r _ _ _ Hd), sum_app.
  specialize (IH ltac:(lia)).
  rewrite filter_cons, filter_nil. rewrite Nat2Z.id, Hd. simpl default.
  change (sum [d]) with (0 + d).
  case_decide as Hodd; simpl length; rewrite Nat2Z.inj_add; simpl Z.of_nat;
    revert IH Hodd; generalize (sum (take k degree));
    generalize (Z.of_nat (length (filter
      (λ i : Z, default 0 (degree !! Z.to_nat i) `mod` 2 = 1) (range 0 (Z.of_nat k)))));
    intros a b; Z.div_mod_to_equations; lia.
Qed.

Section OddDegree.

Context (self : TSPSolver) (Hvalid : valid self).

Lemma grows_elem vis mst u v :
  grows self vis mst → (u, v) ∈ mst →
  u ∈ reached vis mst ∧ v ∈ reached vis mst ∧ u ≠ v.
Proof.
  revert vis. induction mst as [|[u' v'] mst IH]; intros vis; [by intros _ ?%elem_of_nil|].
  intros (Hu & Hv & Hr & Hg) Hin. rewrite reached_cons.
  apply elem_of_cons in Hin as [[= -> ->]|Hin].
  - unfold reached. split; [set_solver|]. split; [set_solver|]. intros ->. done.
  - by apply IH.
Qed.

Lemma spanning_edge mst u v :
  spanning self mst → (u, v) ∈ mst →
  0 ≤ u < Z.of_nat (n self) ∧ 0 ≤ v < Z.of_nat (n self) ∧ u ≠ v.
Proof.
  intros [Hg Hr] Hin. destruct (grows_elem _ _ _ _ Hg Hin) as (Hu & Hv & Hne).
  apply Hr in Hu, Hv. done.
Qed.

Lemma find_odd_degree_vertices_spec mst :
  spanning self mst →
  ∃ odd, find_odd_degree_vertices self mst = Ret odd ∧
    NoDup odd ∧ Forall (λ x, 0 ≤ x < Z.of_nat (n self)) odd ∧
    ∃ k, length odd = (2 * k)%nat.
Proof.
  intros Hsp. unfold find_odd_degree_vertices.
  destruct (for_each_inv (λ done (degree : list Z),
      length degree = n self ∧ sum degree = 2 * Z.of_nat (length done))
    mst (replicate (n self) 0) (λ degree '(u, v),
              du ← py_get degree u;
              degree ← py_set degree u (du + 1);
              dv ← py_get degree v;
              py_set degree v (dv + 1))) as (degree & -> & Hlen & Hsum).
  - split; [apply length_replicate|]. by rewrite sum_replicate_0.
  - intros done [u v] rest degree Hl [Hlen Hsum].
    destruct (spanning_edge mst u v Hsp) as (Hu & Hv & Hne).
    { rewrite Hl. set_solver. }
    destruct (lookup_lt_is_Some_2 degree (Z.to_nat u)) as [du Hdu]; [lia|].
    rewrite (py_get_Ret _ _ _ (proj1 Hu) Hdu). simpl.
    rewrite py_set_Ret by lia. simpl.
    destruct (lookup_lt_is_Some_2 (<[Z.to_nat u := du + 1]> degree) (Z.to_nat v))
      as [dv Hdv]; [rewrite length_insert; lia|].
    rewrite (py_get_Ret _ _ _ (proj1 Hv) Hdv). simpl.
    rewrite py_set_Ret by (rewrite length_insert; lia).
    eexists. split; [done|]. rewrite !length_insert. split; [done|].
    rewrite (sum_insert _ _ _ _ Hdv), (sum_insert _ _ _ _ Hdu), length_app. simpl. lia.
  - simpl.
    set (P := λ i : Z, default 0 (degree !! Z.to_nat i) `mod` 2 = 1).
    destruct (for_each_inv (λ done (acc : list Z), acc = filter P done)
      (range 0 (Z.of_nat (n self))) [] (λ acc i,
        di ← py_get degree i;
        if bool_decide (di `mod` 2 = 1) then Ret (acc ++ [i]) else Ret acc))
      as (odd & -> & ->).
    + done.
    + intros done i rest acc Hl ->.
      assert (0 ≤ i < Z.of_nat (n self)) as Hi.
      { apply elem_of_range. rewrite Hl. set_solver. }
      destruct (lookup_lt_is_Some_2 degree (Z.to_nat i)) as [di Hdi]; [lia|].
      rewrite (py_get_Ret _ _ _ (proj1 Hi) Hdi). simpl.
      rewrite filter_app, filter_cons, filter_nil.
      assert (P i ↔ di `mod` 2 = 1) as HP by (unfold P; by rewrite Hdi).
      case_bool_decide; case_decide; try tauto; eexists; (split; [done|]).
      * done.
      * by rewrite app_nil_r.
    + eexists. split; [done|]. split; [apply NoDup_filter, NoDup_range|]. split.
      * apply Forall_filter_keep, Forall_forall. by intros x ?%elem_of_range.
      * pose proof (odd_entries_parity degree (n self) ltac:(lia)) as Hpar.
        rewrite firstn_all2 in Hpar by lia. fold P in Hpar. rewrite Hsum in Hpar.
        exists (length (filter P (range 0 (Z.of_nat (n self)))) / 2)%nat.
        revert Hpar. generalize (length (filter P (range 0 (Z.of_nat (n self))))).
        intros a Ha.
        assert (Z.of_nat a `mod` 2 = 0) as Ha' by (revert Ha; generalize (Z.of_nat (length mst)); intros; Z.div_mod_to_equations; lia).
        pose proof (Nat.div_mod_eq a 2) as Hdm.
        assert (a mod 2 = 0)%nat; [|lia].
        apply Nat2Z.inj. rewrite Nat2Z.inj_mod. done.
Qed.

End OddDegree.

(** ** Christofides: the greedy matching *)

(** Edges between two different cities. *)
Definition proper_edges (self : TSPSolver) (es : list (Z * Z)) : Prop :=
  ∀ u v, (u, v) ∈ es →
    0 ≤ u < Z.of_nat (n self) ∧ 0 ≤ v < Z.of_nat (n self) ∧ u ≠ v.

Section Matching.

Context (set_order : list Z → list Z).
Context (set_order_perm : ∀ l, set_order l ≡ₚ l).
Context (self : TSPSolver) (Hvalid : valid self).

Lemma filter_ne_length_S (x : Z) (s : list Z) :
  NoDup s → x ∈ s → length s = S (length (filter (λ y, y ≠ x) s)).
Proof. intros Hnd Hx. by rewrite (filter_ne_perm x s Hnd Hx) at 1. Qed.

Lemma matching_loop_spec fuel matching unmatched k :
  NoDup unmatched → Forall (λ x, 0 ≤ x < Z.of_nat (n self)) unmatched →
  length unmatched = (2 * k)%nat → (k ≤ fuel)%nat →
  proper_edges self matching →
  ∃ m, matching_loop set_order fuel self matching unmatched = Ret m ∧
       proper_edges self m.
Proof.
  revert matching unmatched k.
  induction fuel as [|fuel IH]; intros matching unmatched k Hnd Hall Hlen Hk Hm.
  { destruct unmatched; [|simpl in Hlen; lia]. by exists matching. }
  destruct unmatched as [|x0 xs]; [by exists matching|].
  cbn [matching_loop]. remember (x0 :: xs) as unmatched eqn:Eu.
  assert (length unmatched ≠ 0%nat) as Hne by (rewrite Eu; done).
  unfold set_pop.
  destruct (set_order unmatched) as [|v rest] eqn:Eo.
  { pose proof (set_order_perm unmatched) as Hp. rewrite Eo in Hp.
    apply Permutation_nil_l in Hp. congruence. }
  assert (v ∈ unmatched) as Hv.
  { rewrite <- set_order_perm, Eo. by left. }
  simpl.
  set (unmatched1 := filter (λ y, y ≠ v) unmatched).
  pose proof (filter_ne_length_S v unmatched Hnd Hv) as Hlen1. fold unmatched1 in Hlen1.
  assert (0 ≤ v < Z.of_nat (n self)) as Hvr by apply (Forall_elem _ _ _ Hall Hv).
  destruct (py_min_elem (set_order unmatched1)
              (λ u, getitem2 (distance_matrix self) v u)) as (nearest & -> & Hn).
  { intros E. pose proof (set_order_perm unmatched1) as Hp. rewrite E in Hp.
    apply Permutation_nil_l in Hp. apply (f_equal length) in Hp.
    simpl in Hp. lia. }
  { intros y Hy. rewrite set_order_perm in Hy.
    apply list_elem_of_filter in Hy as [_ Hy].
    rewrite getitem2_edge; eauto. apply (Forall_elem _ _ _ Hall Hy). }
  rewrite set_order_perm in Hn. simpl. rewrite set_remove_Ret by done. simpl.
  pose proof Hn as Hn'. apply list_elem_of_filter in Hn' as [Hnv Hnu].
  assert (0 ≤ nearest < Z.of_nat (n self)) as Hnr by apply (Forall_elem _ _ _ Hall Hnu).
  apply (IH _ _ (k - 1)%nat).
  - by do 2 apply NoDup_filter.
  - by do 2 apply Forall_filter_keep.
  - pose proof (filter_ne_length_S nearest unmatched1) as Hlen2.
    rewrite Hlen2 in Hlen1; [lia|by apply NoDup_filter|done].
  - lia.
  - intros u w [Hin| [= -> ->]%list_elem_of_singleton]%elem_of_app; [by apply Hm|].
    repeat split; try lia.
Qed.

Lemma min_weight_matching_spec odd k :
  NoDup odd → Forall (λ x, 0 ≤ x < Z.of_nat (n self)) odd →
  length odd = (2 * k)%nat →
  ∃ m, min_weight_matching set_order self odd = Ret m ∧ proper_edges self m.
Proof.
  intros Hnd Hall Hlen. unfold min_weight_matching.
  assert (remove_dups odd ≡ₚ odd) as Hp.
  { apply NoDup_Permutation; [apply NoDup_remove_dups|done|].
    intros x. apply elem_of_remove_dups. }
  apply (matching_loop_spec _ _ _ k).
  - apply NoDup_remove_dups.
  - by rewrite Hp.
  - by rewrite Hp.
  - rewrite Hp. lia.
  - by intros u v ?%elem_of_nil.
Qed.

End Matching.

(** ** Christofides: the multigraph *)

(** The neighbours of [u], and how often [v] is among them. *)
Definition adj (g : gmap Z (list Z)) (u : Z) : list Z := default [] (g !! u).

Definition mult (g : gmap Z (list Z)) (u v : Z) : nat :=
  length (filter (λ y, y = v) (adj g u)).

(** A multigraph on the cities: every city has its list, the lists hold
    cities, an edge is in the lists of both its ends, and no edge is a
    loop. *)
Definition multigraph (self : TSPSolver) (g : gmap Z (list Z)) : Prop :=
  (∀ i, 0 ≤ i < Z.of_nat (n self) → is_Some (g !! i)) ∧
  (∀ u x, x ∈ adj g u → 0 ≤ x < Z.of_nat (n self)) ∧
  (∀ u v, mult g u v = mult g v u) ∧
  (∀ u, u ∉ adj g u).

Lemma adj_insert g k l u :
  adj (<[k := l]> g) u = if decide (k = u) then l else adj g u.
Proof. unfold adj. rewrite lookup_insert. by case_decide. Qed.

Lemma mult_elem g u v : v ∈ adj g u ↔ (0 < mult g u v)%nat.
Proof.
  unfold mult. split.
  - intros Hin. assert (v ∈ filter (λ y, y = v) (adj g u)) as Hf.
    { by apply list_elem_of_filter. }
    destruct (filter _ _); [by apply elem_of_nil in Hf|simpl; lia].
  - intros Hlen. destruct (filter (λ y, y = v) (adj g u)) as [|y l] eqn:E;
      [simpl in Hlen; lia|].
    assert (y ∈ filter (λ y, y = v) (adj g u)) as Hy by (rewrite E; by left).
    by apply list_elem_of_filter in Hy as [-> ?].
Qed.

Lemma filter_eq_snoc (l : list Z) (x v : Z) :
  length (filter (λ y, y = v) (l ++ [x])) =
  (length (filter (λ y, y = v) l) + if decide (x = v) then 1 else 0)%nat.
Proof.
  rewrite filter_app, length_app, filter_cons, filter_nil. by case_decide.
Qed.

Section Combine.

Context (self : TSPSolver) (Hvalid : valid self).

Lemma lookup_empty_graph (l : list Z) (k : Z) :
  (list_to_map ((λ i, (i, [])) <$> l) : gmap Z (list Z)) !! k =
  if decide (k ∈ l) then Some [] else None.
Proof.
  induction l as [|x l IH].
  - destruct (decide (k ∈ [])) as [Hk|_]; [by apply elem_of_nil in Hk|].
    apply lookup_empty.
  - rewrite fmap_cons, list_to_map_cons, lookup_insert, IH.
    destruct (decide (x = k)) as [->|Hne].
    + rewrite decide_True; [done|by left].
    + destruct (decide (k ∈ l)) as [Hk|Hk].
      * rewrite decide_True; [done|by right].
      * rewrite decide_False; [done|]. rewrite elem_of_cons. naive_solver.
Qed.

Lemma combine_mst_matching_spec mst matching :
  proper_edges self mst → proper_edges self matching →
  ∃ g, combine_mst_matching self mst matching = Ret g ∧ multigraph self g ∧
       ∀ u v, (u, v) ∈ mst → v ∈ adj g u.
Proof.
  intros Hmst Hmat. unfold combine_mst_matching.
  cbv zeta.
  match goal with
  | |- context [for_each _ ?g0 ?body] =>
      destruct (for_each_inv (λ done (g : gmap Z (list Z)),
          multigraph self g ∧ ∀ u v, (u, v) ∈ done → v ∈ adj g u)
        (mst ++ matching) g0 body) as (g & -> & Hg & Hin)
  end.
  - split; [|by intros u v ?%elem_of_nil].
    assert (∀ u, adj (list_to_map ((λ i, (i, [])) <$> range 0 (Z.of_nat (n self)))) u = [])
      as Hadj.
    { intros u. unfold adj. rewrite lookup_empty_graph. by case_decide. }
    split; [|split; [|split]].
    + intros i Hi. rewrite lookup_empty_graph.
      rewrite decide_True by by apply elem_of_range. done.
    + intros u x. rewrite Hadj. by intros ?%elem_of_nil.
    + intros u v. unfold mult. by rewrite !Hadj.
    + intros u. rewrite Hadj. apply not_elem_of_nil.
  - intros done [u v] rest g Hl [(Hdom & Hran & Hsym & Hloop) Hin].
    assert (0 ≤ u < Z.of_nat (n self) ∧ 0 ≤ v < Z.of_nat (n self) ∧ u ≠ v)
      as (Hu & Hv & Hne).
    { assert ((u, v) ∈ mst ++ matching) as [?|?]%elem_of_app by (rewrite Hl; set_solver);
        [by apply Hmst|by apply Hmat]. }
    destruct (Hdom u Hu) as [gu Hgu]. destruct (Hdom v Hv) as [gv Hgv].
    unfold dict_get. rewrite Hgu. simpl.
    rewrite lookup_insert_ne by done. rewrite Hgv. eexists. split; [done|].
    assert (∀ x, adj (<[v:=gv ++ [u]]> (<[u:=gu ++ [v]]> g)) x =
                 if decide (v = x) then adj g v ++ [u]
                 else if decide (u = x) then adj g u ++ [v] else adj g x) as Hadj.
    { intros x. rewrite !adj_insert. unfold adj. rewrite Hgu, Hgv. done. }
    split; [split; [|split; [|split]]|].
    + intros i Hi. rewrite !lookup_insert. repeat case_decide; eauto.
    + intros a x. rewrite Hadj.
      repeat case_decide; subst; rewrite ?elem_of_app, ?list_elem_of_singleton;
        intros; destruct_or?; subst; eauto.
    + intros a b. unfold mult. rewrite !Hadj.
      pose proof (Hsym a b) as Hab. pose proof (Hsym v u) as Hvu.
      pose proof (Hsym v b) as Hvb. pose proof (Hsym u b) as Hub.
      pose proof (Hsym a v) as Hav. pose proof (Hsym a u) as Hau.
      unfold mult in *.
      repeat case_decide; subst; rewrite ?filter_eq_snoc;
        repeat case_decide; subst; try done; lia.
    + intros a. rewrite Hadj. pose proof (Hloop a).
      repeat case_decide; subst; rewrite ?elem_of_app, ?list_elem_of_singleton;
        intros ?; destruct_or?; subst; eauto.
    + intros a b [Hab| [= -> ->]%list_elem_of_singleton]%elem_of_app.
      * specialize (Hin a b Hab). rewrite Hadj.
        repeat case_decide; subst; rewrite ?elem_of_app; eauto.
      * rewrite Hadj. rewrite decide_False by done. rewrite decide_True by done.
        rewrite elem_of_app, list_elem_of_singleton. by right.
  - exists g. split; [done|]. split; [done|].
    intros u v Huv. apply Hin. apply elem_of_app. by left.
Qed.

End Combine.

(** ** Christofides: the circuit *)

Lemma list_pop_Some (l l' : list Z) (x : Z) :
  list_pop l = Some (x, l') → l = l' ++ [x].
Proof.
  unfold list_pop. destruct (last l) as [y|] eqn:E; [|done]. intros [= <- <-].
  apply last_Some in E as (l0 & ->). by rewrite removelast_last.
Qed.

Lemma list_pop_None (l : list Z) : list_pop l = None → l = [].
Proof.
  unfold list_pop. destruct (last l) as [y|] eqn:E; [done|]. intros _.
  by apply last_None.
Qed.

Lemma list_remove_spec (x : Z) (l : list Z) :
  x ∈ l → ∃ l', list_remove x l = Ret l' ∧ l ≡ₚ x :: l'.
Proof.
  induction l as [|y l IH]; [by intros ?%elem_of_nil|].
  intros Hx. simpl. case_bool_decide as Hy.
  - subst. by exists l.
  - apply elem_of_cons in Hx as [->|Hx]; [done|].
    destruct (IH Hx) as (l' & -> & Hp). simpl. exists (y :: l').
    split; [done|]. rewrite Hp. apply Permutation_swap.
Qed.

Lemma dict_get_Some (g : gmap Z (list Z)) (k : Z) (l : list Z) :
  g !! k = Some l → dict_get g k = Ret l.
Proof. unfold dict_get. by intros ->. Qed.

(** The number of adjacency entries of a graph. *)
Definition total (g : gmap Z (list Z)) : nat :=
  map_fold (λ _ adj acc, length adj + acc)%nat 0%nat g.

Lemma total_insert (g : gmap Z (list Z)) (k : Z) (l l' : list Z) :
  g !! k = Some l →
  (total (<[k := l']> g) + length l = total g + length l')%nat.
Proof.
  intros Hk. unfold total.
  rewrite (map_fold_delete_L _ _ k l g); [|intros; lia|done].
  rewrite <- (insert_delete_eq g k l').
  rewrite map_fold_insert_L; [lia|intros; lia|apply lookup_delete_eq].
Qed.

Section Circuit.

Context (self : TSPSolver) (Hvalid : valid self).

(** The invariant of Hierholzer's loop, started on the graph [g0]: an edge
    that has left the list of one of its ends has both ends on the path or
    in the circuit, and the cities in the circuit have no edge left. *)
Definition euler_inv (g0 : gmap Z (list Z)) (curr_path circuit : list Z)
    (g : gmap Z (list Z)) : Prop :=
  multigraph self g ∧
  (∀ x, x ∈ curr_path ++ circuit → 0 ≤ x < Z.of_nat (n self)) ∧
  (∀ c, c ∈ circuit → adj g c = []) ∧
  (∀ u v, v ∈ adj g0 u →
     v ∈ adj g u ∨ (u ∈ curr_path ++ circuit ∧ v ∈ curr_path ++ circuit)) ∧
  0 ∈ curr_path ++ circuit.

Lemma euler_loop_spec g0 fuel curr_path circuit g :
  euler_inv g0 curr_path circuit g →
  (total g + length curr_path ≤ fuel)%nat →
  ∃ circuit', euler_loop fuel curr_path circuit g = Ret circuit' ∧
    (∀ c, c ∈ circuit' → 0 ≤ c < Z.of_nat (n self)) ∧
    0 ∈ circuit' ∧
    ∀ u v, v ∈ adj g0 u → u ∈ circuit' → v ∈ circuit'.
Proof.
  revert curr_path circuit g.
  induction fuel as [|fuel IH]; intros curr_path circuit g Hinv Hfuel.
  { destruct curr_path; [|simpl in Hfuel; lia].
    destruct Hinv as (_ & Hr & Hempty & Hclosed & H0). simpl in *.
    exists circuit. split; [done|]. split; [done|]. split; [done|].
    intros u v Hv Hu. destruct (Hclosed u v Hv) as [Hin|[_ ?]]; [|done].
    rewrite (Hempty u Hu) in Hin. by apply elem_of_nil in Hin. }
  destruct curr_path as [|curr rest].
  { destruct Hinv as (_ & Hr & Hempty & Hclosed & H0). simpl in *.
    exists circuit. split; [done|]. split; [done|]. split; [done|].
    intros u v Hv Hu. destruct (Hclosed u v Hv) as [Hin|[_ ?]]; [|done].
    rewrite (Hempty u Hu) in Hin. by apply elem_of_nil in Hin. }
  destruct Hinv as ((Hdom & Hran & Hsym & Hloop) & Hr & Hempty & Hclosed & H0).
  assert (0 ≤ curr < Z.of_nat (n self)) as Hc by (apply Hr; by left).
  destruct (Hdom curr Hc) as [l Hl].
  assert (adj g curr = l) as Hadjc by (unfold adj; by rewrite Hl).
  cbn [euler_loop]. rewrite (dict_get_Some g curr l Hl). simpl.
  destruct (list_pop l) as [[nv l']|] eqn:Hpop.
  - (* an edge is left at [curr]: follow it *)
    apply list_pop_Some in Hpop. rewrite Hpop in Hl, Hadjc. clear Hpop l.
    assert (nv ∈ adj g curr) as Hnv by (rewrite Hadjc; set_solver).
    assert (nv ≠ curr) as Hne by (intros ->; by apply (Hloop curr)).
    assert (0 ≤ nv < Z.of_nat (n self)) as Hnr by by eapply Hran.
    destruct (Hdom nv Hnr) as [ln Hln].
    assert (adj g nv = ln) as Hadjn by (unfold adj; by rewrite Hln).
    subst ln.
    rewrite (dict_get_Some _ nv (adj g nv)) by by rewrite lookup_insert_ne. simpl.
    assert (curr ∈ adj g nv) as Hcn.
    { apply mult_elem. rewrite Hsym. by apply mult_elem. }
    destruct (list_remove_spec curr (adj g nv) Hcn) as (ln' & -> & Hperm). simpl.
    set (g2 := <[nv:=ln']> (<[curr:=l']> g)).
    assert (∀ x, adj g2 x = if decide (nv = x) then ln'
                 else if decide (curr = x) then l' else adj g x) as Hadj.
    { intros x. unfold g2. by rewrite !adj_insert. }
    assert (∀ x y, y ∈ adj g2 x → y ∈ adj g x) as Hsub.
    { intros x y. rewrite Hadj. repeat case_decide; subst; [| |done].
      - rewrite Hperm. set_solver.
      - rewrite Hadjc. set_solver. }
    assert (∀ v, mult g curr v =
              (length (filter (λ y, y = v) l') + if decide (nv = v) then 1 else 0)%nat)
      as Hmc.
    { intros v. unfold mult. rewrite Hadjc. apply filter_eq_snoc. }
    assert (∀ v, mult g nv v =
              (length (filter (λ y, y = v) ln') + if decide (curr = v) then 1 else 0)%nat)
      as Hmn.
    { intros v. unfold mult. rewrite Hperm, filter_cons.
      case_decide; simpl; lia. }
    assert (∀ a b, mult g2 a b = if decide (nv = a) then length (filter (λ y, y = b) ln')
                 else if decide (curr = a) then length (filter (λ y, y = b) l')
                 else mult g a b) as Hmult.
    { intros a b. unfold mult. rewrite Hadj. by repeat case_decide. }
    apply IH.
    + split; [split; [|split; [|split]]|split; [|split; [|split]]].
      * intros i Hi. unfold g2. rewrite !lookup_insert. repeat case_decide; eauto.
      * intros u x Hx. apply Hsub in Hx. by eapply Hran.
      * intros a b. rewrite !Hmult.
        pose proof (Hsym a b). pose proof (Hmc a). pose proof (Hmc b).
        pose proof (Hmn a). pose proof (Hmn b).
        pose proof (Hsym curr nv). pose proof (Hsym curr b). pose proof (Hsym nv b).
        pose proof (Hsym a curr). pose proof (Hsym a nv).
        assert (mult g curr curr = 0%nat) as Hcc.
        { destruct (mult g curr curr) eqn:E; [done|].
          exfalso. apply (Hloop curr), mult_elem. lia. }
        assert (mult g nv nv = 0%nat) as Hnn.
        { destruct (mult g nv nv) eqn:E; [done|].
          exfalso. apply (Hloop nv), mult_elem. lia. }
        pose proof (Hmc curr). pose proof (Hmn nv).
        repeat case_decide; subst; try done; lia.
      * intros u Hu. apply Hsub in Hu. by apply (Hloop u).
      * intros x [->|Hx]%elem_of_cons; [done|]. by apply Hr.
      * intros c Hcirc. rewrite Hadj. pose proof (Hempty c Hcirc) as He.
        repeat case_decide; subst; [| |done].
        -- rewrite He in Hcn. by apply elem_of_nil in Hcn.
        -- rewrite Hadjc in He. by destruct l'.
      * intros u v Hv. destruct (Hclosed u v Hv) as [Hin|[Hu Hv']].
        2:{ right. split; by right. }
        rewrite Hadj. repeat case_decide; subst.
        -- rewrite Hperm in Hin. apply elem_of_cons in Hin as [->|Hin]; [|by left].
           right. split; [by left|]. right. by left.
        -- rewrite Hadjc in Hin.
           apply elem_of_app in Hin as [Hin| ->%list_elem_of_singleton]; [by left|].
           right. split; [right; by left|by left].
        -- by left.
      * by right.
    + pose proof (total_insert g curr (l' ++ [nv]) l' Hl) as Ht1.
      pose proof (total_insert (<[curr:=l']> g) nv (adj g nv) ln') as Ht2.
      rewrite lookup_insert_ne in Ht2 by done. specialize (Ht2 Hln).
      fold g2 in Ht2. rewrite length_app in Ht1. simpl in *.
      assert (length (adj g nv) = S (length ln')) as Hlen by by rewrite Hperm.
      lia.
  - (* no edge is left at [curr]: it goes to the circuit *)
    apply list_pop_None in Hpop. rewrite Hpop in Hl, Hadjc. clear Hpop l.
    apply IH.
    + split; [done|]. split; [|split; [|split]].
      * intros x Hx. apply Hr. set_solver.
      * intros c [Hcirc| ->%list_elem_of_singleton]%elem_of_app; [by apply Hempty|done].
      * intros u v Hv. destruct (Hclosed u v Hv) as [Hin|[Hu Hv']]; [by left|].
        right. set_solver.
      * set_solver.
    + simpl in Hfuel. lia.
Qed.

Lemma find_eulerian_circuit_spec g :
  multigraph self g →
  ∃ circuit, find_eulerian_circuit g = Ret circuit ∧
    (∀ c, c ∈ circuit → 0 ≤ c < Z.of_nat (n self)) ∧
    0 ∈ circuit ∧
    ∀ u v, v ∈ adj g u → u ∈ circuit → v ∈ circuit.
Proof.
  intros Hg. unfold find_eulerian_circuit. fold (total g).
  pose proof (valid_inv self Hvalid) as (_ & _ & Hn & _).
  destruct (euler_loop_spec g (S (total g)) [0] [] g) as (c & -> & Hr & H0 & Hcl).
  - split; [done|]. split; [|split; [|split]].
    + intros x ->%list_elem_of_singleton. lia.
    + by intros c ?%elem_of_nil.
    + intros u v Hv. by left.
    + by left.
  - simpl. lia.
  - simpl. exists (reverse c). split; [done|].
    split; [|split]; setoid_rewrite elem_of_reverse; done.
Qed.

End Circuit.

(** ** Christofides: the shortcut *)

Lemma make_hamiltonian_spec (circuit : list Z) :
  NoDup (make_hamiltonian circuit) ∧
  ∀ x, x ∈ make_hamiltonian circuit ↔ x ∈ circuit.
Proof.
  unfold make_hamiltonian.
  assert (∀ (visited : gset Z) (t : list Z),
    NoDup t → (∀ x, x ∈ visited ↔ x ∈ t) →
    let r := foldl (λ '(visited, t) city,
                if bool_decide (city ∉ visited)
                then (visited ∪ {[city]}, t ++ [city])
                else (visited, t)) (visited, t) circuit in
    NoDup r.2 ∧ ∀ x, x ∈ r.2 ↔ x ∈ t ∨ x ∈ circuit) as Hgen.
  { induction circuit as [|c circuit IH]; intros visited t Hnd Hvis; simpl.
    - split; [done|]. intros x. rewrite elem_of_nil. naive_solver.
    - destruct (decide (c ∈ visited)) as [Hc|Hc].
      + rewrite bool_decide_eq_false_2 by (intros Hn; by apply Hn).
        destruct (IH visited t Hnd Hvis) as [H1 H2].
        split; [done|]. intros x. rewrite H2, elem_of_cons.
        assert (c ∈ t) by by apply Hvis.
        naive_solver.
      + rewrite bool_decide_eq_true_2 by done.
        destruct (IH (visited ∪ {[c]}) (t ++ [c])) as [H1 H2].
        * apply NoDup_app. split; [done|]. split; [|apply NoDup_singleton].
          intros x Hx ->%list_elem_of_singleton. apply Hc. by apply Hvis.
        * intros x. rewrite elem_of_union, elem_of_app, elem_of_singleton,
            list_elem_of_singleton, Hvis. done.
        * split; [done|]. intros x. rewrite H2, elem_of_app, list_elem_of_singleton,
            elem_of_cons. naive_solver. }
  destruct (Hgen ∅ [] (NoDup_nil_2) ltac:(set_solver)) as [H1 H2].
  split; [done|]. intros x. rewrite H2, elem_of_nil. naive_solver.
Qed.

(** ** Christofides: the pipeline *)

Lemma grows_closed (self : TSPSolver) (C : Z → Prop) vis mst :
  grows self vis mst →
  (∀ x, x ∈ vis → C x) →
  (∀ u v, (u, v) ∈ mst → C u → C v) →
  ∀ x, x ∈ reached vis mst → C x.
Proof.
  revert vis. induction mst as [|[u v] mst IH]; intros vis Hg Hvis Hstep x Hx.
  - unfold reached in Hx. simpl in Hx. apply Hvis. set_solver.
  - destruct Hg as (Hu & Hv & Hr & Hg). rewrite reached_cons in Hx.
    apply (IH (vis ∪ {[v]})); auto.
    + intros y [Hy| ->%elem_of_singleton]%elem_of_union; [by apply Hvis|].
      apply (Hstep u); [by left|by apply Hvis].
    + intros u' v' Hin. apply Hstep. by right.
Qed.

Section Pipeline.

Context (set_order : list Z → list Z).
Context (set_order_perm : ∀ l, set_order l ≡ₚ l).
Context (self : TSPSolver) (Hvalid : valid self).

Lemma christofides_Ret :
  ∃ r, christofides set_order self = Ret r ∧ well_formed self r ∧
       is_optimal r = false ∧ approximation_ratio r = Some (3 # 2)%Q.
Proof.
  unfold christofides.
  destruct (compute_mst_spec self Hvalid) as (mst & -> & Hsp). simpl.
  destruct (find_odd_degree_vertices_spec self Hvalid mst Hsp)
    as (odd & -> & Hnd & Hall & k & Hlen). simpl.
  destruct (min_weight_matching_spec set_order set_order_perm self Hvalid odd k
              Hnd Hall Hlen) as (matching & -> & Hmat). simpl.
  assert (proper_edges self mst) as Hmst.
  { intros u v Hin. by eapply spanning_edge. }
  destruct (combine_mst_matching_spec self Hvalid mst matching Hmst Hmat)
    as (g & -> & Hg & Hedges). simpl.
  destruct (find_eulerian_circuit_spec self Hvalid g Hg)
    as (circuit & -> & Hr & H0 & Hcl). simpl.
  destruct (make_hamiltonian_spec circuit) as [Hnd' Hel].
  assert (hamiltonian self (make_hamiltonian circuit)) as Hham.
  { apply NoDup_Permutation; [done|apply NoDup_range|].
    intros x. rewrite Hel, elem_of_cities. split; [by apply Hr|].
    intros Hx. destruct Hsp as [Hgrow Hreach].
    apply (grows_closed self (λ y, y ∈ circuit) {[ 0 ]} mst); auto.
    - by intros y ->%elem_of_singleton.
    - intros u v Hin Hu. apply (Hcl u); [by apply Hedges|done].
    - by apply Hreach. }
  rewrite calculate_tour_cost_cycle; [|done|by apply hamiltonian_Forall]. simpl.
  eexists. split; [done|]. split; [|done]. split; [by apply hamiltonian_length|].
  split; [done|]. split; [done|]. eexists. split; [done|]. simpl.
  apply calculate_tour_cost_cycle; [done|by apply hamiltonian_Forall].
Qed.

Lemma held_karp_well_formed r : held_karp self = Ret r → well_formed self r.
Proof.
  intros Hr. destruct (decide (n self ≤ 20)%nat) as [Hn|Hn].
  - destruct (held_karp_correct self Hvalid Hn)
      as (r' & c & Hr' & _ & _ & Hnum & Hlen & Hham & Hc & Hcost & _).
    rewrite Hr in Hr'. injection Hr' as <-.
    split; [congruence|]. split; [done|]. split; [done|]. eauto.
  - unfold held_karp in Hr. by rewrite bool_decide_eq_true_2 in Hr by lia.
Qed.

Lemma two_opt_well_formed initial_tour k :
  hamiltonian self (initial self initial_tour) →
  ∃ r, two_opt self initial_tour k = Ret r ∧ well_formed self r.
Proof.
  intros Hham.
  destruct (two_opt_is_Ret self initial_tour k Hvalid) as (r & Hr).
  { eapply Forall_impl; [by apply hamiltonian_Forall|].
    unfold in_bounds. simpl. lia. }
  exists r. split; [done|].
  destruct (two_opt_Ret self initial_tour k r Hvalid Hr)
    as (c0 & c & _ & Hrev & Hc & Hcost & _ & Hnum).
  assert (hamiltonian self (tour r)) as Hham'.
  { unfold hamiltonian. by rewrite (reversals_perm _ _ Hrev). }
  split; [rewrite Hnum; by apply hamiltonian_length|]. split; [done|].
  split; [done|]. eauto.
Qed.

Lemma solve_well_formed name r :
  solve set_order self name = Ret r → well_formed self r.
Proof.
  assert (∀ r, nearest_neighbor set_order self 0 = Ret r → well_formed self r) as Hnn.
  { intros r' Hr'. pose proof (valid_inv self Hvalid) as (_ & _ & Hn & _).
    destruct (nearest_neighbor_Ret set_order set_order_perm self Hvalid 0)
      as (r'' & Hr'' & _ & Hwf); [lia|]. congruence. }
  assert (∀ r, christofides set_order self = Ret r → well_formed self r) as Hch.
  { intros r' Hr'. destruct christofides_Ret as (r'' & Hr'' & Hwf & _). congruence. }
  assert (∀ t k r, hamiltonian self (initial self t) →
            two_opt self t k = Ret r → well_formed self r) as Hto.
  { intros t k r' Hham Hr'.
    destruct (two_opt_well_formed t k Hham) as (r'' & Hr'' & Hwf). congruence. }
  unfold solve. case_bool_decide as Hauto.
  - repeat case_bool_decide.
    + apply held_karp_well_formed.
    + apply Hch.
    + intros Hb. apply bind_Ret in Hb as (nn & Hnnr & Hb).
      eapply Hto; [|exact Hb]. apply (Hnn _ Hnnr).
  - simpl. repeat case_decide; simpl; try done.
    + apply held_karp_well_formed.
    + apply Hch.
    + apply Hnn.
    + intros Hb. eapply Hto; [|exact Hb]. by unfold hamiltonian.
Qed.

End Pipeline.

(** ** The results of the solvers *)

(** C2: every result that [held_karp], [nearest_neighbor] with a start in
    range, [christofides], [two_opt] from the identity or from a Hamiltonian
    cycle, and [solve] return has a tour of length [num_cities] that is a
    permutation of the cities, and its cost is the cost of its tour; the
    heuristics and 2-opt do return a result. *)
Theorem results_well_formed (set_order : list Z → list Z) (self : TSPSolver) :
  (∀ l, set_order l ≡ₚ l) → valid self →
  (∀ r, held_karp self = Ret r → well_formed self r) ∧
  (∀ start, 0 ≤ start < Z.of_nat (n self) →
     ∃ r, nearest_neighbor set_order self start = Ret r ∧ well_formed self r) ∧
  (∃ r, christofides set_order self = Ret r ∧ well_formed self r) ∧
  (∀ initial_tour k, hamiltonian self (initial self initial_tour) →
     ∃ r, two_opt self initial_tour k = Ret r ∧ well_formed self r) ∧
  (∃ r, two_opt self None 1000 = Ret r ∧ well_formed self r) ∧
  (∀ name r, solve set_order self name = Ret r → well_formed self r).
Proof.
  intros Hperm Hv. split; [|split; [|split; [|split; [|split]]]].
  - intros r. by apply held_karp_well_formed.
  - intros start Hs.
    destruct (nearest_neighbor_Ret set_order Hperm self Hv start Hs) as (r & ? & _ & ?).
    eauto.
  - destruct (christofides_Ret set_order Hperm self Hv) as (r & ? & ? & _). eauto.
  - intros t k Hh. eapply two_opt_well_formed; eauto.
  - eapply two_opt_well_formed; eauto. by unfold hamiltonian.
  - intros name r. by apply (solve_well_formed set_order Hperm).
Qed.


(** * Further properties of the solver

    Properties of the functions of [tsp_solver.py] beyond the claims of the
    specification: the behaviour at the bounds, the invariants of the steps
    of the pipelines, and how the solvers compose. *)

(** ** The cost of a tour *)

(** The city that an index in [[-n, n)] denotes: [numpy] counts negative
    indices from the end. *)
Definition city (self : TSPSolver) (x : Z) : Z := x `mod` Z.of_nat (n self).

Lemma index_mod (len : nat) (i : Z) :
  - Z.of_nat len ≤ i < Z.of_nat len →
  index len i = Ret (Z.to_nat (i `mod` Z.of_nat len)).
Proof.
  intros Hi. unfold index. case_bool_decide as H0.
  - by rewrite Z.mod_small.
  - rewrite bool_decide_eq_true_2 by lia. do 2 f_equal.
    apply Z.mod_unique with (-1); lia.
Qed.

Lemma index_Raise (len : nat) (i : Z) :
  ¬ (- Z.of_nat len ≤ i < Z.of_nat len) → index len i = Raise IndexError.
Proof.
  intros Hi. unfold index. by rewrite !bool_decide_eq_false_2 by lia.
Qed.

Lemma city_range (self : TSPSolver) (x : Z) :
  (0 < n self)%nat → 0 ≤ city self x < Z.of_nat (n self).
Proof. intros Hn. unfold city. apply Z.mod_pos_bound. lia. Qed.

Lemma city_id (self : TSPSolver) (x : Z) :
  0 ≤ x < Z.of_nat (n self) → city self x = x.
Proof. intros Hx. unfold city. by apply Z.mod_small. Qed.

Lemma getitem2_city (self : TSPSolver) (a b : Z) :
  valid self → in_bounds self a → in_bounds self b →
  getitem2 (distance_matrix self) a b = Ret (edge self (city self a) (city self b)).
Proof.
  intros (H0 & H1 & _)%valid_inv Ha Hb. unfold getitem2.
  rewrite H0, H1, !index_mod by done. done.
Qed.

Lemma getitem2_Ret_or_Raise (self : TSPSolver) (a b : Z) :
  (∃ w, getitem2 (distance_matrix self) a b = Ret w) ∨
  getitem2 (distance_matrix self) a b = Raise IndexError.
Proof.
  unfold getitem2, index.
  repeat (case_bool_decide; simpl); eauto.
Qed.

Lemma for_each_ext {A B : Type} (l : list A) (b0 : B) (f g : B → A → outcome B) :
  (∀ b x, x ∈ l → f b x = g b x) → for_each l b0 f = for_each l b0 g.
Proof.
  revert b0. induction l as [|x l IH]; intros b0 H; simpl; [done|].
  rewrite H by by left. destruct (g b0 x); simpl; [|done..].
  apply IH. intros b y Hy. apply H. by right.
Qed.

Lemma for_each_Ret_or_Raise {A B : Type} (l : list A) (b0 : B)
    (body : B → A → outcome B) (e : exn) :
  (∀ b x, x ∈ l → (∃ b', body b x = Ret b') ∨ body b x = Raise e) →
  (∃ b, for_each l b0 body = Ret b) ∨ for_each l b0 body = Raise e.
Proof.
  revert b0. induction l as [|x l IH]; intros b0 H; simpl; [eauto|].
  destruct (H b0 x) as [(b' & ->)| ->]; [by left| |by right]. simpl.
  apply IH. intros b y Hy. apply H. by right.
Qed.

Lemma calculate_tour_cost_Ret_or_Raise (self : TSPSolver) (t : list Z) :
  (∃ c, calculate_tour_cost self t = Ret c) ∨
  calculate_tour_cost self t = Raise IndexError.
Proof.
  apply for_each_Ret_or_Raise. intros acc i Hi. apply elem_of_seq in Hi.
  destruct (lookup_lt_is_Some_2 t i) as [a Ha]; [lia|].
  destruct (lookup_lt_is_Some_2 t ((i + 1) `mod` length t)%nat) as [b Hb].
  { apply Nat.mod_upper_bound. lia. }
  rewrite (list_get_lookup _ _ _ Ha), (list_get_lookup _ _ _ Hb). simpl.
  destruct (getitem2_Ret_or_Raise self a b) as [(w & ->)| ->]; simpl; eauto.
Qed.

Lemma calculate_tour_cost_city (self : TSPSolver) (t : list Z) :
  valid self → Forall (in_bounds self) t →
  calculate_tour_cost self t = calculate_tour_cost self (city self <$> t).
Proof.
  intros Hv Ht. unfold calculate_tour_cost. rewrite length_fmap.
  apply for_each_ext. intros acc i Hi. apply elem_of_seq in Hi.
  destruct (lookup_lt_is_Some_2 t i) as [a Ha]; [lia|].
  destruct (lookup_lt_is_Some_2 t ((i + 1) `mod` length t)%nat) as [b Hb].
  { apply Nat.mod_upper_bound. lia. }
  pose proof (valid_inv self Hv) as (_ & _ & Hn & _).
  unfold list_get. rewrite !list_lookup_fmap, Ha, Hb. simpl.
  rewrite getitem2_city; [|done|by eapply Forall_lookup_1..].
  rewrite getitem2_edge; [done|done|apply city_range; lia..].
Qed.

Lemma Forall_city_range (self : TSPSolver) (t : list Z) :
  valid self → Forall (λ x, 0 ≤ x < Z.of_nat (n self)) (city self <$> t).
Proof.
  intros (_ & _ & Hn & _)%valid_inv. apply Forall_fmap, Forall_forall.
  intros x _. simpl. apply city_range. lia.
Qed.

Lemma calculate_tour_cost_cases (self : TSPSolver) (t : list Z) :
  valid self →
  (Forall (in_bounds self) t →
     calculate_tour_cost self t =
     Ret (int64 (cycle_cost self (city self <$> t)))) ∧
  (no_overflow self → Forall (in_bounds self) t → (length t ≤ n self)%nat →
     calculate_tour_cost self t = Ret (cycle_cost self (city self <$> t))) ∧
  (¬ Forall (in_bounds self) t → calculate_tour_cost self t = Raise IndexError) ∧
  calculate_tour_cost self [] = Ret 0.
Proof.
  intros Hv. split; [|split; [|split; [|done]]].
  - intros Ht. rewrite calculate_tour_cost_city by done.
    apply calculate_tour_cost_cycle; [done|by apply Forall_city_range].
  - intros Hno Ht Hlen. rewrite calculate_tour_cost_city by done.
    apply calculate_tour_cost_exact; [done|done|by apply Forall_city_range|].
    by rewrite length_fmap.
  - intros Ht. destruct (calculate_tour_cost_Ret_or_Raise self t) as [(c & Hc)|H]; [|done].
    destruct Ht. by eapply calculate_tour_cost_Ret_inv.
Qed.

(** X1: on a matrix of dtype int64 the cost of a tour is defined exactly
    when every entry is an index in [[-n, n)]; a negative entry [x] stands
    for the city [x + n], and the
    cost is the sum of the edges around the cycle of the cities denoted, as
    64 bits hold it: a sum that does not fit int64 wraps around.  It is the
    sum itself for a tour of at most [n] entries on a matrix whose entries
    are so small that no sum of [n] of them overflows.  Any other entry
    raises [IndexError].  The empty tour costs 0. *)
Theorem calculate_tour_cost_spec (self : TSPSolver) (t : list Z) :
  valid self → dtype_int64 (distance_matrix self) →
  (Forall (in_bounds self) t →
     calculate_tour_cost self t =
     Ret (int64 (cycle_cost self (city self <$> t)))) ∧
  (no_overflow self → Forall (in_bounds self) t → (length t ≤ n self)%nat →
     calculate_tour_cost self t = Ret (cycle_cost self (city self <$> t))) ∧
  (¬ Forall (in_bounds self) t → calculate_tour_cost self t = Raise IndexError) ∧
  calculate_tour_cost self [] = Ret 0.
Proof. intros Hv _. by apply calculate_tour_cost_cases. Qed.

#[global] Instance in_bounds_decision (self : TSPSolver) (x : Z) :
  Decision (in_bounds self x).
Proof. unfold in_bounds. apply _. Defined.

Lemma in_bounds_dec (self : TSPSolver) (t : list Z) :
  Forall (in_bounds self) t ∨ ¬ Forall (in_bounds self) t.
Proof. destruct (decide (Forall (in_bounds self) t)); [by left|by right]. Qed.

(** X2: on a matrix of dtype int64 the cost of a tour does not depend on the
    city at which the cycle is entered: a rotation of the list has the same
    cost, also when the sum wraps around, or fails alike. *)
Theorem calculate_tour_cost_rotate (self : TSPSolver) (t1 t2 : list Z) :
  valid self → dtype_int64 (distance_matrix self) →
  calculate_tour_cost self (t1 ++ t2) = calculate_tour_cost self (t2 ++ t1).
Proof.
  intros Hv _.
  destruct (calculate_tour_cost_cases self (t1 ++ t2) Hv) as (Hin & _ & Hout & _).
  destruct (calculate_tour_cost_cases self (t2 ++ t1) Hv) as (Hin' & _ & Hout' & _).
  destruct (in_bounds_dec self (t1 ++ t2)) as [Ht|Ht].
  - rewrite (Hin Ht), Hin'; [|apply Forall_app in Ht as [? ?]; by apply Forall_app].
    by rewrite !fmap_app, cycle_cost_rotate.
  - rewrite (Hout Ht), Hout'; [done|].
    intros [? ?]%Forall_app. apply Ht. by apply Forall_app.
Qed.

(** The matrix is symmetric. *)
Definition symmetric (self : TSPSolver) : Prop :=
  ∀ i j, (i < n self)%nat → (j < n self)%nat →
    item (distance_matrix self) i j = item (distance_matrix self) j i.

Lemma edge_symmetric (self : TSPSolver) (a b : Z) :
  symmetric self → 0 ≤ a < Z.of_nat (n self) → 0 ≤ b < Z.of_nat (n self) →
  edge self a b = edge self b a.
Proof. intros Hs Ha Hb. unfold edge. apply Hs; lia. Qed.

Lemma path_cost_reverse (self : TSPSolver) (p : list Z) :
  symmetric self → Forall (λ x, 0 ≤ x < Z.of_nat (n self)) p →
  path_cost self (reverse p) = path_cost self p.
Proof.
  intros Hs. induction p as [|a p IH]; intros Hp; [done|].
  apply Forall_cons in Hp as [Ha Hp]. specialize (IH Hp).
  destruct p as [|b p']; [done|].
  apply Forall_cons in Hp as [Hb Hp].
  rewrite reverse_cons, path_cost_cons2.
  rewrite reverse_cons in IH |- *. rewrite path_cost_snoc, IH.
  rewrite (edge_symmetric self b a) by done. lia.
Qed.

Lemma cycle_cost_reverse (self : TSPSolver) (t : list Z) :
  symmetric self → Forall (λ x, 0 ≤ x < Z.of_nat (n self)) t →
  cycle_cost self (reverse t) = cycle_cost self t.
Proof.
  intros Hs Ht. destruct t as [|a u]; [done|].
  rewrite reverse_cons, cycle_cost_rotate.
  change (cycle_cost self ([a] ++ reverse u))
    with (path_cost self ((a :: reverse u) ++ [a])).
  change (cycle_cost self (a :: u)) with (path_cost self (a :: u ++ [a])).
  rewrite <- (path_cost_reverse self (a :: u ++ [a]) Hs) by
    (apply Forall_cons in Ht as [? ?]; constructor; [done|];
     apply Forall_app; split; [done|by constructor]).
  by rewrite reverse_cons, reverse_app.
Qed.

(** X3: on a symmetric matrix of dtype int64 a tour and the tour walked
    backwards cost the same, also when the sum wraps around. *)
Theorem calculate_tour_cost_reverse (self : TSPSolver) (t : list Z) :
  valid self → dtype_int64 (distance_matrix self) → symmetric self →
  calculate_tour_cost self (reverse t) = calculate_tour_cost self t.
Proof.
  intros Hv _ Hs.
  destruct (calculate_tour_cost_cases self t Hv) as (Hin & _ & Hout & _).
  destruct (calculate_tour_cost_cases self (reverse t) Hv) as (Hin' & _ & Hout' & _).
  destruct (in_bounds_dec self t) as [Ht|Ht].
  - rewrite (Hin Ht), (Hin' (proj2 (Forall_reverse _ _) Ht)).
    rewrite fmap_reverse, (cycle_cost_reverse self _ Hs (Forall_city_range self t Hv)).
    done.
  - rewrite (Hout Ht), Hout'; [done|].
    intros H. apply Ht. apply (proj1 (Forall_reverse _ _) H).
Qed.

(** X4: the validation looks at the shape and at the diagonal only: two
    matrices of the same shape with the same diagonal are both accepted or
    both refused, with the same error. *)
Theorem validation_ignores_off_diagonal (dm dm' : ndarray) :
  shape0 dm = shape0 dm' → shape1 dm = shape1 dm' →
  (∀ i, (i < shape0 dm)%nat → item dm i i = item dm' i i) →
  init dm' = match init dm with
             | Ret _ => Ret {| distance_matrix := dm'; n := shape0 dm' |}
             | Raise e => Raise e
             | OutOfFuel => OutOfFuel
             end.
Proof.
  intros H0 H1 Hd. unfold init, validate_input, np_diag. simpl.
  rewrite <- H0, <- H1.
  assert ((λ i, item dm' i i) <$> seq 0 (shape0 dm `min` shape1 dm)
          = (λ i, item dm i i) <$> seq 0 (shape0 dm `min` shape1 dm)) as ->.
  { apply list_fmap_ext. intros k i Hk. apply lookup_seq in Hk as [-> Hk].
    rewrite Hd; [done|lia]. }
  repeat case_bool_decide; simpl; try done.
  by destruct (forallb _ _).
Qed.

(** ** Nearest neighbour is greedy *)

(** [min(xs, key)] returns an element whose key is least. *)
Lemma py_min_least (xs : list Z) (key : Z → outcome Z) (f : Z → Z) :
  xs ≠ [] → (∀ x, x ∈ xs → key x = Ret (f x)) →
  ∃ m, py_min xs key = Ret m ∧ m ∈ xs ∧ ∀ x, x ∈ xs → f m ≤ f x.
Proof.
  intros Hne Hkey. destruct xs as [|x xs]; [done|]. simpl.
  rewrite (Hkey x) by by left. simpl.
  destruct (for_each_inv (λ done (b : Z * Z),
              b.1 ∈ x :: xs ∧ b.2 = f b.1 ∧ ∀ z, z ∈ x :: done → f b.1 ≤ f z)
              xs (x, f x)
              (λ '(best, kbest) y, ky ← key y;
                 if bool_decide (ky < kbest) then Ret (y, ky) else Ret (best, kbest)))
    as (b & -> & Hb & _ & Hleast).
  - simpl. split; [by left|]. split; [done|].
    intros z ->%list_elem_of_singleton. lia.
  - intros done y rest [best kbest] Hl (Hin & Hk & Hleast). simpl in *. subst kbest.
    rewrite (Hkey y) by (rewrite Hl; set_solver). simpl.
    case_bool_decide as Hlt; eexists; (split; [done|]); simpl.
    + split; [rewrite Hl; set_solver|]. split; [done|].
      intros z [->|[Hz| ->%list_elem_of_singleton]%elem_of_app]%elem_of_cons.
      * specialize (Hleast x ltac:(by left)). lia.
      * specialize (Hleast z ltac:(by right)). lia.
      * lia.
    + split; [done|]. split; [done|].
      intros z [->|[Hz| ->%list_elem_of_singleton]%elem_of_app]%elem_of_cons.
      * apply Hleast. by left.
      * apply Hleast. by right.
      * lia.
  - simpl. exists b.1. split; [done|]. split; [done|]. done.
Qed.

(** A path on which every step goes to a city that is nearest among the
    cities still ahead. *)
Fixpoint nearest_chain (self : TSPSolver) (a : Z) (u : list Z) : Prop :=
  match u with
  | [] => True
  | b :: u' => (∀ x, x ∈ b :: u' → edge self a b ≤ edge self a x) ∧
               nearest_chain self b u'
  end.

Lemma nn_loop_greedy (set_order : list Z → list Z) (self : TSPSolver)
    fuel unvisited t current total t' current' total' :
  (∀ l, set_order l ≡ₚ l) → valid self →
  NoDup unvisited →
  Forall (λ x, 0 ≤ x < Z.of_nat (n self)) unvisited →
  0 ≤ current < Z.of_nat (n self) →
  nn_loop set_order fuel self unvisited t current total = Ret (t', current', total') →
  ∃ u, t' = t ++ u ∧ u ≡ₚ unvisited ∧ nearest_chain self current u.
Proof.
  intros Hperm Hv. revert unvisited t current total.
  induction fuel as [|fuel IH]; intros unvisited t current total Hnd Hall Hcur H.
  { destruct unvisited; [|done]. simpl in H. injection H as <- <- <-.
    exists []. by rewrite app_nil_r. }
  destruct unvisited as [|x0 xs].
  { simpl in H. injection H as <- <- <-. exists []. by rewrite app_nil_r. }
  cbn [nn_loop] in H. remember (x0 :: xs) as unvisited eqn:Eu.
  destruct (py_min_least (set_order unvisited)
              (λ x, getitem2 (distance_matrix self) current x) (edge self current))
    as (m & Hm & Hin & Hleast).
  { intros E. pose proof (Hperm unvisited) as Hp. rewrite E, Eu in Hp.
    by apply Permutation_nil_cons in Hp. }
  { intros y Hy. rewrite Hperm in Hy.
    apply getitem2_edge; [done..|]. by eapply (proj1 (Forall_forall _ _) Hall). }
  rewrite Hm in H. simpl in H. rewrite Hperm in Hin.
  assert (0 ≤ m < Z.of_nat (n self)) as Hmr by by eapply (proj1 (Forall_forall _ _) Hall).
  rewrite getitem2_edge in H by done. simpl in H.
  rewrite set_remove_Ret in H by done. simpl in H.
  apply IH in H as (u & -> & Hu & Hchain);
    [|by apply NoDup_filter|by apply Forall_filter_keep|done].
  exists (m :: u). split; [by rewrite <- app_assoc|].
  assert (m :: u ≡ₚ unvisited) as Hp.
  { rewrite Hu. symmetry. by apply filter_ne_perm. }
  split; [done|]. split; [|done].
  intros x Hx. apply Hleast. by rewrite Hperm, <- Hp.
Qed.

(** X5: whatever the order in which the set of unvisited cities is iterated,
    every step of the tour of [nearest_neighbor] goes to a city that is
    nearest, from the current city, among the cities not yet visited. *)
Theorem nearest_neighbor_greedy (set_order : list Z → list Z) (self : TSPSolver)
    (start : Z) :
  (∀ l, set_order l ≡ₚ l) → valid self → 0 ≤ start < Z.of_nat (n self) →
  ∃ r, nearest_neighbor set_order self start = Ret r ∧
    ∀ p a b q, tour r = p ++ a :: b :: q →
      ∀ x, x ∈ b :: q → edge self a b ≤ edge self a x.
Proof.
  intros Hperm Hv Hs.
  destruct (nearest_neighbor_Ret set_order Hperm self Hv start Hs) as (r & Hr & _).
  exists r. split; [done|].
  unfold nearest_neighbor in Hr.
  apply bind_Ret in Hr as (unv & Hunv & Hr).
  apply bind_Ret in Hr as ([[t cur] tot] & Hloop & Hr).
  apply bind_Ret in Hr as (w & _ & Hr). injection Hr as <-. cbn [tour].
  rewrite set_remove_Ret in Hunv by by apply elem_of_range.
  injection Hunv as <-.
  apply nn_loop_greedy in Hloop as (u & -> & _ & Hchain); [|done|done|..|done].
  2:{ apply NoDup_filter, NoDup_range. }
  2:{ apply Forall_filter_keep, Forall_forall. by intros x ?%elem_of_range. }
  simpl app. clear Hs. revert start Hchain.
  induction u as [|y u IH]; intros a0 Hchain p a b q E.
  - destruct p as [|? [|? ?]]; simplify_eq/=.
  - destruct Hchain as [Hleast Hchain]. destruct p as [|z p].
    + simpl in E. injection E as <- <- <-. done.
    + simpl in E. injection E as <- E. by apply (IH _ Hchain p).
Qed.

(** ** 2-opt: what it leaves in place, and where it stops *)

Lemma two_opt_scan_i_Some_range self t best i_range t' c' :
  two_opt_scan_i self t best i_range = Ret (Some (t', c')) →
  ∃ i j, i ∈ i_range ∧ i < j < Z.of_nat (n self) ∧ t' = reverse_segment t i j ∧
         calculate_tour_cost self t' = Ret c' ∧ c' < best.
Proof.
  induction i_range as [|i i_range IH]; simpl; [done|]. intros H.
  apply bind_Ret in H as (r & Hr & H). destruct r as [[t1 c1]|].
  - injection H as <- <-.
    apply two_opt_scan_j_Some in Hr as (j & Hj & ?).
    apply elem_of_range in Hj. exists i, j. split; [by left|]. split; [lia|done].
  - destruct (IH H) as (i' & j' & ? & ?). exists i', j'. split; [by right|done].
Qed.

(** A reversal of the segment between the positions [i] and [j] with
    [1 <= i < j < len] leaves the first entry and the entries from position
    [len] on where they are. *)
Lemma reverse_segment_frame (t : list Z) (i j : Z) (len : nat) :
  1 ≤ i → i < j < Z.of_nat len →
  take 1 (reverse_segment t i j) = take 1 t ∧
  drop len (reverse_segment t i j) = drop len t.
Proof.
  intros Hi Hj. unfold reverse_segment. split.
  - destruct t as [|x t]; [by rewrite !drop_nil, !take_nil|].
    replace (Z.to_nat i) with (S (Z.to_nat (i - 1))) by lia. done.
  - rewrite !app_assoc. rewrite drop_app.
    set (l := take (Z.to_nat i) t ++
              reverse (take (Z.to_nat (j + 1) - Z.to_nat i) (drop (Z.to_nat i) t))).
    assert (length l = Nat.min (Z.to_nat (j + 1)) (length t)) as Hl.
    { unfold l. rewrite length_app, length_reverse, !length_take, length_drop. lia. }
    rewrite drop_ge by lia. rewrite drop_drop. simpl.
    destruct (decide (length t ≤ Z.to_nat (j + 1))%nat) as [Hle|Hle].
    + rewrite !drop_ge; [done|lia|lia].
    + f_equal. lia.
Qed.

Lemma two_opt_loop_frame budget self t best t' c' :
  two_opt_loop budget self t best = Ret (t', c') →
  take 1 t' = take 1 t ∧ drop (n self) t' = drop (n self) t.
Proof.
  revert t best. induction budget as [|b IH]; intros t best H; simpl in H.
  - by injection H as <- <-.
  - apply bind_Ret in H as (r & Hr & H). destruct r as [[t1 c1]|].
    + apply two_opt_scan_i_Some_range in Hr as (i & j & Hi & Hij & -> & _).
      apply elem_of_range in Hi.
      destruct (IH _ _ H) as [-> ->].
      apply reverse_segment_frame; lia.
    + by injection H as <- <-.
Qed.

Lemma two_opt_frame (self : TSPSolver) (initial_tour : option (list Z))
    (k : Z) (r : TSPResult) :
  two_opt self initial_tour k = Ret r →
  head (tour r) = head (initial self initial_tour) ∧
  drop (n self) (tour r) = drop (n self) (initial self initial_tour).
Proof.
  intros H. unfold two_opt in H. fold (initial self initial_tour) in H.
  apply bind_Ret in H as (c0 & Hc0 & H).
  apply bind_Ret in H as ([t c] & Hl & H). injection H as <-. cbn [tour].
  apply two_opt_loop_frame in Hl as [Hh Hd]. split; [|done].
  destruct t as [|x t], (initial self initial_tour) as [|y l]; simpl in *; congruence.
Qed.

(** X6: [two_opt] never moves the first city of the tour, nor anything at a
    position from [n] on: the tour it returns begins like the initial one. *)
Theorem two_opt_keeps_first_city (self : TSPSolver) (initial_tour : option (list Z))
    (k : Z) (r : TSPResult) :
  two_opt self initial_tour k = Ret r →
  head (tour r) = head (initial self initial_tour) ∧
  drop (n self) (tour r) = drop (n self) (initial self initial_tour).
Proof. apply two_opt_frame. Qed.

(** *** Convergence *)

(** A cost that the code has computed is a scalar of dtype int64 (or the
    Python integer 0 of the empty tour). *)
Lemma tour_cost_lower (self : TSPSolver) (t : list Z) (c : Z) :
  valid self → calculate_tour_cost self t = Ret c → - 2 ^ 63 ≤ c.
Proof.
  intros Hv Hc.
  pose proof (calculate_tour_cost_Ret_inv self t c Hv Hc) as Ht.
  destruct (calculate_tour_cost_cases self t Hv) as (Hin & _).
  rewrite (Hin Ht) in Hc. injection Hc as <-. apply int64_range.
Qed.

(** A scan of all the pairs finds nothing better than [best]. *)
Definition scan_finds_nothing (self : TSPSolver) (t : list Z) (best : Z) : Prop :=
  two_opt_scan_i self t best (range 1 (Z.of_nat (n self) - 1)) = Ret None.

Lemma two_opt_loop_progress budget self t best t' c' :
  two_opt_loop budget self t best = Ret (t', c') →
  scan_finds_nothing self t' c' ∨ c' ≤ best - Z.of_nat budget.
Proof.
  revert t best. induction budget as [|b IH]; intros t best H; simpl in H.
  - injection H as <- <-. right. lia.
  - apply bind_Ret in H as (r & Hr & H). destruct r as [[t1 c1]|].
    + pose proof Hr as Hr'.
      apply two_opt_scan_i_Some_range in Hr' as (i & j & _ & _ & _ & _ & Hlt).
      destruct (IH _ _ H) as [?|?]; [by left|right; lia].
    + injection H as <- <-. by left.
Qed.

Lemma two_opt_loop_stable budget self t best t' c' :
  two_opt_loop budget self t best = Ret (t', c') →
  scan_finds_nothing self t' c' →
  ∀ b, (budget ≤ b)%nat → two_opt_loop b self t best = Ret (t', c').
Proof.
  revert t best. induction budget as [|bu IH]; intros t best H Hstop b Hb.
  - simpl in H. injection H as <- <-. destruct b as [|b]; [done|].
    simpl. unfold scan_finds_nothing in Hstop. by rewrite Hstop.
  - destruct b as [|b]; [lia|]. simpl in *.
    apply bind_Ret in H as (r & Hr & H). rewrite Hr. simpl.
    destruct r as [[t1 c1]|]; [|done].
    apply (IH _ _ H Hstop). lia.
Qed.

Lemma two_opt_scan_j_None self t best i js :
  two_opt_scan_j self t best i js = Ret None →
  ∀ j c, j ∈ js → calculate_tour_cost self (reverse_segment t i j) = Ret c → best ≤ c.
Proof.
  induction js as [|j0 js IH]; simpl; intros H j c Hj Hc; [by apply elem_of_nil in Hj|].
  apply bind_Ret in H as (c0 & Hc0 & H). case_bool_decide as Hlt; [done|].
  apply elem_of_cons in Hj as [->|Hj]; [|by eapply IH].
  rewrite Hc in Hc0. injection Hc0 as <-. lia.
Qed.

Lemma two_opt_scan_i_None self t best i_range :
  two_opt_scan_i self t best i_range = Ret None →
  ∀ i j c, i ∈ i_range → i < j < Z.of_nat (n self) →
    calculate_tour_cost self (reverse_segment t i j) = Ret c → best ≤ c.
Proof.
  induction i_range as [|i0 i_range IH]; simpl; intros H i j c Hi Hj Hc;
    [by apply elem_of_nil in Hi|].
  apply bind_Ret in H as (r & Hr & H). destruct r as [?|]; [done|].
  apply elem_of_cons in Hi as [->|Hi]; [|by eapply IH].
  eapply two_opt_scan_j_None; [done| |done]. apply elem_of_range. lia.
Qed.

(** X7: [two_opt] converges: from some budget on it returns one and the same
    result, and the tour of that result is a local optimum: no reversal of a
    segment between positions [1 <= i < j <= n-1] costs less. *)
Theorem two_opt_converges (self : TSPSolver) (initial_tour : option (list Z)) :
  valid self → Forall (in_bounds self) (initial self initial_tour) →
  ∃ K r c, (∀ k, K ≤ k → two_opt self initial_tour k = Ret r) ∧
    cost r = Fin c ∧ calculate_tour_cost self (tour r) = Ret c ∧
    ∀ i j c', 1 ≤ i → i < j < Z.of_nat (n self) →
      calculate_tour_cost self (reverse_segment (tour r) i j) = Ret c' → c ≤ c'.
Proof.
  intros Hv Ht. unfold two_opt. fold (initial self initial_tour).
  set (t0 := initial self initial_tour) in *.
  destruct (calculate_tour_cost_is_Ret self t0 Hv Ht) as (c0 & Hc0). rewrite Hc0. simpl.
  set (K := (Z.to_nat (c0 + 2 ^ 63) + 1)%nat).
  destruct (two_opt_loop_is_Ret K self t0 c0 Hv Ht) as ([t c] & Hl).
  pose proof (two_opt_loop_Ret _ _ _ _ _ _ Hv Hc0 Hl) as (Hrev & Hc & Hle).
  assert (scan_finds_nothing self t c) as Hstop.
  { destruct (two_opt_loop_progress _ _ _ _ _ _ Hl) as [?|Hlow]; [done|].
    pose proof (tour_cost_lower self t c Hv Hc) as Hlb.
    pose proof (tour_cost_lower self t0 c0 Hv Hc0). unfold K in Hlow. lia. }
  exists (Z.of_nat K), {| tour := t; cost := Fin c; algorithm := "2-opt";
                          num_cities := n self; is_optimal := false;
                          approximation_ratio := None |}, c.
  split; [|split; [done|split; [done|]]].
  - intros k Hk.
    rewrite (two_opt_loop_stable _ _ _ _ _ _ Hl Hstop (Z.to_nat k)) by lia. done.
  - cbn [tour]. intros i j c' Hi Hj Hc'.
    eapply (two_opt_scan_i_None _ _ _ _ Hstop i j); [|done..].
    apply elem_of_range. lia.
Qed.

(** X8: with a budget of zero or less, and on two cities, [two_opt] returns
    the initial tour with its cost: nothing is scanned. *)
Theorem two_opt_returns_initial (self : TSPSolver) (initial_tour : option (list Z))
    (k c0 : Z) :
  valid self → calculate_tour_cost self (initial self initial_tour) = Ret c0 →
  k ≤ 0 ∨ n self = 2%nat →
  two_opt self initial_tour k =
    Ret {| tour := initial self initial_tour; cost := Fin c0; algorithm := "2-opt";
           num_cities := n self; is_optimal := false; approximation_ratio := None |}.
Proof.
  intros Hv Hc0 Hk. unfold two_opt. fold (initial self initial_tour).
  rewrite Hc0. simpl.
  assert (two_opt_loop (Z.to_nat k) self (initial self initial_tour) c0
          = Ret (initial self initial_tour, c0)) as ->; [|done].
  destruct Hk as [Hk|Hn].
  - by replace (Z.to_nat k) with 0%nat by lia.
  - destruct (Z.to_nat k) as [|b]; [done|]. simpl. rewrite Hn. done.
Qed.

(** ** The steps of Christofides, one by one *)

(** *** The shortcut *)

Lemma make_hamiltonian_gen (circuit : list Z) (visited : gset Z) (t : list Z) :
  NoDup t → (∀ x, x ∈ visited ↔ x ∈ t) →
  ∃ s, (foldl (λ '(visited, t) city,
           if bool_decide (city ∉ visited)
           then (visited ∪ {[city]}, t ++ [city])
           else (visited, t)) (visited, t) circuit).2 = t ++ s ∧
       s `sublist_of` circuit ∧ NoDup (t ++ s) ∧
       (∀ x, x ∈ s ↔ x ∈ circuit ∧ x ∉ t) ∧
       (NoDup circuit → (∀ x, x ∈ circuit → x ∉ t) → s = circuit).
Proof.
  revert visited t. induction circuit as [|c circuit IH]; intros visited t Hnd Hvis; simpl.
  - exists []. rewrite app_nil_r. split; [done|]. split; [done|]. split; [done|].
    split; [|done]. intros x. rewrite !elem_of_nil. naive_solver.
  - destruct (decide (c ∈ visited)) as [Hc|Hc].
    + rewrite bool_decide_eq_false_2 by (intros Hn; by apply Hn).
      destruct (IH visited t Hnd Hvis) as (s & -> & Hsub & Hnd' & Hel & Hid).
      exists s. split; [done|]. split; [by apply sublist_cons|]. split; [done|].
      split.
      * intros x. rewrite Hel, elem_of_cons.
        assert (c ∈ t) by by apply Hvis. naive_solver.
      * intros _ Hfresh. exfalso. apply (Hfresh c); [by left|by apply Hvis].
    + rewrite bool_decide_eq_true_2 by done.
      destruct (IH (visited ∪ {[c]}) (t ++ [c])) as (s & -> & Hsub & Hnd' & Hel & Hid).
      * apply NoDup_app. split; [done|]. split; [|apply NoDup_singleton].
        intros x Hx ->%list_elem_of_singleton. apply Hc. by apply Hvis.
      * intros x. rewrite elem_of_union, elem_of_app, elem_of_singleton,
          list_elem_of_singleton, Hvis. done.
      * exists (c :: s). rewrite <- app_assoc. split; [done|].
        split; [by apply sublist_skip|]. split; [by rewrite <- app_assoc in Hnd'|].
        split.
        -- intros x. rewrite !elem_of_cons, Hel, elem_of_app, list_elem_of_singleton.
           assert (c ∉ t) by (intros ?; by apply Hc, Hvis).
           destruct (decide (x = c)); naive_solver.
        -- intros [Hcn Hndc]%NoDup_cons Hfresh. f_equal. apply Hid; [done|].
           intros x Hx. rewrite elem_of_app, list_elem_of_singleton.
           intros [?| ->]; [|done]. apply (Hfresh x); [by right|done].
Qed.

Lemma make_hamiltonian_head (circuit : list Z) :
  head (make_hamiltonian circuit) = head circuit.
Proof.
  unfold make_hamiltonian. destruct circuit as [|c circuit]; [done|]. simpl.
  rewrite bool_decide_eq_true_2 by set_solver.
  destruct (make_hamiltonian_gen circuit (∅ ∪ {[c]}) [c]) as (s & -> & _).
  - apply NoDup_singleton.
  - set_solver.
  - done.
Qed.


(** *** The vertices of odd degree *)

(** The ends of a list of edges, and the number of ends at the city [i]: its
    degree. *)
Definition endpoints (es : list (Z * Z)) : list Z := es ≫= λ e, [e.1; e.2].

Definition degree_of (self : TSPSolver) (es : list (Z * Z)) (i : Z) : nat :=
  length (filter (λ x, city self x = i) (endpoints es)).

Lemma py_get_city (self : TSPSolver) (l : list Z) (u : Z) :
  length l = n self → in_bounds self u →
  ∃ x, l !! Z.to_nat (city self u) = Some x ∧ py_get l u = Ret x.
Proof.
  intros Hlen Hu. unfold py_get. rewrite Hlen, index_mod by done. simpl.
  destruct (lookup_lt_is_Some_2 l (Z.to_nat (city self u))) as [x Hx].
  { unfold in_bounds in Hu. pose proof (city_range self u ltac:(lia)). lia. }
  exists x. unfold city in *. by rewrite Hx.
Qed.

Lemma py_set_city (self : TSPSolver) (l : list Z) (u x : Z) :
  length l = n self → in_bounds self u →
  py_set l u x = Ret (<[Z.to_nat (city self u) := x]> l).
Proof.
  intros Hlen Hu. unfold py_set. by rewrite Hlen, index_mod by done.
Qed.

Lemma py_get_Raise (self : TSPSolver) (l : list Z) (u : Z) :
  length l = n self → ¬ in_bounds self u → py_get l u = Raise IndexError.
Proof.
  intros Hlen Hu. unfold py_get. by rewrite Hlen, index_Raise by done.
Qed.

Lemma degree_of_cons (self : TSPSolver) (u v : Z) (es : list (Z * Z)) (i : Z) :
  degree_of self ((u, v) :: es) i =
  ((if decide (city self u = i) then 1 else 0) +
   (if decide (city self v = i) then 1 else 0) + degree_of self es i)%nat.
Proof.
  unfold degree_of. change (endpoints ((u, v) :: es)) with (u :: v :: endpoints es).
  rewrite !filter_cons. repeat case_decide; simpl length; lia.
Qed.

(** The loop that counts the degrees. *)
Lemma degree_loop (self : TSPSolver) (es : list (Z * Z)) (degree : list Z) :
  valid self → length degree = n self →
  (Forall (in_bounds self) (endpoints es) →
     ∃ d', for_each es degree (λ degree '(u, v),
              du ← py_get degree u;
              degree ← py_set degree u (du + 1);
              dv ← py_get degree v;
              py_set degree v (dv + 1)) = Ret d' ∧
           length d' = n self ∧
           sum d' = sum degree + 2 * Z.of_nat (length es) ∧
           ∀ i x, degree !! i = Some x →
             d' !! i = Some (x + Z.of_nat (degree_of self es (Z.of_nat i)))) ∧
  (¬ Forall (in_bounds self) (endpoints es) →
     for_each es degree (λ degree '(u, v),
              du ← py_get degree u;
              degree ← py_set degree u (du + 1);
              dv ← py_get degree v;
              py_set degree v (dv + 1)) = Raise IndexError).
Proof.
  intros Hv. pose proof (valid_inv self Hv) as (_ & _ & Hn & _).
  revert degree. induction es as [|[u v] es IH]; intros degree Hlen.
  { split.
    - intros _. exists degree. split; [done|]. split; [done|]. split; [simpl; lia|].
      intros i x Hx. rewrite Hx. f_equal. unfold degree_of. simpl. lia.
    - intros H. destruct H. constructor. }
  change (endpoints ((u, v) :: es)) with (u :: v :: endpoints es).
  cbn [for_each].
  destruct (decide (in_bounds self u)) as [Hu|Hu].
  2:{ split; [by intros [? _]%Forall_cons|]. intros _.
      by rewrite (py_get_Raise self) by done. }
  destruct (py_get_city self degree u Hlen Hu) as (du & Hdu & ->). simpl.
  rewrite (py_set_city self) by done. simpl.
  set (d1 := <[Z.to_nat (city self u) := du + 1]> degree).
  assert (length d1 = n self) as Hlen1 by (unfold d1; by rewrite length_insert).
  destruct (decide (in_bounds self v)) as [Hvv|Hvv].
  2:{ split; [by intros [_ [? _]%Forall_cons]%Forall_cons|]. intros _.
      by rewrite (py_get_Raise self) by done. }
  destruct (py_get_city self d1 v Hlen1 Hvv) as (dv & Hdv & ->). simpl.
  rewrite (py_set_city self) by done. simpl.
  set (d2 := <[Z.to_nat (city self v) := dv + 1]> d1).
  assert (length d2 = n self) as Hlen2 by (unfold d2; by rewrite length_insert).
  destruct (IH d2 Hlen2) as [IHin IHout]. split.
  - intros [_ [_ Hes]%Forall_cons]%Forall_cons.
    destruct (IHin Hes) as (d' & -> & Hlen' & Hsum & Hlk).
    exists d'. split; [done|]. split; [done|]. split.
    + unfold d2, d1 in Hsum, Hdv.
      rewrite (sum_insert _ _ _ _ Hdv), (sum_insert _ _ _ _ Hdu) in Hsum.
      simpl length. lia.
    + intros i x Hx. pose proof (lookup_lt_Some _ _ _ Hx) as Hi.
      pose proof (city_range self u ltac:(lia)) as Hcu.
      pose proof (city_range self v ltac:(lia)) as Hcv.
      rewrite degree_of_cons.
      assert (d2 !! i = Some (x + (if decide (city self u = Z.of_nat i) then 1 else 0)
                                + (if decide (city self v = Z.of_nat i) then 1 else 0)))
        as Hd2.
      { unfold d2, d1 in *.
        destruct (decide (Z.to_nat (city self v) = i)) as [Ev|Ev];
          destruct (decide (Z.to_nat (city self u) = i)) as [Eu|Eu].
        - rewrite Ev in *. rewrite Eu in *.
          rewrite list_lookup_insert_eq in Hdv by lia.
          rewrite list_lookup_insert_eq by (rewrite length_insert; lia).
          rewrite !decide_True by lia. f_equal. simplify_eq. lia.
        - rewrite Ev in *.
          rewrite list_lookup_insert_ne in Hdv by done.
          rewrite list_lookup_insert_eq by (rewrite length_insert; lia).
          rewrite decide_False by lia. rewrite decide_True by lia.
          f_equal. simplify_eq. lia.
        - rewrite Eu in *.
          rewrite list_lookup_insert_ne by done.
          rewrite list_lookup_insert_eq by lia.
          rewrite decide_True by lia. rewrite decide_False by lia.
          f_equal. simplify_eq. lia.
        - rewrite !list_lookup_insert_ne by done.
          rewrite !decide_False by lia. rewrite Hx. f_equal. lia. }
      rewrite (Hlk i _ Hd2). f_equal.
      repeat case_decide; lia.
  - intros Hn'. apply IHout. intros Hes. apply Hn'.
    constructor; [done|]. by constructor.
Qed.

Lemma filter_ext_in {A : Type} (P Q : A → Prop) `{!∀ x, Decision (P x)}
    `{!∀ x, Decision (Q x)} (l : list A) :
  (∀ x, x ∈ l → P x ↔ Q x) → filter P l = filter Q l.
Proof.
  induction l as [|x l IH]; intros Hext; [done|].
  rewrite !filter_cons. rewrite IH by (intros y Hy; apply Hext; by right).
  pose proof (Hext x ltac:(by left)). repeat case_decide; tauto || done.
Qed.

Lemma find_odd_degree_vertices_filter (self : TSPSolver) (es : list (Z * Z)) :
  valid self →
  (Forall (in_bounds self) (endpoints es) →
     find_odd_degree_vertices self es =
       Ret (filter (λ i, Z.of_nat (degree_of self es i) `mod` 2 = 1)
              (range 0 (Z.of_nat (n self)))) ∧
     ∃ k, length (filter (λ i, Z.of_nat (degree_of self es i) `mod` 2 = 1)
                    (range 0 (Z.of_nat (n self)))) = (2 * k)%nat) ∧
  (¬ Forall (in_bounds self) (endpoints es) →
     find_odd_degree_vertices self es = Raise IndexError).
Proof.
  intros Hv. unfold find_odd_degree_vertices.
  destruct (degree_loop self es (replicate (n self) 0) Hv (length_replicate _ _))
    as [Hin Hout].
  split; [|by intros Hes; rewrite (Hout Hes)].
  intros Hes. destruct (Hin Hes) as (degree & -> & Hlen & Hsum & Hlk). simpl.
  rewrite sum_replicate_0 in Hsum.
  assert (∀ i, 0 ≤ i < Z.of_nat (n self) →
            degree !! Z.to_nat i = Some (Z.of_nat (degree_of self es i))) as Hdeg.
  { intros i Hi. rewrite (Hlk (Z.to_nat i) 0).
    - rewrite Z2Nat.id by lia. done.
    - apply lookup_replicate_2. lia. }
  set (P := λ i : Z, Z.of_nat (degree_of self es i) `mod` 2 = 1).
  assert (filter (λ i : Z, default 0 (degree !! Z.to_nat i) `mod` 2 = 1)
            (range 0 (Z.of_nat (n self))) = filter P (range 0 (Z.of_nat (n self))))
    as Hfilter.
  { apply filter_ext_in. intros i Hi%elem_of_range. unfold P.
    by rewrite (Hdeg i Hi). }
  split.
  - destruct (for_each_inv (λ done (acc : list Z), acc = filter P done)
      (range 0 (Z.of_nat (n self))) [] (λ acc i,
        di ← py_get degree i;
        if bool_decide (di `mod` 2 = 1) then Ret (acc ++ [i]) else Ret acc))
      as (odd & -> & ->); [done| |done].
    intros done i rest acc Hl ->.
    assert (0 ≤ i < Z.of_nat (n self)) as Hi.
    { apply elem_of_range. rewrite Hl. set_solver. }
    rewrite (py_get_Ret _ _ _ (proj1 Hi) (Hdeg i Hi)). simpl.
    rewrite filter_app, filter_cons, filter_nil.
    unfold P at 2. case_bool_decide; case_decide; try tauto; eexists; (split; [done|]).
    + done.
    + by rewrite app_nil_r.
  - rewrite <- Hfilter.
    pose proof (odd_entries_parity degree (n self) ltac:(lia)) as Hpar.
    rewrite firstn_all2 in Hpar by lia. rewrite Hsum in Hpar.
    revert Hpar.
    generalize (length (filter (λ i : Z, default 0 (degree !! Z.to_nat i) `mod` 2 = 1)
                          (range 0 (Z.of_nat (n self))))).
    intros a Ha. exists (a / 2)%nat.
    assert (Z.of_nat a `mod` 2 = 0) as Ha'.
    { revert Ha. generalize (Z.of_nat (length es)). intros. Z.div_mod_to_equations. lia. }
    pose proof (Nat.div_mod_eq a 2) as Hdm.
    assert (a mod 2 = 0)%nat; [|lia].
    apply Nat2Z.inj. rewrite Nat2Z.inj_mod. done.
Qed.

(** X10: [find_odd_degree_vertices] returns, in increasing order, exactly the
    cities at which an odd number of edge ends lie, and their number is even;
    an edge end in [[-n, 0)] counts for the city it denotes, an edge end
    outside [[-n, n)] raises [IndexError]. *)
Theorem find_odd_degree_vertices_exact (self : TSPSolver) (es : list (Z * Z)) :
  valid self →
  (Forall (in_bounds self) (endpoints es) →
     find_odd_degree_vertices self es =
       Ret (filter (λ i, Z.of_nat (degree_of self es i) `mod` 2 = 1)
              (range 0 (Z.of_nat (n self)))) ∧
     ∃ k, length (filter (λ i, Z.of_nat (degree_of self es i) `mod` 2 = 1)
                    (range 0 (Z.of_nat (n self)))) = (2 * k)%nat) ∧
  (¬ Forall (in_bounds self) (endpoints es) →
     find_odd_degree_vertices self es = Raise IndexError).
Proof. apply find_odd_degree_vertices_filter. Qed.

(** *** The greedy matching *)

(** In a list of pairs made greedily, the partner of the first city of a
    pair is nearest to it among the cities of this pair and of the later
    pairs. *)
Fixpoint greedy_pairs (self : TSPSolver) (m : list (Z * Z)) : Prop :=
  match m with
  | [] => True
  | (v, w) :: m' =>
      (∀ x, x ∈ w :: endpoints m' → edge self v w ≤ edge self v x) ∧
      greedy_pairs self m'
  end.

Lemma set_order_nil (set_order : list Z → list Z) :
  (∀ l, set_order l ≡ₚ l) → set_order [] = [].
Proof. intros Hperm. apply Permutation_nil_r. by rewrite Hperm. Qed.

Lemma set_order_ne_nil (set_order : list Z → list Z) (l : list Z) :
  (∀ l, set_order l ≡ₚ l) → l ≠ [] → set_order l ≠ [].
Proof.
  intros Hperm Hne E. apply Hne. apply Permutation_nil_r. by rewrite <- E, Hperm.
Qed.

Section GreedyMatching.

Context (set_order : list Z → list Z).
Context (set_order_perm : ∀ l, set_order l ≡ₚ l).
Context (self : TSPSolver) (Hvalid : valid self).

(** One pass of the loop on a set of at least two cities. *)
Lemma matching_step (unmatched : list Z) :
  NoDup unmatched → Forall (λ x, 0 ≤ x < Z.of_nat (n self)) unmatched →
  (2 ≤ length unmatched)%nat →
  ∃ v nearest,
    set_pop set_order unmatched = Ret (v, filter (λ y, y ≠ v) unmatched) ∧
    py_min (set_order (filter (λ y, y ≠ v) unmatched))
      (λ u, getitem2 (distance_matrix self) v u) = Ret nearest ∧
    set_remove nearest (filter (λ y, y ≠ v) unmatched) =
      Ret (filter (λ y, y ≠ nearest) (filter (λ y, y ≠ v) unmatched)) ∧
    unmatched ≡ₚ v :: nearest :: filter (λ y, y ≠ nearest) (filter (λ y, y ≠ v) unmatched) ∧
    ∀ x, x ∈ nearest :: filter (λ y, y ≠ nearest) (filter (λ y, y ≠ v) unmatched) →
         edge self v nearest ≤ edge self v x.
Proof.
  intros Hnd Hall Hlen. unfold set_pop.
  destruct (set_order unmatched) as [|v rest] eqn:Eo.
  { pose proof (set_order_perm unmatched) as Hp. rewrite Eo in Hp.
    apply Permutation_nil_l in Hp. subst. simpl in Hlen. lia. }
  assert (v ∈ unmatched) as Hv.
  { rewrite <- set_order_perm, Eo. by left. }
  set (unmatched1 := filter (λ y, y ≠ v) unmatched).
  pose proof (filter_ne_perm v unmatched Hnd Hv) as Hp1. fold unmatched1 in Hp1.
  assert (0 ≤ v < Z.of_nat (n self)) as Hvr by apply (Forall_elem _ _ _ Hall Hv).
  destruct (py_min_least (set_order unmatched1)
              (λ u, getitem2 (distance_matrix self) v u) (edge self v))
    as (nearest & Hmin & Hn & Hleast).
  { apply set_order_ne_nil; [done|]. intros E. rewrite E in Hp1.
    apply Permutation_length in Hp1. simpl in Hp1. lia. }
  { intros y Hy. rewrite set_order_perm in Hy.
    apply list_elem_of_filter in Hy as [_ Hy].
    apply getitem2_edge; [done..|]. apply (Forall_elem _ _ _ Hall Hy). }
  rewrite set_order_perm in Hn.
  exists v, nearest. split; [done|]. split; [done|].
  split; [by apply set_remove_Ret|]. split.
  - rewrite Hp1 at 1. apply Permutation_skip.
    apply filter_ne_perm; [by apply NoDup_filter|done].
  - intros x Hx. apply Hleast. rewrite set_order_perm.
    by rewrite (filter_ne_perm nearest unmatched1) by (by apply NoDup_filter || done).
Qed.

Lemma matching_loop_even fuel matching unmatched k :
  NoDup unmatched → Forall (λ x, 0 ≤ x < Z.of_nat (n self)) unmatched →
  length unmatched = (2 * k)%nat → (k ≤ fuel)%nat →
  ∃ m, matching_loop set_order fuel self matching unmatched = Ret (matching ++ m) ∧
       length m = k ∧ endpoints m ≡ₚ unmatched ∧ greedy_pairs self m.
Proof.
  revert matching unmatched k.
  induction fuel as [|fuel IH]; intros matching unmatched k Hnd Hall Hlen Hk.
  { destruct unmatched; [|simpl in Hlen; lia].
    exists []. rewrite app_nil_r. simpl in *. split; [done|]. split; [lia|done]. }
  destruct unmatched as [|x0 xs].
  { exists []. rewrite app_nil_r. simpl in *. split; [done|]. split; [lia|done]. }
  cbn [matching_loop]. remember (x0 :: xs) as unmatched eqn:Eu.
  destruct (matching_step unmatched Hnd Hall) as (v & nearest & -> & Hmin & Hrem & Hp & Hleast).
  { rewrite Hlen. subst unmatched. simpl in Hlen. lia. }
  simpl. rewrite Hmin. simpl. rewrite Hrem. simpl.
  set (unmatched2 := filter (λ y, y ≠ nearest) (filter (λ y, y ≠ v) unmatched)) in *.
  destruct (IH (matching ++ [(v, nearest)]) unmatched2 (k - 1)%nat)
    as (m & -> & Hlm & Hem & Hg).
  - by do 2 apply NoDup_filter.
  - by do 2 apply Forall_filter_keep.
  - apply Permutation_length in Hp. simpl in Hp. lia.
  - lia.
  - exists ((v, nearest) :: m). rewrite <- app_assoc. split; [done|].
    split; [simpl; apply Permutation_length in Hp; simpl in Hp; lia|].
    change (endpoints ((v, nearest) :: m)) with (v :: nearest :: endpoints m).
    split; [by rewrite Hem, Hp|]. split; [|done].
    intros x Hx. apply Hleast. by rewrite Hem in Hx.
Qed.

Lemma matching_loop_odd fuel matching unmatched k :
  NoDup unmatched → Forall (λ x, 0 ≤ x < Z.of_nat (n self)) unmatched →
  length unmatched = (2 * k + 1)%nat → (k < fuel)%nat →
  ∃ msg, matching_loop set_order fuel self matching unmatched = Raise (ValueError msg).
Proof.
  revert matching unmatched k.
  induction fuel as [|fuel IH]; intros matching unmatched k Hnd Hall Hlen Hk; [lia|].
  destruct unmatched as [|x0 xs]; [simpl in Hlen; lia|].
  cbn [matching_loop]. remember (x0 :: xs) as unmatched eqn:Eu.
  destruct k as [|k].
  - assert (unmatched = [x0]) as -> by (subst; destruct xs; [done|simpl in Hlen; lia]).
    unfold set_pop.
    destruct (set_order [x0]) as [|v rest] eqn:Eo.
    { pose proof (set_order_perm [x0]) as Hp. rewrite Eo in Hp.
      by apply Permutation_nil_l in Hp. }
    assert (v = x0) as ->.
    { assert (v ∈ [x0]) as Hin by (rewrite <- set_order_perm, Eo; by left).
      by apply list_elem_of_singleton in Hin. }
    simpl. rewrite filter_cons, decide_False by (intros Hne; by apply Hne).
    rewrite filter_nil, (set_order_nil set_order set_order_perm). simpl. eauto.
  - destruct (matching_step unmatched Hnd Hall)
      as (v & nearest & -> & Hmin & Hrem & Hp & Hleast); [lia|].
    simpl. rewrite Hmin. simpl. rewrite Hrem. simpl.
    apply (IH _ _ k).
    + by do 2 apply NoDup_filter.
    + by do 2 apply Forall_filter_keep.
    + apply Permutation_length in Hp. simpl in Hp. lia.
    + lia.
Qed.

End GreedyMatching.

Lemma min_weight_matching_cases (set_order : list Z → list Z)
    (self : TSPSolver) (odd_vertices : list Z) :
  (∀ l, set_order l ≡ₚ l) → valid self →
  Forall (λ x, 0 ≤ x < Z.of_nat (n self)) odd_vertices →
  (∀ k, length (remove_dups odd_vertices) = (2 * k)%nat →
     ∃ m, min_weight_matching set_order self odd_vertices = Ret m ∧
          length m = k ∧ endpoints m ≡ₚ remove_dups odd_vertices ∧
          greedy_pairs self m) ∧
  (∀ k, length (remove_dups odd_vertices) = (2 * k + 1)%nat →
     ∃ msg, min_weight_matching set_order self odd_vertices = Raise (ValueError msg)).
Proof.
  intros Hperm Hv Hall. unfold min_weight_matching.
  assert (Forall (λ x, 0 ≤ x < Z.of_nat (n self)) (remove_dups odd_vertices)) as Hall'.
  { apply Forall_forall. intros x Hx. apply (Forall_elem _ _ _ Hall).
    by apply elem_of_remove_dups. }
  split; intros k Hk.
  - destruct (matching_loop_even set_order Hperm self Hv
                (length (remove_dups odd_vertices)) [] (remove_dups odd_vertices) k)
      as (m & Hm & ?); [apply NoDup_remove_dups|done|done|lia|].
    exists m. done.
  - apply (matching_loop_odd set_order Hperm self Hv _ _ _ k);
      [apply NoDup_remove_dups|done|done|lia].
Qed.

(** X11: on an even number of distinct cities [min_weight_matching] returns
    a perfect matching: half as many pairs, in which every city occurs once,
    each made by giving a city the nearest of the cities that are left.  On
    an odd number of distinct cities the last city finds no partner and the
    call raises a [ValueError]. *)
Theorem min_weight_matching_perfect (set_order : list Z → list Z)
    (self : TSPSolver) (odd_vertices : list Z) :
  (∀ l, set_order l ≡ₚ l) → valid self →
  Forall (λ x, 0 ≤ x < Z.of_nat (n self)) odd_vertices →
  (∀ k, length (remove_dups odd_vertices) = (2 * k)%nat →
     ∃ m, min_weight_matching set_order self odd_vertices = Ret m ∧
          length m = k ∧ endpoints m ≡ₚ remove_dups odd_vertices ∧
          greedy_pairs self m) ∧
  (∀ k, length (remove_dups odd_vertices) = (2 * k + 1)%nat →
     ∃ msg, min_weight_matching set_order self odd_vertices = Raise (ValueError msg)).
Proof. apply min_weight_matching_cases. Qed.

(** *** The multigraph *)

(** The other ends of the edges of [es] at the city [u], in the order of the
    edges. *)
Definition neighbours (es : list (Z * Z)) (u : Z) : list Z :=
  es ≫= λ e, (if decide (e.1 = u) then [e.2] else []) ++
             (if decide (e.2 = u) then [e.1] else []).

Lemma combine_loop (self : TSPSolver) (es : list (Z * Z)) (g : gmap Z (list Z)) :
  (∀ u, is_Some (g !! u) ↔ 0 ≤ u < Z.of_nat (n self)) →
  (Forall (λ x, 0 ≤ x < Z.of_nat (n self)) (endpoints es) →
     ∃ g', for_each es g (λ graph '(u, v),
              gu ← dict_get graph u;
              let graph := <[u := gu ++ [v]]> graph in
              gv ← dict_get graph v;
              Ret (<[v := gv ++ [u]]> graph)) = Ret g' ∧
           (∀ u, is_Some (g' !! u) ↔ 0 ≤ u < Z.of_nat (n self)) ∧
           ∀ u, adj g' u = adj g u ++ neighbours es u) ∧
  (¬ Forall (λ x, 0 ≤ x < Z.of_nat (n self)) (endpoints es) →
     for_each es g (λ graph '(u, v),
              gu ← dict_get graph u;
              let graph := <[u := gu ++ [v]]> graph in
              gv ← dict_get graph v;
              Ret (<[v := gv ++ [u]]> graph)) = Raise KeyError).
Proof.
  revert g. induction es as [|[u v] es IH]; intros g Hdom.
  { split.
    - intros _. exists g. split; [done|]. split; [done|].
      intros u. unfold neighbours. simpl. by rewrite app_nil_r.
    - intros H. destruct H. constructor. }
  change (endpoints ((u, v) :: es)) with (u :: v :: endpoints es).
  cbn [for_each].
  destruct (decide (0 ≤ u < Z.of_nat (n self))) as [Hu|Hu].
  2:{ split; [by intros [? _]%Forall_cons|]. intros _.
      unfold dict_get. destruct (g !! u) as [l|] eqn:E; [|done].
      destruct Hu. apply Hdom. by rewrite E. }
  destruct (proj2 (Hdom u) Hu) as [gu Hgu].
  rewrite (dict_get_Some _ _ _ Hgu). cbn [mbind outcome_bind]. cbv zeta.
  destruct (decide (0 ≤ v < Z.of_nat (n self))) as [Hv|Hv].
  2:{ split; [by intros [_ [? _]%Forall_cons]%Forall_cons|]. intros _.
      unfold dict_get. rewrite lookup_insert_ne by (intros ->; done).
      destruct (g !! v) as [l|] eqn:E; [|done].
      destruct Hv. apply Hdom. by rewrite E. }
  set (g1 := <[u := gu ++ [v]]> g).
  assert (is_Some (g1 !! v)) as [gv Hgv].
  { unfold g1. rewrite lookup_insert. case_decide; [done|]. by apply Hdom. }
  rewrite (dict_get_Some _ _ _ Hgv). cbn [mbind outcome_bind].
  set (g2 := <[v := gv ++ [u]]> g1).
  assert (∀ x, is_Some (g2 !! x) ↔ 0 ≤ x < Z.of_nat (n self)) as Hdom2.
  { intros x. unfold g2, g1. rewrite !lookup_insert.
    repeat case_decide; subst; try done. }
  destruct (IH g2 Hdom2) as [IHin IHout]. split.
  - intros [_ [_ Hes]%Forall_cons]%Forall_cons.
    destruct (IHin Hes) as (g' & Hg' & Hdom' & Hadj). exists g'.
    split; [exact Hg'|]. split; [done|]. intros x. rewrite Hadj.
    change (neighbours ((u, v) :: es) x)
      with (((if decide (u = x) then [v] else []) ++
             (if decide (v = x) then [u] else [])) ++ neighbours es x).
    rewrite !app_assoc. f_equal.
    unfold g2, g1 in *. rewrite !adj_insert.
    assert (adj g u = gu) as Hau by (unfold adj; by rewrite Hgu).
    rewrite lookup_insert in Hgv.
    repeat case_decide; subst; simplify_eq; rewrite ?app_nil_r; try done.
    unfold adj. by rewrite Hgv.
  - intros Hn'. refine (IHout _). intros Hes. apply Hn'.
    constructor; [done|]. by constructor.
Qed.

Lemma combine_mst_matching_neighbours (self : TSPSolver)
    (mst matching : list (Z * Z)) :
  (Forall (λ x, 0 ≤ x < Z.of_nat (n self)) (endpoints (mst ++ matching)) →
     ∃ g, combine_mst_matching self mst matching = Ret g ∧
          ∀ u, g !! u = if decide (0 ≤ u < Z.of_nat (n self))
                        then Some (neighbours (mst ++ matching) u) else None) ∧
  (¬ Forall (λ x, 0 ≤ x < Z.of_nat (n self)) (endpoints (mst ++ matching)) →
     combine_mst_matching self mst matching = Raise KeyError).
Proof.
  set (g0 := list_to_map ((λ i, (i, [])) <$> range 0 (Z.of_nat (n self)))
             : gmap Z (list Z)).
  assert (∀ u, g0 !! u = if decide (0 ≤ u < Z.of_nat (n self)) then Some [] else None)
    as Hg0.
  { intros u. unfold g0. rewrite lookup_empty_graph.
    destruct (decide (u ∈ range 0 (Z.of_nat (n self)))) as [Hu|Hu];
      rewrite elem_of_range in Hu; by case_decide. }
  destruct (combine_loop self (mst ++ matching) g0) as [Hin Hout].
  { intros u. rewrite Hg0. case_decide; [done|]. split; [by intros [? ?]|done]. }
  split; [|exact Hout].
  intros Hes. destruct (Hin Hes) as (g & Hg & Hdom & Hadj). exists g.
  split; [exact Hg|]. intros u. specialize (Hadj u). specialize (Hdom u).
  unfold adj in Hadj. rewrite Hg0 in Hadj.
  case_decide as Hu.
  - destruct (proj2 Hdom Hu) as [l Hl]. rewrite Hl in *. simpl in Hadj. by subst.
  - destruct (g !! u) as [l|] eqn:E; [|done]. destruct Hu. apply Hdom. done.
Qed.

(** X12: [combine_mst_matching] builds the adjacency lists of the multigraph
    of all the edges: the dictionary has the cities as its keys, and the list
    of a city holds the other end of each of its edges, in the order of the
    edges of the tree followed by those of the matching.  An edge with an end
    that is no city raises [KeyError]: a dictionary does not count negative
    keys from the end. *)
Theorem combine_mst_matching_adjacency (self : TSPSolver)
    (mst matching : list (Z * Z)) :
  (Forall (λ x, 0 ≤ x < Z.of_nat (n self)) (endpoints (mst ++ matching)) →
     ∃ g, combine_mst_matching self mst matching = Ret g ∧
          ∀ u, g !! u = if decide (0 ≤ u < Z.of_nat (n self))
                        then Some (neighbours (mst ++ matching) u) else None) ∧
  (¬ Forall (λ x, 0 ≤ x < Z.of_nat (n self)) (endpoints (mst ++ matching)) →
     combine_mst_matching self mst matching = Raise KeyError).
Proof. apply combine_mst_matching_neighbours. Qed.

(** *** The spanning tree *)

Lemma tuple_ltb_trans (x y m : Z * Z * Z) :
  tuple_ltb x m = false → tuple_ltb y m = true → tuple_ltb x y = false.
Proof.
  destruct x as [[w1 u1] v1], y as [[w2 u2] v2], m as [[w3 u3] v3].
  unfold tuple_ltb.
  rewrite !orb_false_iff, !andb_false_iff, !orb_true_iff, !andb_true_iff,
    !orb_false_iff, !andb_false_iff, !orb_true_iff, !andb_true_iff,
    !bool_decide_eq_true, !bool_decide_eq_false.
  lia.
Qed.

Lemma tuple_ltb_weight (w1 u1 v1 w2 u2 v2 : Z) :
  tuple_ltb (w1, u1, v1) (w2, u2, v2) = false → w2 ≤ w1.
Proof.
  unfold tuple_ltb.
  rewrite !orb_false_iff, !andb_false_iff, !bool_decide_eq_false. lia.
Qed.

Lemma tuple_ltb_irrefl (x : Z * Z * Z) : tuple_ltb x x = false.
Proof.
  destruct x as [[w u] v]. unfold tuple_ltb.
  rewrite !orb_false_iff, !andb_false_iff, !orb_false_iff, !andb_false_iff,
    !bool_decide_eq_false. lia.
Qed.

Lemma foldl_least (x : Z * Z * Z) (h : list (Z * Z * Z)) :
  ∀ y, y ∈ x :: h →
    tuple_ltb y (foldl (λ m y, if tuple_ltb y m then y else m) x h) = false.
Proof.
  assert (∀ h x (seen : list (Z * Z * Z)),
            (∀ y, y ∈ seen → tuple_ltb y x = false) →
            ∀ y, y ∈ seen ++ h →
              tuple_ltb y (foldl (λ m y, if tuple_ltb y m then y else m) x h) = false)
    as Hgen.
  { clear. induction h as [|z h IH]; intros x seen Hseen y Hy; simpl.
    - rewrite app_nil_r in Hy. by apply Hseen.
    - apply (IH _ (seen ++ [z])); [|by rewrite <- app_assoc].
      intros y' [Hy'| ->%list_elem_of_singleton]%elem_of_app.
      + destruct (tuple_ltb z x) eqn:E; [|by apply Hseen].
        eapply tuple_ltb_trans; [by apply Hseen|done].
      + destruct (tuple_ltb z x) eqn:E; [apply tuple_ltb_irrefl|done]. }
  intros y Hy. apply (Hgen h x [x]); [|done].
  intros y' ->%list_elem_of_singleton. apply tuple_ltb_irrefl.
Qed.

(** [heappop] takes out an entry of least weight. *)
Lemma heappop_least h w u v h' :
  heappop h = Some ((w, u, v), h') →
  ∀ w' u' v', (w', u', v') ∈ h → w ≤ w'.
Proof.
  unfold heappop. destruct h as [|x h]; [done|]. intros [= Hm _] w' u' v' Hin.
  pose proof (foldl_least x h _ Hin) as Hle. rewrite Hm in Hle.
  by apply tuple_ltb_weight in Hle.
Qed.

(** The edges of Prim's algorithm, grown from the set [vis]: every edge
    leaves the part built so far for a new city, and no edge that leaves this
    part for a city outside of it is cheaper. *)
Fixpoint prim_steps (self : TSPSolver) (vis : gset Z) (mst : list (Z * Z)) : Prop :=
  match mst with
  | [] => True
  | (u, v) :: mst' =>
      u ∈ vis ∧ v ∉ vis ∧ 0 ≤ v < Z.of_nat (n self) ∧
      (∀ a b, a ∈ vis → b ∉ vis → 0 ≤ b < Z.of_nat (n self) →
         edge self u v ≤ edge self a b) ∧
      prim_steps self (vis ∪ {[v]}) mst'
  end.

Lemma prim_steps_snoc self vis mst u v :
  prim_steps self vis mst → u ∈ reached vis mst → v ∉ reached vis mst →
  0 ≤ v < Z.of_nat (n self) →
  (∀ a b, a ∈ reached vis mst → b ∉ reached vis mst → 0 ≤ b < Z.of_nat (n self) →
     edge self u v ≤ edge self a b) →
  prim_steps self vis (mst ++ [(u, v)]).
Proof.
  revert vis. induction mst as [|[u' v'] mst IH]; intros vis; simpl.
  - unfold reached. simpl. intros _ Hu Hv Hr Hcut.
    split; [set_solver|]. split; [set_solver|]. split; [done|]. split; [|done].
    intros a b Ha Hb. apply Hcut; set_solver.
  - rewrite reached_cons. intros (? & ? & ? & ? & ?) Hu Hv Hr Hcut.
    split; [done|]. split; [done|]. split; [done|]. split; [done|]. by apply IH.
Qed.

Lemma prim_steps_grows self vis mst : prim_steps self vis mst → grows self vis mst.
Proof.
  revert vis. induction mst as [|[u v] mst IH]; intros vis; simpl; [done|].
  intros (? & ? & ? & _ & ?). auto.
Qed.

Lemma grows_size self vis mst :
  grows self vis mst → size (reached vis mst) = (size vis + length mst)%nat.
Proof.
  revert vis. induction mst as [|[u v] mst IH]; intros vis; simpl.
  - intros _. assert (reached vis [] = vis) as -> by (unfold reached; set_solver). lia.
  - intros (_ & Hv & _ & Hg). rewrite reached_cons, (IH _ Hg).
    rewrite size_union by set_solver. rewrite size_singleton. lia.
Qed.

Section Prim.

Context (self : TSPSolver) (Hvalid : valid self).

(** The loop that pushes the edges from the new city [v], with their
    weights. *)
Lemma push_edges_exact (visited : gset Z) (v : Z) (edges : list (Z * Z * Z)) :
  0 ≤ v < Z.of_nat (n self) →
  ∃ edges',
    for_each (range 0 (Z.of_nat (n self))) edges (λ edges j,
      if bool_decide (j ∉ visited)
      then w ← getitem2 (distance_matrix self) v j; Ret (heappush edges (w, v, j))
      else Ret edges) = Ret edges' ∧
    (∀ x, x ∈ edges' →
       x ∈ edges ∨ ∃ j, x = (edge self v j, v, j) ∧ 0 ≤ j < Z.of_nat (n self)) ∧
    (∀ x, x ∈ edges → x ∈ edges') ∧
    (∀ j, 0 ≤ j < Z.of_nat (n self) → j ∉ visited → (edge self v j, v, j) ∈ edges') ∧
    (length edges' ≤ length edges + n self)%nat.
Proof.
  intros Hv.
  destruct (for_each_inv (λ done e,
      (∀ x, x ∈ e →
         x ∈ edges ∨ ∃ j, x = (edge self v j, v, j) ∧ 0 ≤ j < Z.of_nat (n self)) ∧
      (∀ x, x ∈ edges → x ∈ e) ∧
      (∀ j, j ∈ done → j ∉ visited → (edge self v j, v, j) ∈ e) ∧
      (length e ≤ length edges + length done)%nat)
    (range 0 (Z.of_nat (n self))) edges (λ edges j,
      if bool_decide (j ∉ visited)
      then w ← getitem2 (distance_matrix self) v j; Ret (heappush edges (w, v, j))
      else Ret edges)) as (e & He & H1 & H2 & H3 & H4).
  - split; [by left|]. split; [done|]. split; [|simpl; lia].
    intros j Hj. by apply elem_of_nil in Hj.
  - intros done j rest e Hl (H1 & H2 & H3 & H4).
    assert (0 ≤ j < Z.of_nat (n self)) as Hj.
    { apply elem_of_range. rewrite Hl. set_solver. }
    rewrite length_app. simpl.
    case_bool_decide as Hjv.
    + rewrite getitem2_edge by done. simpl. eexists. split; [done|].
      unfold heappush. repeat split.
      * intros x [->|Hx]%elem_of_cons; [right; eauto|by apply H1].
      * intros x Hx. right. by apply H2.
      * intros j' [Hj'| ->%list_elem_of_singleton]%elem_of_app Hn.
        -- right. by apply H3.
        -- by left.
      * simpl. lia.
    + exists e. split; [done|]. repeat split; auto; [|lia].
      intros j' [Hj'| ->%list_elem_of_singleton]%elem_of_app Hn; [auto|done].
  - exists e. split; [done|]. repeat split; auto.
    + intros j Hj. apply H3. by apply elem_of_range.
    + rewrite length_range in H4. lia.
Qed.

Lemma mst_loop_prim fuel mst visited edges :
  visited = reached {[ 0 ]} mst → prim_steps self {[ 0 ]} mst →
  (∀ x, x ∈ visited → 0 ≤ x < Z.of_nat (n self)) →
  (∀ w u v, (w, u, v) ∈ edges →
     w = edge self u v ∧ u ∈ visited ∧ 0 ≤ v < Z.of_nat (n self)) →
  (∀ a b, a ∈ visited → 0 ≤ b < Z.of_nat (n self) → b ∉ visited →
     (edge self a b, a, b) ∈ edges) →
  (length edges + (n self - size visited) * n self ≤ fuel)%nat →
  ∃ mst', mst_loop fuel self mst visited edges = Ret mst' ∧
    prim_steps self {[ 0 ]} mst' ∧
    ∀ x, x ∈ reached {[ 0 ]} mst' ↔ 0 ≤ x < Z.of_nat (n self).
Proof.
  revert mst visited edges.
  induction fuel as [|fuel IH]; intros mst visited edges Hvis Hg Hsub Hedges Hcompl Hfuel.
  - assert (¬ (size visited < n self)%nat) as Hsize by nia.
    exists mst. split.
    + simpl. by rewrite bool_decide_eq_false_2.
    + split; [done|]. rewrite <- Hvis. by apply all_visited.
  - cbn [mst_loop]. case_bool_decide as Hsize.
    2:{ exists mst. split; [done|]. split; [done|]. rewrite <- Hvis. by apply all_visited. }
    destruct (heappop edges) as [[[[w u] v] edges']|] eqn:Hpop.
    2:{ apply heappop_None in Hpop as ->.
        destruct (unvisited_city self Hvalid visited Hsub Hsize) as (j & Hj & Hjv).
        assert (0 ∈ visited) as H0.
        { rewrite Hvis. unfold reached. set_solver. }
        pose proof (Hcompl 0 j H0 Hj Hjv) as Hin. by apply elem_of_nil in Hin. }
    pose proof (heappop_least _ _ _ _ _ Hpop) as Hleast.
    apply heappop_Some in Hpop.
    assert (length edges = S (length edges')) as Hlen by by rewrite Hpop.
    destruct (Hedges w u v) as (Hw & Hu & Hv); [rewrite Hpop; by left|].
    case_bool_decide as Hvv.
    + apply IH; auto.
      * intros w' u' v' Hin. apply (Hedges w'). rewrite Hpop. by right.
      * intros a b Ha Hb Hbv. pose proof (Hcompl a b Ha Hb Hbv) as Hin.
        rewrite Hpop in Hin. apply elem_of_cons in Hin as [[= _ _ ->]|Hin]; done.
      * lia.
    + destruct (push_edges_exact (visited ∪ {[v]}) v edges' Hv)
        as (edges'' & -> & H1 & H2 & H3 & H4). simpl.
      apply IH.
      * rewrite reached_snoc. by rewrite Hvis.
      * apply prim_steps_snoc; auto; rewrite <- Hvis; [done..|].
        intros a b Ha Hb Hbr. rewrite <- Hw.
        apply (Hleast _ a b). by apply Hcompl.
      * intros x [Hx| ->%elem_of_singleton]%elem_of_union; auto.
      * intros w' u' v' Hin. apply H1 in Hin as [Hin|(j & [= -> -> ->] & Hj)].
        -- destruct (Hedges w' u' v') as (? & ? & ?); [rewrite Hpop; by right|].
           split; [done|]. split; [set_solver|done].
        -- split; [done|]. split; [set_solver|done].
      * intros a b [Ha| ->%elem_of_singleton]%elem_of_union Hb Hbv.
        -- apply H2. pose proof (Hcompl a b Ha Hb ltac:(set_solver)) as Hin.
           rewrite Hpop in Hin. apply elem_of_cons in Hin as [[= _ _ ->]|Hin]; [|done].
           set_solver.
        -- by apply H3.
      * rewrite size_union by set_solver. rewrite size_singleton. nia.
Qed.

Lemma compute_mst_prim_steps :
  ∃ mst, compute_mst self = Ret mst ∧ prim_steps self {[ 0 ]} mst ∧
    ∀ x, x ∈ reached {[ 0 ]} mst ↔ 0 ≤ x < Z.of_nat (n self).
Proof.
  unfold compute_mst.
  pose proof (valid_inv self Hvalid) as (_ & _ & Hn & _).
  destruct (for_each_inv (λ done (e : list (Z * Z * Z)),
      (∀ x, x ∈ e ↔ ∃ j, j ∈ done ∧ x = (edge self 0 j, 0, j)) ∧
      length e = length done)
    (range 1 (Z.of_nat (n self))) [] (λ edges j,
       w ← getitem2 (distance_matrix self) 0 j; Ret (edges ++ [(w, 0, j)])))
    as (e & -> & H1 & H2).
  - split; [|done]. intros x. split; [by intros ?%elem_of_nil|].
    by intros (j & ?%elem_of_nil & _).
  - intros done j rest e Hl [H1 H2].
    assert (1 ≤ j < Z.of_nat (n self)) as Hj.
    { apply elem_of_range. rewrite Hl. set_solver. }
    rewrite getitem2_edge by (done || lia). simpl. eexists. split; [done|].
    split; [|rewrite !length_app; simpl; lia].
    intros x. rewrite elem_of_app, list_elem_of_singleton, H1. split.
    + intros [(j' & ? & ->)| ->]; [exists j'|exists j]; set_solver.
    + intros (j' & [?| ->%list_elem_of_singleton]%elem_of_app & ->); [left|right]; eauto.
  - simpl. apply mst_loop_prim.
    + unfold reached. simpl. set_solver.
    + done.
    + intros x ->%elem_of_singleton. lia.
    + intros w u v Hin. apply H1 in Hin as (j & Hj%elem_of_range & [= -> -> ->]).
      split; [done|]. split; [set_solver|lia].
    + intros a b ->%elem_of_singleton Hb Hb0. apply H1. exists b.
      split; [|done]. apply elem_of_range.
      assert (b ≠ 0) by set_solver. lia.
    + rewrite H2, length_range, size_singleton. nia.
Qed.

End Prim.

Lemma compute_mst_tree (self : TSPSolver) :
  valid self →
  ∃ mst, compute_mst self = Ret mst ∧
    length mst = (n self - 1)%nat ∧
    prim_steps self {[ 0 ]} mst ∧
    ∀ x, x ∈ reached {[ 0 ]} mst ↔ 0 ≤ x < Z.of_nat (n self).
Proof.
  intros Hv. destruct (compute_mst_prim_steps self Hv) as (mst & Hmst & Hp & Hr).
  exists mst. split; [done|]. split; [|done].
  pose proof (grows_size self _ _ (prim_steps_grows self _ _ Hp)) as Hsize.
  assert (reached {[0]} mst = list_to_set (cities self)) as E.
  { apply set_eq. intros x. by rewrite Hr, elem_of_list_to_set, elem_of_cities. }
  rewrite E, size_list_to_set, size_singleton in Hsize by apply NoDup_range.
  unfold cities in Hsize. rewrite length_range in Hsize. lia.
Qed.

(** X13: [compute_mst] runs Prim's algorithm from city 0: it returns [n - 1]
    edges, each from a city that the tree has reached to a city that it has
    not, and no cheaper than any other such edge at that moment; together the
    edges reach every city. *)
Theorem compute_mst_prim (self : TSPSolver) :
  valid self →
  ∃ mst, compute_mst self = Ret mst ∧
    length mst = (n self - 1)%nat ∧
    prim_steps self {[ 0 ]} mst ∧
    ∀ x, x ∈ reached {[ 0 ]} mst ↔ 0 ≤ x < Z.of_nat (n self).
Proof. apply compute_mst_tree. Qed.

(** *** The tree is a minimum spanning tree *)

(** The weight of a list of edges. *)
Definition weight (self : TSPSolver) (es : list (Z * Z)) : Z :=
  sum ((λ e, edge self e.1 e.2) <$> es).

(** Two cities joined by an edge of [es], in either direction. *)
Definition link (es : list (Z * Z)) (a b : Z) : Prop := (a, b) ∈ es ∨ (b, a) ∈ es.

(** A spanning tree: [n - 1] edges between cities that connect every city
    to city 0. *)
Definition spanning_tree (self : TSPSolver) (es : list (Z * Z)) : Prop :=
  length es = (n self - 1)%nat ∧
  Forall (λ x, 0 ≤ x < Z.of_nat (n self)) (endpoints es) ∧
  ∀ y, 0 ≤ y < Z.of_nat (n self) → rtc (link es) 0 y.

Lemma weight_cons self e es : weight self (e :: es) = edge self e.1 e.2 + weight self es.
Proof. unfold weight. by rewrite fmap_cons, sum_cons. Qed.

Lemma weight_perm self es es' : es ≡ₚ es' → weight self es = weight self es'.
Proof.
  induction 1 as [|e es es' _ IH|e1 e2 es|es1 es2 es3 _ IH1 _ IH2];
    rewrite ?weight_cons in *; lia.
Qed.

Lemma link_sym es a b : link es a b → link es b a.
Proof. unfold link. tauto. Qed.

Lemma rtc_link_sym es a b : rtc (link es) a b → rtc (link es) b a.
Proof.
  induction 1 as [|x y z Hxy _ IH]; [done|].
  eapply rtc_r; [done|]. by apply link_sym.
Qed.

Lemma endpoints_elem es a b : (a, b) ∈ es → a ∈ endpoints es ∧ b ∈ endpoints es.
Proof.
  intros Hin. unfold endpoints.
  split; apply list_elem_of_bind; exists (a, b); (split; [|done]); simpl; set_solver.
Qed.

Lemma endpoints_perm es es' : es ≡ₚ es' → endpoints es ≡ₚ endpoints es'.
Proof. intros Hp. unfold endpoints. by rewrite Hp. Qed.

(** The exchange step: if [v], outside of [vis], is connected to [vis] by the
    edges [es], then one edge of [es] leaves [vis], and without it every city
    that was connected to [vis] is connected to [vis] or to [v]. *)
Lemma exchange (vis : gset Z) (es : list (Z * Z)) (x0 v : Z) :
  x0 ∈ vis → v ∉ vis → rtc (link es) x0 v →
  ∃ a b f es', a ∈ vis ∧ b ∉ vis ∧ (f = (a, b) ∨ f = (b, a)) ∧ es ≡ₚ f :: es' ∧
    ∀ x y, x ∈ vis → rtc (link es) x y →
      ∃ x', x' ∈ vis ∪ {[v]} ∧ rtc (link es') x' y.
Proof.
  intros Hx0 Hv Hwalk.
  (* the last edge of the walk that leaves [vis] *)
  assert (∃ a b, a ∈ vis ∧ b ∉ vis ∧ link es a b ∧
            rtc (λ p q, link es p q ∧ p ∉ vis ∧ q ∉ vis) b v) as (a & b & Ha & Hb & Hab & Hout).
  { revert v Hwalk Hv.
    refine (rtc_ind_r (λ z, z ∉ vis → ∃ a b, a ∈ vis ∧ b ∉ vis ∧ link es a b ∧
              rtc (λ p q, link es p q ∧ p ∉ vis ∧ q ∉ vis) b z) x0 _ _); [done|].
    intros y z Hxy Hyz IH Hz. destruct (decide (y ∈ vis)) as [Hy|Hy].
    - exists y, z. done.
    - destruct (IH Hy) as (a & b & ? & ? & ? & Hout). exists a, b.
      split; [done|]. split; [done|]. split; [done|].
      eapply rtc_r; [done|]. done. }
  assert (∃ f, (f = (a, b) ∨ f = (b, a)) ∧ f ∈ es) as (f & Hf & Hfin).
  { destruct Hab as [?|?]; eauto. }
  apply elem_of_Permutation in Hfin as (es' & Hes').
  exists a, b, f, es'. split; [done|]. split; [done|]. split; [done|]. split; [done|].
  assert (∀ p q, link es p q → link es' p q ∨ (p = a ∧ q = b) ∨ (p = b ∧ q = a)) as Hsplit.
  { intros p q [Hpq|Hpq]; rewrite Hes' in Hpq;
      apply elem_of_cons in Hpq as [Hpq|Hpq]; unfold link;
      destruct Hf as [-> | ->]; simplify_eq; auto. }
  assert (rtc (link es') v b) as Hvb.
  { apply rtc_link_sym. eapply rtc_subrel; [|exact Hout].
    intros p q (Hpq & Hp & Hq). simpl.
    destruct (Hsplit p q Hpq) as [?|[[-> ->]|[-> ->]]]; done. }
  intros x y Hx. revert y.
  refine (rtc_ind_r (λ y, ∃ x', x' ∈ vis ∪ {[v]} ∧ rtc (link es') x' y) x _ _).
  - exists x. split; [set_solver|done].
  - intros y z _ Hyz (x' & Hx' & IH).
    destruct (Hsplit y z Hyz) as [Hl|[[-> ->]|[-> ->]]].
    + exists x'. split; [done|]. by eapply rtc_r.
    + exists v. split; [set_solver|done].
    + exists a. split; [set_solver|done].
Qed.

Lemma prim_steps_minimum (self : TSPSolver) (mst : list (Z * Z)) :
  symmetric self →
  ∀ (vis : gset Z) (es : list (Z * Z)),
    prim_steps self vis mst →
    (∀ y, 0 ≤ y < Z.of_nat (n self) → ∃ x, x ∈ vis ∧ rtc (link es) x y) →
    (∀ x, x ∈ vis → 0 ≤ x < Z.of_nat (n self)) →
    Forall (λ x, 0 ≤ x < Z.of_nat (n self)) (endpoints es) →
    length es = length mst →
    weight self mst ≤ weight self es.
Proof.
  intros Hsym. induction mst as [|[u v] mst IH]; intros vis es Hp Hconn Hvis Hends Hlen.
  { destruct es; [done|simpl in Hlen; lia]. }
  destruct Hp as (Hu & Hv & Hvr & Hcut & Hp).
  destruct (Hconn v Hvr) as (x0 & Hx0 & Hwalk).
  destruct (exchange vis es x0 v Hx0 Hv Hwalk)
    as (a & b & f & es' & Ha & Hb & Hf & Hes & Hconn').
  assert (f ∈ es) as Hfin by (rewrite Hes; by left).
  assert (0 ≤ a < Z.of_nat (n self) ∧ 0 ≤ b < Z.of_nat (n self)) as [Har Hbr].
  { destruct Hf as [-> | ->]; apply endpoints_elem in Hfin as [H1 H2];
      split; first [apply (Forall_elem _ _ _ Hends H1)|apply (Forall_elem _ _ _ Hends H2)]. }
  assert (edge self f.1 f.2 = edge self a b) as Hwf.
  { destruct Hf as [-> | ->]; simpl; [done|]. by apply edge_symmetric. }
  rewrite (weight_perm self es _ Hes), !weight_cons. simpl. rewrite Hwf.
  pose proof (Hcut a b Ha Hb Hbr).
  assert (weight self mst ≤ weight self es'); [|lia].
  apply (IH (vis ∪ {[v]})); [done| | | |].
  - intros y Hy. destruct (Hconn y Hy) as (x & Hx & Hxy). by apply (Hconn' x).
  - intros x [?| ->%elem_of_singleton]%elem_of_union; auto.
  - apply endpoints_perm in Hes. rewrite Hes in Hends.
    change (endpoints (f :: es')) with (f.1 :: f.2 :: endpoints es') in Hends.
    by apply Forall_cons in Hends as [_ [_ ?]%Forall_cons].
  - apply Permutation_length in Hes. simpl in *. lia.
Qed.

Lemma grows_connected (self : TSPSolver) (vis : gset Z) (mst : list (Z * Z)) :
  grows self vis mst →
  ∀ y, y ∈ reached vis mst → ∃ x, x ∈ vis ∧ rtc (link mst) x y.
Proof.
  revert vis. induction mst as [|[u v] mst IH]; intros vis Hg y Hy.
  - unfold reached in Hy. simpl in Hy. exists y. split; [set_solver|done].
  - destruct Hg as (Hu & Hv & Hr & Hg). rewrite reached_cons in Hy.
    destruct (IH _ Hg y Hy) as (x & Hx & Hxy).
    assert (rtc (link ((u, v) :: mst)) x y) as Hxy'.
    { eapply rtc_subrel; [|exact Hxy]. intros p q [?|?]; [left|right]; by right. }
    apply elem_of_union in Hx as [Hx| ->%elem_of_singleton]; [by exists x|].
    exists u. split; [done|]. eapply rtc_l; [|done]. left. by left.
Qed.

Lemma compute_mst_least (self : TSPSolver) :
  valid self → symmetric self →
  ∃ mst, compute_mst self = Ret mst ∧ spanning_tree self mst ∧
    ∀ es, spanning_tree self es → weight self mst ≤ weight self es.
Proof.
  intros Hv Hsym.
  destruct (compute_mst_tree self Hv) as (mst & Hmst & Hlen & Hp & Hr).
  pose proof (valid_inv self Hv) as (_ & _ & Hn & _).
  pose proof (prim_steps_grows self _ _ Hp) as Hg.
  exists mst. split; [done|]. split.
  - split; [done|]. split.
    + apply Forall_forall. intros x Hx. unfold endpoints in Hx.
      apply list_elem_of_bind in Hx as ([a b] & Hx & Hin). simpl in Hx.
      destruct (spanning_edge self Hv mst a b) as (? & ? & _); [by split|done|].
      set_solver.
    + intros y Hy. destruct (grows_connected self _ _ Hg y) as (x & Hx & Hxy).
      * by apply Hr.
      * by apply elem_of_singleton in Hx as ->.
  - intros es (Hlen' & Hends & Hconn).
    apply (prim_steps_minimum self mst Hsym {[ 0 ]} es); [done| | |done|lia].
    + intros y Hy. exists 0. split; [set_solver|by apply Hconn].
    + intros x ->%elem_of_singleton. lia.
Qed.

(** X14: on a symmetric matrix the tree of [compute_mst] is a minimum
    spanning tree: it is a spanning tree, and no spanning tree weighs
    less. *)
Theorem compute_mst_minimum (self : TSPSolver) :
  valid self → symmetric self →
  ∃ mst, compute_mst self = Ret mst ∧ spanning_tree self mst ∧
    ∀ es, spanning_tree self es → weight self mst ≤ weight self es.
Proof. apply compute_mst_least. Qed.

(** *** The Eulerian circuit *)

(** Whether the step from [a] to [b] is a step between [u] and [v], in
    either direction. *)
Definition hit (a b u v : Z) : nat :=
  if decide ((a = u ∧ b = v) ∨ (a = v ∧ b = u)) then 1 else 0.

Lemma hit_sym (a b u v : Z) : hit a b u v = hit a b v u.
Proof. unfold hit. repeat case_decide; try done; exfalso; tauto. Qed.

Lemma hit_True (a b : Z) : hit a b a b = 1%nat.
Proof. unfold hit. rewrite decide_True; [done|by left]. Qed.

Lemma hit_False (a b u v : Z) :
  ¬ ((a = u ∧ b = v) ∨ (a = v ∧ b = u)) → hit a b u v = 0%nat.
Proof. intros H. unfold hit. by rewrite decide_False. Qed.

(** How often a walk steps between [u] and [v], in either direction. *)
Fixpoint steps (w : list Z) (u v : Z) : nat :=
  match w with
  | a :: w' =>
      match w' with
      | b :: _ => (hit a b u v + steps w' u v)%nat
      | [] => 0%nat
      end
  | [] => 0%nat
  end.

Lemma steps_cons2 (a b : Z) (w : list Z) (u v : Z) :
  steps (a :: b :: w) u v = (hit a b u v + steps (b :: w) u v)%nat.
Proof. done. Qed.

Lemma steps_snoc (w : list Z) (a b u v : Z) :
  steps ((w ++ [a]) ++ [b]) u v = (steps (w ++ [a]) u v + hit a b u v)%nat.
Proof.
  induction w as [|x w IH]; [simpl; lia|].
  destruct (w ++ [a]) as [|y q] eqn:E; [by destruct w|].
  simpl app in *. rewrite E. simpl app. rewrite !steps_cons2, IH. lia.
Qed.

Arguments steps : simpl never.

(** The number of entries of the list of a city has the parity of its
    degree. *)
Definition odd_degree (g : gmap Z (list Z)) (x : Z) : bool :=
  Nat.odd (length (adj g x)).

Section Hierholzer.

Context (self : TSPSolver) (Hvalid : valid self).

(** Taking the edge from [curr] to the last city [nv] of its list out of the
    graph. *)
Lemma euler_push (g : gmap Z (list Z)) (curr nv : Z) (l' : list Z) :
  multigraph self g → 0 ≤ curr < Z.of_nat (n self) →
  g !! curr = Some (l' ++ [nv]) →
  ∃ ln', nv ≠ curr ∧ 0 ≤ nv < Z.of_nat (n self) ∧
    dict_get (<[curr := l']> g) nv = Ret (adj g nv) ∧
    list_remove curr (adj g nv) = Ret ln' ∧
    multigraph self (<[nv := ln']> (<[curr := l']> g)) ∧
    (∀ a b, (mult (<[nv := ln']> (<[curr := l']> g)) a b + hit curr nv a b
             = mult g a b)%nat) ∧
    (∀ x, odd_degree (<[nv := ln']> (<[curr := l']> g)) x =
          if decide (x = curr ∨ x = nv) then negb (odd_degree g x) else odd_degree g x) ∧
    (total (<[nv := ln']> (<[curr := l']> g)) + 2 = total g)%nat ∧
    (∀ x y, y ∈ adj (<[nv := ln']> (<[curr := l']> g)) x → y ∈ adj g x).
Proof.
  intros (Hdom & Hran & Hsym & Hloop) Hc Hl.
  assert (adj g curr = l' ++ [nv]) as Hadjc by (unfold adj; by rewrite Hl).
  assert (nv ∈ adj g curr) as Hnv by (rewrite Hadjc; set_solver).
  assert (nv ≠ curr) as Hne by (intros ->; by apply (Hloop curr)).
  assert (0 ≤ nv < Z.of_nat (n self)) as Hnr by by eapply Hran.
  destruct (Hdom nv Hnr) as [ln Hln].
  assert (adj g nv = ln) as Hadjn by (unfold adj; by rewrite Hln).
  subst ln.
  assert (curr ∈ adj g nv) as Hcn.
  { apply mult_elem. rewrite Hsym. by apply mult_elem. }
  destruct (list_remove_spec curr (adj g nv) Hcn) as (ln' & Hrem & Hperm).
  exists ln'. split; [done|]. split; [done|].
  split; [apply dict_get_Some; by rewrite lookup_insert_ne|]. split; [done|].
  set (g2 := <[nv:=ln']> (<[curr:=l']> g)).
  assert (adj g2 nv = ln') as Hadj_nv.
  { unfold g2. rewrite adj_insert. by rewrite decide_True. }
  assert (adj g2 curr = l') as Hadj_curr.
  { unfold g2. rewrite !adj_insert. rewrite decide_False by done. by rewrite decide_True. }
  assert (∀ x, x ≠ nv → x ≠ curr → adj g2 x = adj g x) as Hadj_other.
  { intros x ? ?. unfold g2. rewrite !adj_insert. by rewrite !decide_False by done. }
  assert (∀ x y, y ∈ adj g2 x → y ∈ adj g x) as Hsub.
  { intros x y. destruct (decide (x = nv)) as [->|Hxn]; [|destruct (decide (x = curr)) as [->|Hxc]].
    - rewrite Hadj_nv, Hperm. set_solver.
    - rewrite Hadj_curr, Hadjc. set_solver.
    - by rewrite Hadj_other. }
  assert (∀ a b, (mult g2 a b + hit curr nv a b = mult g a b)%nat) as Hmult.
  { intros a b. unfold mult.
    destruct (decide (a = nv)) as [->|Han]; [|destruct (decide (a = curr)) as [->|Hac]].
    - rewrite Hadj_nv, Hperm, filter_cons.
      destruct (decide (curr = b)) as [<-|Hcb].
      + rewrite hit_sym, hit_True. simpl. lia.
      + rewrite hit_False by (intros [[? ?]|[? ?]]; congruence). lia.
    - rewrite Hadj_curr, Hadjc, filter_eq_snoc.
      destruct (decide (nv = b)) as [<-|Hnb].
      + rewrite hit_True. lia.
      + rewrite hit_False by (intros [[? ?]|[? ?]]; congruence). lia.
    - rewrite Hadj_other by done.
      rewrite hit_False by (intros [[? ?]|[? ?]]; congruence). lia. }
  split; [|split; [done|split; [|split; [|done]]]].
  - split; [|split; [|split]].
    + intros i Hi. unfold g2. rewrite !lookup_insert. repeat case_decide; eauto.
    + intros u x Hx. apply Hsub in Hx. by eapply Hran.
    + intros a b. pose proof (Hmult a b). pose proof (Hmult b a). pose proof (Hsym a b).
      pose proof (hit_sym curr nv a b). lia.
    + intros u Hu. apply Hsub in Hu. by apply (Hloop u).
  - intros x. unfold odd_degree.
    assert (length (adj g nv) = S (length ln')) as Hlen by by rewrite Hperm.
    assert (length (adj g curr) = S (length l')) as Hlen'.
    { rewrite Hadjc, length_app. simpl. lia. }
    destruct (decide (x = nv)) as [->|Hxn]; [|destruct (decide (x = curr)) as [->|Hxc]].
    + rewrite decide_True by (by right).
      rewrite Hadj_nv, Hlen, Nat.odd_succ, <- Nat.negb_odd. by rewrite negb_involutive.
    + rewrite decide_True by (by left).
      rewrite Hadj_curr, Hlen', Nat.odd_succ, <- Nat.negb_odd. by rewrite negb_involutive.
    + rewrite decide_False by (intros [?|?]; congruence). by rewrite Hadj_other.
  - pose proof (total_insert g curr (l' ++ [nv]) l' Hl) as Ht1.
    pose proof (total_insert (<[curr:=l']> g) nv (adj g nv) ln') as Ht2.
    rewrite lookup_insert_ne in Ht2 by done. specialize (Ht2 Hln).
    fold g2 in Ht2. rewrite length_app in Ht1. simpl in *.
    assert (length (adj g nv) = S (length ln')) as Hlen by by rewrite Hperm.
    lia.
Qed.

(** What the loop has reached when the stack is empty: the circuit begins
    and ends in city 0, and between a city of the circuit and any city it
    steps as often as the graph has edges between them. *)
Definition eulerian (g0 : gmap Z (list Z)) (c : list Z) : Prop :=
  head c = Some 0 ∧ last c = Some 0 ∧
  ∀ u v, u ∈ c → steps c u v = mult g0 u v.

(** The invariant of the loop on a graph with even degrees.  The edges that
    have left the graph are those of the path on the stack, those of the
    circuit, and the edge from the [anchor] to the city that was popped last;
    the degrees that are left are even but at the top of the stack and at the
    anchor, where they are odd unless the two are one city. *)
Definition trail_inv (g0 : gmap Z (list Z)) (curr_path circuit : list Z)
    (g : gmap Z (list Z)) : Prop :=
  match curr_path with
  | [] => eulerian g0 (reverse circuit)
  | top :: _ =>
      ∃ anchor,
        multigraph self g ∧
        (∀ x, x ∈ curr_path → 0 ≤ x < Z.of_nat (n self)) ∧
        (∀ c, c ∈ circuit → adj g c = []) ∧
        (∀ u v,
           mult g0 u v = (mult g u v + steps (reverse curr_path) u v +
                          steps (anchor :: reverse circuit) u v)%nat) ∧
        (∀ x, odd_degree g x =
              if decide (top = anchor) then false
              else bool_decide (x = top ∨ x = anchor)) ∧
        last curr_path = Some 0 ∧ head (circuit ++ [anchor]) = Some 0
  end.

Lemma euler_loop_trail g0 fuel curr_path circuit g :
  trail_inv g0 curr_path circuit g →
  (total g + length curr_path ≤ fuel)%nat →
  ∃ circuit', euler_loop fuel curr_path circuit g = Ret circuit' ∧
    eulerian g0 (reverse circuit').
Proof.
  revert curr_path circuit g.
  induction fuel as [|fuel IH]; intros curr_path circuit g Hinv Hfuel.
  { destruct curr_path; [|simpl in Hfuel; lia]. by exists circuit. }
  destruct curr_path as [|curr rest]; [by exists circuit|].
  destruct Hinv as (anchor & Hg & Hr & Hempty & Hacc & Hpar & Hlast & Hhead).
  assert (0 ≤ curr < Z.of_nat (n self)) as Hc by (apply Hr; by left).
  pose proof Hg as (Hdom & Hran & Hsym & Hloop).
  destruct (Hdom curr Hc) as [l Hl].
  assert (adj g curr = l) as Hadjc by (unfold adj; by rewrite Hl).
  cbn [euler_loop]. rewrite (dict_get_Some g curr l Hl). simpl.
  destruct (list_pop l) as [[nv l']|] eqn:Hpop.
  - (* an edge is left at [curr]: follow it *)
    apply list_pop_Some in Hpop. rewrite Hpop in Hl, Hadjc. clear Hpop l.
    destruct (euler_push g curr nv l' Hg Hc Hl)
      as (ln' & Hne & Hnr & Hdg & Hrem & Hg2 & Hmult & Hodd & Htot & Hsub).
    rewrite Hdg. simpl. rewrite Hrem. simpl.
    apply IH; [|simpl in *; lia].
    exists anchor. split; [done|]. split; [|split; [|split; [|split; [|split]]]].
    + intros x [->|Hx]%elem_of_cons; [done|]. by apply Hr.
    + intros c Hcirc. pose proof (Hempty c Hcirc) as He.
      destruct (adj (<[nv:=ln']> (<[curr:=l']> g)) c) as [|y q] eqn:E; [done|].
      assert (y ∈ adj g c) as Hy by (apply Hsub; rewrite E; by left).
      rewrite He in Hy. by apply elem_of_nil in Hy.
    + intros u v. rewrite (Hacc u v).
      pose proof (Hmult u v) as Hm.
      rewrite (reverse_cons (curr :: rest)), reverse_cons, steps_snoc.
      rewrite <- reverse_cons. lia.
    + intros x. rewrite Hodd, Hpar.
      destruct (decide (x = curr)) as [Hxc|Hxc], (decide (x = nv)) as [Hxn|Hxn],
        (decide (curr = anchor)) as [Hca|Hca], (decide (nv = anchor)) as [Hna|Hna],
        (decide (x = anchor)) as [Hxa|Hxa]; try congruence;
        repeat first
          [ rewrite decide_True by (intuition congruence)
          | rewrite decide_False by (intuition congruence)
          | rewrite bool_decide_eq_true_2 by (intuition congruence)
          | rewrite bool_decide_eq_false_2 by (intuition congruence) ];
        done.
    + by rewrite last_cons, Hlast.
    + done.
  - (* no edge is left at [curr]: it goes to the circuit *)
    apply list_pop_None in Hpop. rewrite Hpop in Hl, Hadjc. clear Hpop l.
    assert (curr = anchor) as <-.
    { pose proof (Hpar curr) as Hpc. unfold odd_degree in Hpc. rewrite Hadjc in Hpc.
      simpl in Hpc. destruct (decide (curr = anchor)) as [?|Hca]; [done|].
      rewrite bool_decide_eq_true_2 in Hpc by (by left). done. }
    apply IH; [|simpl in *; lia].
    destruct rest as [|below rest].
    + (* the stack is empty: the circuit is complete *)
      simpl. rewrite reverse_app. simpl.
      split; [|split].
      * simpl in Hlast. by injection Hlast as ->.
      * rewrite last_cons. destruct (last (reverse circuit)) eqn:E.
        -- rewrite last_reverse in E. destruct circuit; simpl in *; congruence.
        -- simpl in Hlast. done.
      * intros u v Hu. rewrite (Hacc u v).
        assert (mult g u v = 0%nat) as ->.
        { unfold mult.
          assert (adj g u = []) as ->; [|done].
          apply elem_of_cons in Hu as [->|Hu]; [done|].
          apply Hempty. by apply elem_of_reverse. }
        done.
    + exists below. split; [done|]. split; [|split; [|split; [|split; [|split]]]].
      * intros x Hx. apply Hr. by right.
      * intros c [Hcirc| ->%list_elem_of_singleton]%elem_of_app; [by apply Hempty|done].
      * intros u v. rewrite (Hacc u v).
        rewrite (reverse_cons (below :: rest)), reverse_cons, steps_snoc.
        rewrite <- reverse_cons, reverse_app. simpl reverse. simpl app.
        rewrite (steps_cons2 below curr). lia.
      * intros x. rewrite Hpar. rewrite !decide_True by done. done.
      * by rewrite last_cons_cons in Hlast.
      * destruct circuit; simpl in *; done.
Qed.

Lemma find_eulerian_circuit_trail g :
  multigraph self g → (∀ x, odd_degree g x = false) →
  ∃ circuit, find_eulerian_circuit g = Ret circuit ∧ eulerian g circuit.
Proof.
  intros Hg Heven. unfold find_eulerian_circuit. fold (total g).
  pose proof (valid_inv self Hvalid) as (_ & _ & Hn & _).
  destruct (euler_loop_trail g (S (total g)) [0] [] g) as (c & -> & Hc).
  - exists 0. split; [done|]. split; [|split; [|split; [|split; [|done]]]].
    + intros x ->%list_elem_of_singleton. lia.
    + by intros c ?%elem_of_nil.
    + intros u v. simpl. unfold steps. simpl. lia.
    + intros x. rewrite Heven. by rewrite decide_True.
  - simpl. lia.
  - simpl. eauto.
Qed.

End Hierholzer.

Lemma find_eulerian_circuit_walk (self : TSPSolver) (g : gmap Z (list Z)) :
  valid self → multigraph self g →
  (∀ x, Nat.Even (length (adj g x))) →
  ∃ circuit, find_eulerian_circuit g = Ret circuit ∧
    head circuit = Some 0 ∧ last circuit = Some 0 ∧
    (∀ u v, u ∈ circuit → steps circuit u v = mult g u v) ∧
    (∀ u v, v ∈ adj g u → u ∈ circuit → v ∈ circuit).
Proof.
  intros Hv Hg Heven.
  destruct (find_eulerian_circuit_trail self Hv g Hg) as (c & Hc & Hh & Hl & Hsteps).
  { intros x. unfold odd_degree. rewrite <- Nat.negb_even.
    apply negb_false_iff, Nat.even_spec, Heven. }
  destruct (find_eulerian_circuit_spec self Hv g Hg) as (c' & Hc' & _ & _ & Hcl).
  rewrite Hc in Hc'. injection Hc' as <-.
  exists c. done.
Qed.

(** X15: on a multigraph in which every city has an even number of edges,
    [find_eulerian_circuit] (Hierholzer's algorithm) returns a closed walk
    from city 0 to city 0 that walks every edge at the cities it visits
    exactly once; it visits every city that an edge joins to a city of the
    walk. *)
Theorem find_eulerian_circuit_eulerian (self : TSPSolver) (g : gmap Z (list Z)) :
  valid self → multigraph self g →
  (∀ x, Nat.Even (length (adj g x))) →
  ∃ circuit, find_eulerian_circuit g = Ret circuit ∧
    head circuit = Some 0 ∧ last circuit = Some 0 ∧
    (∀ u v, u ∈ circuit → steps circuit u v = mult g u v) ∧
    (∀ u v, v ∈ adj g u → u ∈ circuit → v ∈ circuit).
Proof. apply find_eulerian_circuit_walk. Qed.

(** *** The pipeline *)

Lemma endpoints_app (es1 es2 : list (Z * Z)) :
  endpoints (es1 ++ es2) = endpoints es1 ++ endpoints es2.
Proof. unfold endpoints. apply bind_app. Qed.

Lemma degree_of_app (self : TSPSolver) (es1 es2 : list (Z * Z)) (u : Z) :
  degree_of self (es1 ++ es2) u = (degree_of self es1 u + degree_of self es2 u)%nat.
Proof. unfold degree_of. by rewrite endpoints_app, filter_app, length_app. Qed.

Lemma neighbours_length (self : TSPSolver) (es : list (Z * Z)) (u : Z) :
  Forall (λ x, 0 ≤ x < Z.of_nat (n self)) (endpoints es) →
  length (neighbours es u) = degree_of self es u.
Proof.
  induction es as [|[a b] es IH]; intros Hes; [done|].
  change (endpoints ((a, b) :: es)) with (a :: b :: endpoints es) in Hes.
  apply Forall_cons in Hes as [Ha [Hb Hes]%Forall_cons].
  rewrite degree_of_cons, <- (IH Hes).
  change (neighbours ((a, b) :: es) u)
    with (((if decide (a = u) then [b] else []) ++
           (if decide (b = u) then [a] else [])) ++ neighbours es u).
  rewrite !length_app, !city_id by done.
  repeat case_decide; simpl; lia.
Qed.

Lemma NoDup_count (l : list Z) (u : Z) :
  NoDup l → length (filter (λ y, y = u) l) = if decide (u ∈ l) then 1%nat else 0%nat.
Proof.
  induction 1 as [|x l Hx Hnd IH]; [done|].
  rewrite filter_cons.
  destruct (decide (x = u)) as [->|Hne]; simpl; rewrite IH.
  - rewrite decide_False by done. rewrite decide_True by (by left). done.
  - destruct (decide (u ∈ l)) as [Hu|Hu].
    + rewrite decide_True by (by right). done.
    + rewrite decide_False; [done|]. intros [?|?]%elem_of_cons; congruence.
Qed.

Lemma degree_of_matching (self : TSPSolver) (m : list (Z * Z)) (odd : list Z) (u : Z) :
  endpoints m ≡ₚ odd → NoDup odd → Forall (λ x, 0 ≤ x < Z.of_nat (n self)) odd →
  degree_of self m u = if decide (u ∈ odd) then 1%nat else 0%nat.
Proof.
  intros Hp Hnd Hall. unfold degree_of. rewrite Hp.
  rewrite (filter_ext_in (λ x, city self x = u) (λ y, y = u)).
  - by apply NoDup_count.
  - intros x Hx. rewrite city_id; [done|]. apply (Forall_elem _ _ _ Hall Hx).
Qed.

(** The run of [christofides], step by step, with what every step
    establishes. *)
Lemma christofides_trace (set_order : list Z → list Z) (self : TSPSolver) :
  (∀ l, set_order l ≡ₚ l) → valid self →
  ∃ mst odd_vertices matching g circuit r,
    compute_mst self = Ret mst ∧
    find_odd_degree_vertices self mst = Ret odd_vertices ∧
    min_weight_matching set_order self odd_vertices = Ret matching ∧
    combine_mst_matching self mst matching = Ret g ∧
    find_eulerian_circuit g = Ret circuit ∧
    christofides set_order self = Ret r ∧
    tour r = make_hamiltonian circuit ∧
    well_formed self r ∧
    proper_edges self mst ∧ proper_edges self matching ∧
    (∀ u, g !! u = if decide (0 ≤ u < Z.of_nat (n self))
                   then Some (neighbours (mst ++ matching) u) else None) ∧
    endpoints matching ≡ₚ odd_vertices ∧
    (∀ x, Nat.Even (length (adj g x))) ∧
    head circuit = Some 0 ∧ last circuit = Some 0 ∧
    (∀ u v, u ∈ circuit → steps circuit u v = mult g u v) ∧
    (∀ x, x ∈ circuit ↔ 0 ≤ x < Z.of_nat (n self)).
Proof.
  intros Hperm Hv.
  pose proof (valid_inv self Hv) as (_ & _ & Hn & _).
  (* the tree *)
  destruct (compute_mst_tree self Hv) as (mst & Hmst & _ & Hprim & Hreach).
  assert (spanning self mst) as Hsp.
  { split; [by apply prim_steps_grows|done]. }
  assert (proper_edges self mst) as Hproper.
  { intros u v Hin. by eapply spanning_edge. }
  assert (Forall (λ x, 0 ≤ x < Z.of_nat (n self)) (endpoints mst)) as Hends.
  { apply Forall_forall. intros x Hx. unfold endpoints in Hx.
    apply list_elem_of_bind in Hx as ([a b] & Hx & Hin). simpl in Hx.
    destruct (Hproper a b Hin) as (? & ? & _). set_solver. }
  (* the odd vertices *)
  destruct (find_odd_degree_vertices_filter self mst Hv) as [Hodd _].
  destruct Hodd as (Hodd & k & Hk).
  { eapply Forall_impl; [exact Hends|]. unfold in_bounds. simpl. lia. }
  set (odd := filter (λ i, Z.of_nat (degree_of self mst i) `mod` 2 = 1)
                (range 0 (Z.of_nat (n self)))) in *.
  assert (NoDup odd) as Hnd by apply NoDup_filter, NoDup_range.
  assert (Forall (λ x, 0 ≤ x < Z.of_nat (n self)) odd) as Hoddr.
  { apply Forall_forall. intros x [_ Hx%elem_of_range]%list_elem_of_filter. lia. }
  assert (remove_dups odd ≡ₚ odd) as Hrd.
  { apply NoDup_Permutation; [apply NoDup_remove_dups|done|].
    intros x. apply elem_of_remove_dups. }
  (* the matching *)
  destruct (min_weight_matching_cases set_order self odd Hperm Hv Hoddr) as [Hmat _].
  destruct (Hmat k) as (matching & Hmatching & _ & Hem & _).
  { by rewrite Hrd. }
  rewrite Hrd in Hem.
  destruct (min_weight_matching_spec set_order Hperm self Hv odd k Hnd Hoddr Hk)
    as (matching' & Hmatching' & Hmproper).
  rewrite Hmatching in Hmatching'. injection Hmatching' as <-.
  (* the multigraph *)
  destruct (combine_mst_matching_spec self Hv mst matching Hproper Hmproper)
    as (g & Hg & Hmulti & Hedges).
  destruct (combine_mst_matching_neighbours self mst matching) as [Hadj _].
  destruct Hadj as (g' & Hg' & Hadj).
  { rewrite endpoints_app. apply Forall_app. split; [done|]. by rewrite Hem. }
  rewrite Hg in Hg'. injection Hg' as <-.
  assert (∀ x, Nat.Even (length (adj g x))) as Heven.
  { intros x. unfold adj. rewrite Hadj. case_decide as Hx; [|by exists 0%nat].
    simpl. rewrite (neighbours_length self).
    2:{ rewrite endpoints_app. apply Forall_app. split; [done|]. by rewrite Hem. }
    rewrite degree_of_app, (degree_of_matching self matching odd x Hem Hnd Hoddr).
    apply Nat.even_spec. rewrite Nat.even_add.
    destruct (decide (x ∈ odd)) as [Hin|Hin].
    - apply list_elem_of_filter in Hin as [Hin _].
      assert (Nat.even (degree_of self mst x) = false) as ->; [|done].
      rewrite <- Nat.negb_odd. apply negb_false_iff, Nat.odd_spec.
      exists (degree_of self mst x / 2)%nat.
      pose proof (Nat.div_mod_eq (degree_of self mst x) 2).
      assert (degree_of self mst x mod 2 = 1)%nat; [|lia].
      apply Nat2Z.inj. by rewrite Nat2Z.inj_mod.
    - assert (Nat.even (degree_of self mst x) = true) as ->; [|done].
      apply Nat.even_spec. exists (degree_of self mst x / 2)%nat.
      pose proof (Nat.div_mod_eq (degree_of self mst x) 2).
      assert (degree_of self mst x mod 2 = 0)%nat; [|lia].
      assert (Z.of_nat (degree_of self mst x) `mod` 2 ≠ 1) as Hne.
      { intros Hm. apply Hin. apply list_elem_of_filter. split; [done|].
        by apply elem_of_range. }
      apply Nat2Z.inj. rewrite Nat2Z.inj_mod. simpl.
      pose proof (Z.mod_pos_bound (Z.of_nat (degree_of self mst x)) 2). lia. }
  (* the circuit *)
  destruct (find_eulerian_circuit_walk self g Hv Hmulti Heven)
    as (circuit & Hcirc & Hhead & Hlast & Hsteps & Hclosed).
  destruct (find_eulerian_circuit_spec self Hv g Hmulti)
    as (circuit' & Hcirc' & Hcr & _).
  rewrite Hcirc in Hcirc'. injection Hcirc' as <-.
  assert (∀ x, 0 ≤ x < Z.of_nat (n self) → x ∈ circuit) as Hall.
  { intros x Hx. destruct Hsp as [Hgrow Hr].
    apply (grows_closed self (λ y, y ∈ circuit) {[ 0 ]} mst); auto.
    - intros y ->%elem_of_singleton. by apply head_Some_elem_of.
    - intros u v Hin Hu. apply (Hclosed u); [by apply Hedges|done].
    - by apply Hr. }
  (* the result *)
  destruct (christofides_Ret set_order Hperm self Hv) as (r & Hr & Hwf & _).
  exists mst, odd, matching, g, circuit, r.
  assert (tour r = make_hamiltonian circuit) as Htour.
  { unfold christofides in Hr. rewrite Hmst in Hr. simpl in Hr.
    rewrite Hodd in Hr. simpl in Hr. rewrite Hmatching in Hr. simpl in Hr.
    rewrite Hg in Hr. simpl in Hr. rewrite Hcirc in Hr. simpl in Hr.
    apply bind_Ret in Hr as (c & _ & Hr). by injection Hr as <-. }
  split_and!; try done.
  intros x. split; [apply Hcr|apply Hall].
Qed.

(** X16: the invariants of the pipeline of [christofides].  Every step
    returns; the matching pairs up exactly the cities of odd degree in the
    tree, so that every city has an even number of edges in the multigraph;
    the circuit is a closed walk from city 0 that walks every edge of the
    multigraph exactly once; the tour is the circuit without its repeated
    cities, and starts at city 0. *)
Theorem christofides_pipeline (set_order : list Z → list Z) (self : TSPSolver) :
  (∀ l, set_order l ≡ₚ l) → valid self →
  ∃ mst odd_vertices matching g circuit r,
    compute_mst self = Ret mst ∧
    find_odd_degree_vertices self mst = Ret odd_vertices ∧
    min_weight_matching set_order self odd_vertices = Ret matching ∧
    combine_mst_matching self mst matching = Ret g ∧
    find_eulerian_circuit g = Ret circuit ∧
    christofides set_order self = Ret r ∧
    tour r = make_hamiltonian circuit ∧
    endpoints matching ≡ₚ odd_vertices ∧
    (∀ x, Nat.Even (length (adj g x))) ∧
    head circuit = Some 0 ∧ last circuit = Some 0 ∧
    (∀ u v, 0 ≤ u < Z.of_nat (n self) → steps circuit u v = mult g u v) ∧
    head (tour r) = Some 0.
Proof.
  intros Hperm Hv.
  destruct (christofides_trace set_order self Hperm Hv)
    as (mst & odd & matching & g & circuit & r & Hmst & Hodd & Hmat & Hg & Hcirc & Hr &
        Htour & _ & _ & _ & _ & Hem & Heven & Hhead & Hlast & Hsteps & Hall).
  exists mst, odd, matching, g, circuit, r. split_and!; try done.
  - intros u v Hu. apply Hsteps. by apply Hall.
  - by rewrite Htour, make_hamiltonian_head.
Qed.

(** ** The exact solver: the table and the tour *)

(** X17: on a matrix of dtype int64 the table that [held_karp] fills holds,
    for every set of cities [s] without city 0 and every city [e] of [s],
    the cost of a path that
    starts in city 0, visits the cities of [s] once each and ends in [e], as
    64 bits hold the sum; on a matrix whose entries are so small that no sum
    of [n] of them overflows, it is the cost of a cheapest such path.  The
    entry for city 0 alone is 0. *)
Theorem hk_table_optimal_paths (self : TSPSolver) :
  valid self → dtype_int64 (distance_matrix self) →
  ∃ dp, hk_table self = Ret dp ∧
    dp !! (1, 0) = Some (Fin 0, -1) ∧
    ∀ s e, subset_ok self s → e ∈ s →
      ∃ c prev q,
        dp !! (bits (0 :: s), e) = Some (Fin c, prev) ∧
        zero_path s e q ∧ c = int64 (path_cost self q) ∧
        (no_overflow self →
           c = path_cost self q ∧ ∀ q', zero_path s e q' → c ≤ path_cost self q').
Proof.
  intros Hv _. destruct (hk_table_good self Hv) as (dp & Hdp & Hinv).
  exists dp. split; [done|]. split; [apply Hinv|].
  intros s e Hs He.
  destruct (hk_walk_spec self dp (length s) s e Hinv Hs He (le_n _))
    as (q & c & prev & Hlk & Hq & Hc & _).
  exists c, prev, q. split; [done|]. split; [done|]. split; [done|].
  intros Hno. split; [by rewrite <- Hc, (zero_path_exact self Hv s e q)|].
  destruct (proj2 Hinv s e Hs He I) as (c' & prev' & Hlk' & _ & Hlow & _).
  rewrite Hlk in Hlk'. injection Hlk' as <- <-. by apply Hlow.
Qed.

Lemma held_karp_tour (self : TSPSolver) :
  valid self → (n self ≤ 20)%nat →
  ∃ r q', held_karp self = Ret r ∧ tour r = 0 :: q'.
Proof.
  intros Hvalid Hcap. unfold held_karp. rewrite bool_decide_eq_false_2 by lia.
  destruct (hk_table_good self Hvalid) as (dp & -> & Hinv). simpl.
  pose proof (valid_inv self Hvalid) as (_ & _ & Hn & _).
  set (S := range 1 (Z.of_nat (n self))).
  pose proof (subset_ok_all self) as HS. fold S in HS.
  rewrite <- bits_range. fold (cities self). rewrite (cities_cons self Hvalid). fold S.
  set (val := λ i, ecost_add (dp_get dp (bits (0 :: S), i)).1 (edge self i 0)).
  assert (∀ i, i ∈ S → ∃ c p, dp !! (bits (0 :: S), i) = Some (Fin c, p) ∧
            val i = Fin (np_add c (edge self i 0))) as Hval.
  { intros i Hi. destruct (proj2 Hinv S i HS Hi I) as (c & p & Hdp & _).
    exists c, p. split; [done|]. unfold val, dp_get. by rewrite Hdp. }
  match goal with
  | |- context [for_each _ _ ?body] =>
      destruct (argmin_loop S (λ _, false) val body) as (mc & mp & Hr & Hmin & Harg)
  end.
  { intros mc mp x Hx%elem_of_range. rewrite getitem2_edge by (done || lia).
    simpl. fold (val x). by destruct (ecost_ltb (val x) mc). }
  rewrite Hr. simpl.
  assert (1 ∈ S) as H1 by (apply elem_of_range; lia).
  assert (mc ≠ Inf) as Hfin.
  { intros ->. destruct (Hval 1 H1) as (c & p & _ & Hv).
    specialize (Hmin 1 H1 eq_refl). by rewrite Hv in Hmin. }
  destruct Harg as [?|(Hmp & _ & Hvmp)]; [done|].
  destruct (hk_walk_spec self dp (n self) S mp Hinv HS Hmp)
    as (q & c' & p' & Hdp' & Hq & Hcq & Hwalk).
  { unfold S. rewrite length_range. lia. }
  unfold reconstruct_path_hk. rewrite Hwalk. simpl.
  destruct Hq as (q' & -> & Hq' & Hlast).
  assert (reverse ([mp] ++ tail (reverse (0 :: q'))) = 0 :: q') as Hrev.
  { apply last_Some in Hlast as (q1 & ->).
    change (0 :: q1 ++ [mp]) with ((0 :: q1) ++ [mp]).
    rewrite (reverse_app (0 :: q1)).
    change (reverse [mp]) with [mp]. cbn [app tail].
    rewrite reverse_cons, reverse_involutive. done. }
  simpl in Hrev. rewrite Hrev. eexists _, q'. split; [done|]. done.
Qed.

(** X18: the tour of [held_karp] starts at city 0. *)
Theorem held_karp_starts_at_0 (self : TSPSolver) (r : TSPResult) :
  valid self → held_karp self = Ret r → head (tour r) = Some 0.
Proof.
  intros Hv Hr. destruct (decide (n self ≤ 20)%nat) as [Hn|Hn].
  - destruct (held_karp_tour self Hv Hn) as (r' & q' & Hr' & Ht).
    rewrite Hr in Hr'. injection Hr' as <-. by rewrite Ht.
  - unfold held_karp in Hr. by rewrite bool_decide_eq_true_2 in Hr by lia.
Qed.

(** ** How the solvers compose *)

(** X19: for more than 100 cities [solve] in "auto" mode returns the result
    of [two_opt] on the tour of [nearest_neighbor]: a Hamiltonian cycle that
    starts at city 0 and costs no more than the tour of [nearest_neighbor]. *)
Theorem solve_auto_large (set_order : list Z → list Z) (self : TSPSolver) :
  (∀ l, set_order l ≡ₚ l) → valid self → (100 < n self)%nat →
  ∃ r_nn r c_nn c,
    nearest_neighbor set_order self 0 = Ret r_nn ∧
    solve set_order self "auto" = Ret r ∧
    algorithm r = "2-opt" ∧ well_formed self r ∧ head (tour r) = Some 0 ∧
    cost r_nn = Fin c_nn ∧ cost r = Fin c ∧ c ≤ c_nn.
Proof.
  intros Hperm Hv Hn.
  destruct (nearest_neighbor_Ret set_order Hperm self Hv 0 ltac:(lia))
    as (r_nn & Hnn & Hhead & _ & _ & Hham & c_nn & Hc_nn & Hcost_nn).
  destruct (two_opt_well_formed self Hv (Some (tour r_nn)) 1000 Hham) as (r & Hr & Hwf).
  destruct (two_opt_Ret self _ _ _ Hv Hr) as (c0 & c & Hc0 & _ & _ & Hc & Hle & _).
  simpl in Hc0. rewrite Hcost_nn in Hc0. injection Hc0 as <-.
  exists r_nn, r, c_nn, c. split; [done|]. split.
  { unfold solve. simpl. rewrite !bool_decide_eq_false_2 by lia.
    rewrite Hnn. simpl. done. }
  split.
  { unfold two_opt in Hr. apply bind_Ret in Hr as (? & _ & Hr).
    apply bind_Ret in Hr as ([? ?] & _ & Hr). by injection Hr as <-. }
  split; [done|]. split; [|done].
  destruct (two_opt_frame self _ _ _ Hr) as [-> _]. done.
Qed.

(** X20: for at most 15 cities, on a matrix of dtype int64 whose entries are
    so small that no sum of [n] of them overflows, [solve] in "auto" mode
    returns an optimal tour: it costs no more than any Hamiltonian cycle,
    hence no more than the result of [solve] under any other name. *)
Theorem solve_auto_optimal (set_order : list Z → list Z) (self : TSPSolver) :
  (∀ l, set_order l ≡ₚ l) → valid self →
  dtype_int64 (distance_matrix self) → no_overflow self → (n self ≤ 15)%nat →
  ∃ r c,
    solve set_order self "auto" = Ret r ∧ is_optimal r = true ∧ cost r = Fin c ∧
    (∀ t, hamiltonian self t → ∃ c_t, calculate_tour_cost self t = Ret c_t ∧ c ≤ c_t) ∧
    (∀ name r', solve set_order self name = Ret r' →
       ∃ c', cost r' = Fin c' ∧ c ≤ c').
Proof.
  intros Hperm Hv _ Hno Hn.
  destruct (held_karp_correct self Hv ltac:(lia))
    as (r & c & Hr & Hopt & _ & _ & _ & _ & Hc & _ & Hmin').
  destruct (Hmin' Hno) as [_ Hmin].
  exists r, c. split.
  { unfold solve. simpl. by rewrite bool_decide_eq_true_2. }
  split; [done|]. split; [done|]. split.
  - intros t Ht. destruct (Hmin t Ht) as [? ?]. eauto.
  - intros name r' Hr'.
    destruct (solve_well_formed set_order Hperm self Hv name r' Hr')
      as (_ & _ & Hham & c' & Hc' & Hcost).
    exists c'. split; [done|]. destruct (Hmin _ Hham) as [E Hle].
    rewrite Hcost in E. injection E as ->. done.
Qed.

(** *** Matrices with one distance *)

Lemma path_cost_uniform (self : TSPSolver) (w : Z) (p : list Z) :
  (∀ a b, 0 ≤ a < Z.of_nat (n self) → 0 ≤ b < Z.of_nat (n self) → a ≠ b →
     edge self a b = w) →
  NoDup p → Forall (λ x, 0 ≤ x < Z.of_nat (n self)) p →
  path_cost self p = Z.of_nat (length p - 1) * w.
Proof.
  intros Hw. induction p as [|a p IH]; intros Hnd Hp; [done|].
  apply NoDup_cons in Hnd as [Ha Hnd]. apply Forall_cons in Hp as [Har Hp].
  destruct p as [|b p]; [done|].
  rewrite path_cost_cons2, (IH Hnd Hp).
  apply Forall_cons in Hp as [Hbr _].
  rewrite (Hw a b) by (done || (intros ->; apply Ha; by left)).
  simpl length.
  replace (Z.of_nat (S (S (length p)) - 1)) with (Z.of_nat (S (length p) - 1) + 1) by lia.
  lia.
Qed.

(** X21: on a matrix of dtype int64 whose entries off the diagonal all equal
    [w], every Hamiltonian cycle costs [n * w] as 64 bits hold it, and so
    does the result of every solver; that is [n * w] itself when [n * w]
    fits int64. *)
Theorem uniform_matrix_cost (set_order : list Z → list Z) (self : TSPSolver) (w : Z) :
  (∀ l, set_order l ≡ₚ l) → valid self → dtype_int64 (distance_matrix self) →
  (∀ i j, (i < n self)%nat → (j < n self)%nat → i ≠ j →
     item (distance_matrix self) i j = w) →
  (∀ t, hamiltonian self t →
     calculate_tour_cost self t = Ret (int64 (Z.of_nat (n self) * w))) ∧
  (∀ name r, solve set_order self name = Ret r →
     cost r = Fin (int64 (Z.of_nat (n self) * w))) ∧
  (- 2 ^ 63 ≤ Z.of_nat (n self) * w < 2 ^ 63 →
     int64 (Z.of_nat (n self) * w) = Z.of_nat (n self) * w).
Proof.
  intros Hperm Hv _ Hw.
  pose proof (valid_inv self Hv) as (_ & _ & Hn & _).
  assert (∀ a b, 0 ≤ a < Z.of_nat (n self) → 0 ≤ b < Z.of_nat (n self) → a ≠ b →
            edge self a b = w) as Hedge.
  { intros a b Ha Hb Hab. unfold edge. apply Hw; lia. }
  assert (∀ t, hamiltonian self t →
            calculate_tour_cost self t = Ret (int64 (Z.of_nat (n self) * w))) as Hcost.
  { intros t Ht. pose proof (hamiltonian_Forall self t Ht) as Hr.
    pose proof (hamiltonian_NoDup self t Ht) as Hnd.
    pose proof (hamiltonian_length self t Ht) as Hlen.
    rewrite calculate_tour_cost_cycle by done. do 2 f_equal.
    destruct t as [|a u]; [simpl in Hlen; lia|].
    rewrite cycle_cost_cons, (path_cost_uniform self w) by done.
    destruct (last u) as [z|] eqn:E.
    - simpl default. apply last_Some_elem_of in E.
      apply NoDup_cons in Hnd as [Ha _]. apply Forall_cons in Hr as [Har Hr].
      rewrite (Hedge z a); [|apply (Forall_elem _ _ _ Hr E)|done|by intros ->].
      simpl length in *.
      replace (Z.of_nat (n self)) with (Z.of_nat (S (length u) - 1) + 1) by lia.
      lia.
    - apply last_None in E. subst u. simpl in Hlen. lia. }
  split; [done|]. split; [|apply int64_small]. intros name r Hr.
  destruct (solve_well_formed set_order Hperm self Hv name r Hr)
    as (_ & _ & Hham & c & Hc & Hcalc).
  rewrite (Hcost _ Hham) in Hcalc. injection Hcalc as <-. done.
Qed.

(** ** The length of the tour of Christofides *)

(** The triangle inequality between the cities. *)
Definition triangle_inequality (self : TSPSolver) : Prop :=
  ∀ a b c, 0 ≤ a < Z.of_nat (n self) → 0 ≤ b < Z.of_nat (n self) →
    0 ≤ c < Z.of_nat (n self) →
    edge self a c ≤ edge self a b + edge self b c.

Section Metric.

Context (self : TSPSolver) (Hvalid : valid self).
Context (Hsym : symmetric self) (Htri : triangle_inequality self).

Lemma edge_diag (a : Z) : 0 ≤ a < Z.of_nat (n self) → edge self a a = 0.
Proof.
  intros Ha. pose proof (valid_inv self Hvalid) as (_ & _ & _ & Hd).
  unfold edge. apply Hd. lia.
Qed.

Lemma edge_nonneg (a b : Z) :
  0 ≤ a < Z.of_nat (n self) → 0 ≤ b < Z.of_nat (n self) → 0 ≤ edge self a b.
Proof.
  intros Ha Hb. pose proof (Htri a b a Ha Hb Ha) as H.
  rewrite (edge_diag a Ha), (edge_symmetric self b a Hsym Hb Ha) in H. lia.
Qed.

Lemma path_cost_nonneg (p : list Z) :
  Forall (λ x, 0 ≤ x < Z.of_nat (n self)) p → 0 ≤ path_cost self p.
Proof.
  induction p as [|a p IH]; intros Hp; [done|].
  apply Forall_cons in Hp as [Ha Hp]. specialize (IH Hp).
  destruct p as [|b p]; [done|]. apply Forall_cons in Hp as [Hb _].
  rewrite path_cost_cons2. pose proof (edge_nonneg a b Ha Hb). lia.
Qed.

(** Leaving cities out of a path does not make it longer. *)
Lemma path_cost_sublist (p q : list Z) :
  p `sublist_of` q → Forall (λ x, 0 ≤ x < Z.of_nat (n self)) q →
  ∀ x, 0 ≤ x < Z.of_nat (n self) → path_cost self (x :: p) ≤ path_cost self (x :: q).
Proof.
  induction 1 as [|a p q Hsub IH|y p q Hsub IH]; intros Hq x Hx; [done| |].
  - apply Forall_cons in Hq as [Ha Hq].
    rewrite !path_cost_cons2. specialize (IH Hq a Ha). lia.
  - apply Forall_cons in Hq as [Hy Hq]. specialize (IH Hq y Hy).
    rewrite (path_cost_cons2 self x y).
    destruct p as [|a p].
    + rewrite path_cost_single.
      pose proof (edge_nonneg x y Hx Hy).
      pose proof (path_cost_nonneg (y :: q) ltac:(by constructor)). lia.
    + rewrite path_cost_cons2 in IH |- *.
      assert (0 ≤ a < Z.of_nat (n self)) as Ha.
      { apply (Forall_elem _ _ _ Hq). apply (sublist_subseteq _ _ Hsub). by left. }
      pose proof (Htri x y a Hx Hy Ha). lia.
Qed.

End Metric.

(** The steps of a walk, as a list of edges. *)
Fixpoint pairs (c : list Z) : list (Z * Z) :=
  match c with
  | a :: c' =>
      match c' with
      | b :: _ => (a, b) :: pairs c'
      | [] => []
      end
  | [] => []
  end.

(** How many edges of a list join [u] and [v]. *)
Fixpoint hits (es : list (Z * Z)) (u v : Z) : nat :=
  match es with
  | [] => 0%nat
  | e :: es' => (hit e.1 e.2 u v + hits es' u v)%nat
  end.

Lemma path_cost_pairs (self : TSPSolver) (c : list Z) :
  path_cost self c = weight self (pairs c).
Proof.
  induction c as [|a c IH]; [done|]. destruct c as [|b c]; [done|].
  rewrite path_cost_cons2, IH. change (pairs (a :: b :: c)) with ((a, b) :: pairs (b :: c)).
  by rewrite weight_cons.
Qed.

Lemma steps_pairs (c : list Z) (u v : Z) : steps c u v = hits (pairs c) u v.
Proof.
  induction c as [|a c IH]; [done|]. destruct c as [|b c]; [done|].
  rewrite steps_cons2, IH. done.
Qed.

Lemma length_pairs (c : list Z) : length (pairs c) = (length c - 1)%nat.
Proof.
  induction c as [|a c IH]; [done|]. destruct c as [|b c]; [done|].
  change (pairs (a :: b :: c)) with ((a, b) :: pairs (b :: c)).
  simpl length in *. lia.
Qed.

Lemma endpoints_pairs (c : list Z) (x : Z) : x ∈ endpoints (pairs c) → x ∈ c.
Proof.
  induction c as [|a c IH]; [done|].
  destruct c as [|b c]; [intros Hx; by apply elem_of_nil in Hx|].
  change (endpoints (pairs (a :: b :: c))) with (a :: b :: endpoints (pairs (b :: c))).
  intros [->|[->|Hx]%elem_of_cons]%elem_of_cons; [by left|right; by left|].
  right. by apply IH.
Qed.

Lemma weight_app (self : TSPSolver) (es1 es2 : list (Z * Z)) :
  weight self (es1 ++ es2) = weight self es1 + weight self es2.
Proof. unfold weight. by rewrite fmap_app, sum_app. Qed.

Lemma hits_perm (es es' : list (Z * Z)) (u v : Z) :
  es ≡ₚ es' → hits es u v = hits es' u v.
Proof. induction 1; simpl; lia. Qed.

Lemma hits_pos (es : list (Z * Z)) (u v : Z) :
  (0 < hits es u v)%nat →
  ∃ e, e ∈ es ∧ ((e.1 = u ∧ e.2 = v) ∨ (e.1 = v ∧ e.2 = u)).
Proof.
  induction es as [|e es IH]; simpl; [lia|]. intros Hpos.
  unfold hit in Hpos at 1. case_decide as He.
  - exists e. split; [by left|done].
  - destruct IH as (e' & ? & ?); [lia|]. exists e'. split; [by right|done].
Qed.

Lemma hits_none (es : list (Z * Z)) (u v : Z) :
  u ∉ endpoints es → hits es u v = 0%nat.
Proof.
  induction es as [|[a b] es IH]; [done|].
  change (endpoints ((a, b) :: es)) with (a :: b :: endpoints es).
  intros Hu. simpl. rewrite IH by set_solver.
  rewrite hit_False; [done|]. simpl. set_solver.
Qed.

Lemma hits_neighbours (es : list (Z * Z)) (u v : Z) :
  (∀ a b, (a, b) ∈ es → a ≠ b) →
  length (filter (λ y, y = v) (neighbours es u)) = hits es u v.
Proof.
  induction es as [|[a b] es IH]; intros Hloop; [done|].
  change (neighbours ((a, b) :: es) u)
    with (((if decide (a = u) then [b] else []) ++
           (if decide (b = u) then [a] else [])) ++ neighbours es u).
  rewrite !filter_app, !length_app, IH by (intros ? ? ?; apply Hloop; by right).
  simpl. f_equal.
  assert (a ≠ b) as Hab by (apply Hloop; by left).
  unfold hit. repeat case_decide; subst; simpl;
    rewrite ?filter_cons, ?filter_nil; repeat case_decide; simpl; try done;
    exfalso; intuition congruence.
Qed.

(** Two lists of edges that join every two cities equally often weigh the
    same on a symmetric matrix. *)
Lemma weight_hits (self : TSPSolver) (es1 es2 : list (Z * Z)) :
  symmetric self →
  Forall (λ x, 0 ≤ x < Z.of_nat (n self)) (endpoints es1) →
  (∀ u v, hits es1 u v = hits es2 u v) →
  weight self es1 = weight self es2.
Proof.
  intros Hsym. revert es2. induction es1 as [|[a b] es1 IH]; intros es2 Hends Hhits.
  - destruct es2 as [|e es2]; [done|].
    specialize (Hhits e.1 e.2). simpl in Hhits. rewrite hit_True in Hhits. lia.
  - change (endpoints ((a, b) :: es1)) with (a :: b :: endpoints es1) in Hends.
    apply Forall_cons in Hends as [Ha [Hb Hends]%Forall_cons].
    destruct (hits_pos es2 a b) as (e & Hin & He).
    { rewrite <- Hhits. simpl. rewrite hit_True. lia. }
    apply elem_of_Permutation in Hin as (es2' & Hp).
    rewrite (weight_perm self es2 _ Hp), !weight_cons. simpl.
    assert (edge self e.1 e.2 = edge self a b) as ->.
    { destruct He as [[-> ->]|[-> ->]]; [done|]. by apply edge_symmetric. }
    f_equal. apply IH; [done|]. intros u v.
    specialize (Hhits u v). rewrite (hits_perm es2 _ u v Hp) in Hhits.
    simpl in Hhits.
    assert (hit e.1 e.2 u v = hit a b u v) as Hh; [|lia].
    unfold hit. destruct He as [[-> ->]|[-> ->]]; [done|].
    repeat case_decide; try done; exfalso; intuition congruence.
Qed.

(** The steps of a list of cities connect its cities. *)
Lemma pairs_connected (t : list Z) (a y : Z) :
  y ∈ a :: t → rtc (link (pairs (a :: t))) a y.
Proof.
  revert a. induction t as [|b t IH]; intros a Hy.
  - apply list_elem_of_singleton in Hy as ->. done.
  - apply elem_of_cons in Hy as [->|Hy]; [done|].
    change (pairs (a :: b :: t)) with ((a, b) :: pairs (b :: t)).
    eapply rtc_l; [left; by left|].
    eapply rtc_subrel; [|exact (IH b Hy)].
    intros p q [?|?]; [left|right]; by right.
Qed.

Lemma make_hamiltonian_visited (circuit : list Z) (visited : gset Z) (t : list Z) :
  (foldl (λ '(visited, t) city,
     if bool_decide (city ∉ visited)
     then (visited ∪ {[city]}, t ++ [city])
     else (visited, t)) (visited, t) circuit).1 = visited ∪ list_to_set circuit.
Proof.
  revert visited t. induction circuit as [|c circuit IH]; intros visited t; simpl.
  - set_solver.
  - case_bool_decide as Hc; rewrite IH; set_solver.
Qed.

Lemma make_hamiltonian_snoc (circuit : list Z) (x : Z) :
  x ∈ circuit → make_hamiltonian (circuit ++ [x]) = make_hamiltonian circuit.
Proof.
  intros Hx. unfold make_hamiltonian. rewrite foldl_app. simpl.
  pose proof (make_hamiltonian_visited circuit ∅ []) as Hvis.
  destruct (foldl _ _ circuit) as [visited t]. simpl in *.
  rewrite bool_decide_eq_false_2; [done|]. intros Hn. apply Hn. set_solver.
Qed.

(** The shortcut of a closed walk from city 0, closed again, is a
    subsequence of the walk. *)
Lemma make_hamiltonian_closed (circuit : list Z) :
  head circuit = Some 0 → last circuit = Some 0 → (2 ≤ length circuit)%nat →
  ∃ s c', make_hamiltonian circuit = 0 :: s ∧ circuit = 0 :: c' ∧
          s ++ [0] `sublist_of` c'.
Proof.
  intros Hh Hl Hlen. apply last_Some in Hl as (c1 & ->).
  destruct c1 as [|z c1]; [simpl in Hlen; lia|].
  simpl in Hh. injection Hh as ->.
  rewrite make_hamiltonian_snoc by (by left).
  unfold make_hamiltonian. simpl.
  rewrite bool_decide_eq_true_2 by set_solver.
  destruct (make_hamiltonian_gen c1 (∅ ∪ {[0]}) [0]) as (s & -> & Hsub & _).
  - apply NoDup_singleton.
  - set_solver.
  - exists s, (c1 ++ [0]). split; [done|]. split; [done|].
    by apply sublist_app.
Qed.

(** X22: on a symmetric matrix of dtype int64 with the triangle inequality,
    whose entries are so small that no sum of [n] of them overflows, the tour
    of [christofides] costs at most the weight of the spanning tree plus the
    weight of the matching, and the tree weighs at most the cost of any
    Hamiltonian cycle: the tour is longer than a shortest tour by at most the
    weight of the greedy matching. *)
Theorem christofides_tree_plus_matching (set_order : list Z → list Z)
    (self : TSPSolver) :
  (∀ l, set_order l ≡ₚ l) → valid self →
  dtype_int64 (distance_matrix self) → no_overflow self →
  symmetric self → triangle_inequality self →
  ∃ mst odd_vertices matching r c,
    compute_mst self = Ret mst ∧
    find_odd_degree_vertices self mst = Ret odd_vertices ∧
    min_weight_matching set_order self odd_vertices = Ret matching ∧
    christofides set_order self = Ret r ∧ cost r = Fin c ∧
    c ≤ weight self mst + weight self matching ∧
    ∀ t c_t, hamiltonian self t → calculate_tour_cost self t = Ret c_t →
      weight self mst ≤ c_t ∧ c ≤ c_t + weight self matching.
Proof.
  intros Hperm Hv _ Hno Hsym Htri.
  pose proof (valid_inv self Hv) as (_ & _ & Hn & _).
  destruct (christofides_trace set_order self Hperm Hv)
    as (mst & odd & matching & g & circuit & r & Hmst & Hodd & Hmat & Hg & Hcirc & Hr &
        Htour & Hwf & Hpm & Hpmat & Hadj & _ & _ & Hhead & Hlast & Hsteps & Hall).
  destruct Hwf as (_ & _ & Hham & c & Hc & Hcost).
  assert (c ≤ weight self mst + weight self matching) as Hbound.
  { (* the tour against the circuit *)
    assert (2 ≤ length circuit)%nat as Hlen.
    { assert (0 ∈ circuit) as H0 by (apply Hall; lia).
      assert (1 ∈ circuit) as H1 by (apply Hall; lia).
      destruct circuit as [|x [|y l]]; simpl; [by apply elem_of_nil in H0| |lia].
      apply list_elem_of_singleton in H0, H1. congruence. }
    destruct (make_hamiltonian_closed circuit Hhead Hlast Hlen)
      as (s & c' & Hmh & -> & Hsub).
    rewrite Htour, Hmh in Hcost, Hham.
    rewrite calculate_tour_cost_exact in Hcost
      by (done || (by apply hamiltonian_Forall) ||
          by rewrite (hamiltonian_length self _ Hham)).
    injection Hcost as <-.
    assert (Forall (λ x, 0 ≤ x < Z.of_nat (n self)) (0 :: c')) as Hcr.
    { apply Forall_forall. intros x Hx. by apply Hall. }
    change (cycle_cost self (0 :: s)) with (path_cost self (0 :: s ++ [0])).
    etransitivity.
    { apply (path_cost_sublist self Hv Hsym Htri _ c' Hsub);
        [by apply Forall_cons in Hcr as [_ ?]|lia]. }
    (* the circuit against the edges *)
    rewrite path_cost_pairs, <- weight_app. apply Z.eq_le_incl.
    apply weight_hits; [done| |].
    - apply Forall_forall. intros x Hx%endpoints_pairs.
      apply (Forall_elem _ _ _ Hcr Hx).
    - intros u v. rewrite <- steps_pairs.
      assert (∀ a b, (a, b) ∈ mst ++ matching → a ≠ b) as Hloop.
      { intros a b [Hin|Hin]%elem_of_app; [by apply Hpm in Hin as (_ & _ & ?)|].
        by apply Hpmat in Hin as (_ & _ & ?). }
      destruct (decide (0 ≤ u < Z.of_nat (n self))) as [Hu|Hu].
      + rewrite Hsteps by by apply Hall.
        unfold mult, adj. rewrite Hadj, decide_True by done. simpl.
        by apply hits_neighbours.
      + rewrite steps_pairs, !hits_none; [done| |].
        * intros Hin. apply Hu. unfold endpoints in Hin.
          apply list_elem_of_bind in Hin as ([a b] & Hx & Hin). simpl in Hx.
          apply elem_of_app in Hin as [Hin|Hin];
            [apply Hpm in Hin as (? & ? & _)|apply Hpmat in Hin as (? & ? & _)];
            set_solver.
        * intros Hin%endpoints_pairs. apply Hu. by apply Hall. }
  exists mst, odd, matching, r, c. split_and!; try done.
  intros t c_t Ht Hct.
  assert (weight self mst ≤ c_t); [|lia].
  destruct (compute_mst_least self Hv Hsym) as (mst' & Hmst' & _ & Hmin).
  rewrite Hmst in Hmst'. injection Hmst' as <-.
  pose proof (hamiltonian_Forall self t Ht) as Htr.
  rewrite calculate_tour_cost_exact in Hct
    by (done || by rewrite (hamiltonian_length self _ Ht)).
  injection Hct as <-.
  destruct t as [|a u].
  { apply hamiltonian_length in Ht. simpl in Ht. lia. }
  etransitivity; [apply (Hmin (pairs (a :: u)))|].
  - split; [|split].
    + rewrite length_pairs. by rewrite (hamiltonian_length self _ Ht).
    + apply Forall_forall. intros x Hx%endpoints_pairs.
      apply (Forall_elem _ _ _ Htr Hx).
    + intros y Hy.
      assert (0 ∈ a :: u) as H0 by (rewrite Ht; apply elem_of_cities; lia).
      assert (y ∈ a :: u) as Hyin by (rewrite Ht; by apply elem_of_cities).
      transitivity a; [apply rtc_link_sym|]; by apply pairs_connected.
  - rewrite <- path_cost_pairs, cycle_cost_cons.
    apply Forall_cons in Htr as [Ha Hu].
    assert (0 ≤ default a (last u) < Z.of_nat (n self)) as Hl.
    { destruct (last u) as [z|] eqn:E; [|done]. simpl.
      apply last_Some_elem_of in E. apply (Forall_elem _ _ _ Hu E). }
    pose proof (edge_nonneg self Hv Hsym Htri _ a Hl Ha). lia.
Qed.

(** * Instances

    The matrices of the test suite and of the scenarios of the
    specification, on which the theorems are instantiated. *)

Definition m2 : ndarray := np_array [[0; 10]; [10; 0]].
Definition s2 : TSPSolver := {| distance_matrix := m2; n := 2 |}.

Definition m4 : ndarray :=
  np_array [[0; 10; 15; 20]; [10; 0; 35; 25]; [15; 35; 0; 30]; [20; 25; 30; 0]].
Definition s4 : TSPSolver := {| distance_matrix := m4; n := 4 |}.

Definition m5 : ndarray :=
  np_array [[0; 10; 15; 20; 25]; [10; 0; 35; 25; 30]; [15; 35; 0; 30; 20];
            [20; 25; 30; 0; 15]; [25; 30; 20; 15; 0]].
Definition s5 : TSPSolver := {| distance_matrix := m5; n := 5 |}.

(** All off-diagonal entries equal to 10. *)
Definition uniform (k : nat) : ndarray :=
  {| shape0 := k; shape1 := k; item := λ i j, if decide (i = j) then 0 else 10 |}.
Definition s25 : TSPSolver := {| distance_matrix := uniform 25; n := 25 |}.

(** Python's sets of small integers iterate in increasing order; the list
    that models the set is kept in that order. *)
Definition in_order (l : list Z) : list Z := l.

Lemma in_order_perm (l : list Z) : in_order l ≡ₚ l.
Proof. done. Qed.

Lemma valid_s2 : valid s2.
Proof. exists m2. reflexivity. Qed.

Lemma valid_s4 : valid s4.
Proof. exists m4. reflexivity. Qed.

Lemma valid_s5 : valid s5.
Proof. exists m5. reflexivity. Qed.

Lemma valid_s25 : valid s25.
Proof. exists (uniform 25). reflexivity. Qed.

Lemma valid_s_asym : valid s_asym.
Proof. exists m_asym. reflexivity. Qed.

Lemma dtype_int64_s4 : dtype_int64 m4.
Proof.
  intros i j _ _.
  destruct i as [|[|[|[|i]]]]; destruct j as [|[|[|[|j]]]]; by vm_compute.
Qed.

Lemma dtype_int64_s5 : dtype_int64 m5.
Proof.
  intros i j _ _.
  destruct i as [|[|[|[|[|i]]]]]; destruct j as [|[|[|[|[|j]]]]]; by vm_compute.
Qed.

Lemma dtype_int64_s25 : dtype_int64 (uniform 25).
Proof. intros i j _ _. simpl. case_decide; by vm_compute. Qed.

(** No entry of the matrices of the test suite exceeds 35. *)
Lemma no_overflow_s4 : no_overflow s4.
Proof.
  exists 35. split; [done|]. intros i j _ _.
  destruct i as [|[|[|[|i]]]]; destruct j as [|[|[|[|j]]]]; by vm_compute.
Qed.

Lemma no_overflow_s5 : no_overflow s5.
Proof.
  exists 35. split; [done|]. intros i j _ _.
  destruct i as [|[|[|[|[|i]]]]]; destruct j as [|[|[|[|[|j]]]]]; by vm_compute.
Qed.



(** Scenario 1 of the specification: the tour 0, 1, 2, 3 costs 95. *)
Example tour_cost_m4 : calculate_tour_cost s4 [0; 1; 2; 3] = Ret 95.
Proof. reflexivity. Qed.

(** Scenario 2: the exact solver on the five cities is optimal and beats the
    identity tour. *)
Example held_karp_m5 :
  held_karp s5 =
  Ret {| tour := [0; 2; 4; 3; 1]; cost := Fin 85; algorithm := "Held-Karp (Exact DP)";
         num_cities := 5; is_optimal := true; approximation_ratio := None |} ∧
  calculate_tour_cost s5 [0; 1; 2; 3; 4] = Ret 115.
Proof. split; by vm_compute. Qed.

(** Scenario 3: nearest neighbour on two cities costs 20. *)
Example nearest_neighbor_m2 :
  nearest_neighbor in_order s2 0 =
  Ret {| tour := [0; 1]; cost := Fin 20; algorithm := "Nearest Neighbor";
         num_cities := 2; is_optimal := false; approximation_ratio := None |}.
Proof. reflexivity. Qed.

(** * The theorems at the instances *)


Lemma results_well_formed_witness :
  (∀ r, held_karp s5 = Ret r → well_formed s5 r) ∧
  (∀ start, 0 ≤ start < Z.of_nat (n s5) →
     ∃ r, nearest_neighbor in_order s5 start = Ret r ∧ well_formed s5 r) ∧
  (∃ r, christofides in_order s5 = Ret r ∧ well_formed s5 r) ∧
  (∀ initial_tour k, hamiltonian s5 (initial s5 initial_tour) →
     ∃ r, two_opt s5 initial_tour k = Ret r ∧ well_formed s5 r) ∧
  (∃ r, two_opt s5 None 1000 = Ret r ∧ well_formed s5 r) ∧
  (∀ name r, solve in_order s5 name = Ret r → well_formed s5 r).
Proof.
  apply (results_well_formed in_order s5); [intros l; reflexivity|].
  exists m5; reflexivity.
Defined.

Lemma two_opt_never_worsens_witness :
  ∃ r r' c c',
    two_opt s5 None 0 = Ret r ∧ cost r = Fin c ∧
    two_opt s5 None 1000 = Ret r' ∧ cost r' = Fin c' ∧
    c' ≤ c ∧ c ≤ 115.
Proof.
  apply (two_opt_never_worsens s5 None 0 1000 115);
    [exists m5; reflexivity|reflexivity|lia].
Defined.

Lemma held_karp_capacity_witness :
  (held_karp s25 =
     Raise (ValueError "Held-Karp: Too many cities (max 20 for practical computation)") ∧
   ∀ dm, held_karp {| distance_matrix := dm; n := n s25 |} = held_karp s25) ∧
  ∃ r, held_karp s4 = Ret r ∧ is_optimal r = true.
Proof.
  split.
  - destruct (held_karp_capacity s25) as [Hraise _];
      [exists (uniform 25); reflexivity|].
    apply Hraise. simpl. lia.
  - destruct (held_karp_capacity s4) as [_ Hret]; [exists m4; reflexivity|].
    apply Hret. simpl. lia.
Defined.

Lemma solve_dispatch_witness :
  solve in_order s5 "auto" = held_karp s5 ∧
  solve in_order s25 "auto" = christofides in_order s25 ∧
  solve in_order s5 "2-opt" = two_opt s5 None 1000 ∧
  solve in_order s5 "genetic" = Raise (ValueError "Unknown algorithm: genetic").
Proof.
  split; [|split; [|split]].
  - destruct (solve_dispatch in_order s5 "auto") as [Hauto _].
    destruct (Hauto eq_refl) as (Hsmall & _). apply Hsmall. simpl. lia.
  - destruct (solve_dispatch in_order s25 "auto") as [Hauto _].
    destruct (Hauto eq_refl) as (_ & Hmedium & _). apply Hmedium. simpl. lia.
  - destruct (solve_dispatch in_order s5 "2-opt") as (_ & _ & _ & _ & H2opt & _).
    apply H2opt. reflexivity.
  - destruct (solve_dispatch in_order s5 "genetic") as (_ & _ & _ & _ & _ & Hother).
    apply Hother. vm_compute. intros Hin.
    repeat (apply elem_of_cons in Hin as [Hin|Hin]; [discriminate Hin|]).
    by apply elem_of_nil in Hin.
Defined.

Lemma two_opt_first_improvement_witness :
  ∃ r, two_opt s_asym None 1000 = Ret r ∧
       tour r = local_search s_asym (position_pairs 1 (n s_asym)) (Z.to_nat 1000)
                  (initial s_asym None) ∧
       cost r = Fin (tour_cost s_asym (tour r)).
Proof.
  apply (two_opt_first_improvement s_asym None 1000); [exists m_asym; reflexivity|].
  repeat constructor; unfold in_bounds; simpl; lia.
Defined.


Lemma init_validates_witness :
  init (np_array [[1; 2]; [3; 4]; [5; 6]])
    = Raise (ValueError "Distance matrix must be square") ∧
  init (np_array [[0]]) = Raise (ValueError "Need at least 2 cities") ∧
  init (np_array [[5; 10; 15; 20]; [10; 0; 35; 25]; [15; 35; 0; 30]; [20; 25; 30; 0]])
    = Raise (ValueError "Diagonal elements must be zero") ∧
  init m4 = Ret s4.
Proof.
  split; [|split; [|split]].
  - apply (init_validates (np_array [[1; 2]; [3; 4]; [5; 6]])). simpl. lia.
  - apply (init_validates (np_array [[0]])); [reflexivity|simpl; lia].
  - apply (init_validates
      (np_array [[5; 10; 15; 20]; [10; 0; 35; 25]; [15; 35; 0; 30]; [20; 25; 30; 0]]));
      [reflexivity|simpl; lia|].
    exists 0%nat. simpl. split; [lia|done].
  - apply (init_validates m4); [reflexivity|simpl; lia|].
    intros i Hi. simpl in Hi.
    destruct i as [|[|[|[|i]]]]; [reflexivity..|lia].
Defined.

Lemma nearest_neighbor_start_witness :
  (∃ r, nearest_neighbor in_order s5 2 = Ret r ∧ head (tour r) = Some 2) ∧
  (nearest_neighbor in_order s5 5 = Raise KeyError ∧
   ∀ msg, nearest_neighbor in_order s5 5 ≠ Raise (ValueError msg)) ∧
  (nearest_neighbor in_order s5 (-1) = Raise KeyError ∧
   ∀ msg, nearest_neighbor in_order s5 (-1) ≠ Raise (ValueError msg)).
Proof.
  split; [|split].
  - apply (nearest_neighbor_start in_order s5 2);
      [intros l; reflexivity|exists m5; reflexivity|simpl; lia].
  - apply (nearest_neighbor_start in_order s5 5);
      [intros l; reflexivity|exists m5; reflexivity|simpl; lia].
  - apply (nearest_neighbor_start in_order s5 (-1));
      [intros l; reflexivity|exists m5; reflexivity|simpl; lia].
Defined.

Lemma two_opt_keeps_initial_tour_witness :
  ∃ h' t r,
    two_opt_st s5 {[ 7%nat := [3; 1; 1; 0] ]} (Some 7%nat) 5 = Ret (h', t, r) ∧
    two_opt s5 (Some [3; 1; 1; 0]) 5 = Ret r ∧
    h' !! 7%nat = Some [3; 1; 1; 0] ∧
    ({[ 7%nat := [3; 1; 1; 0] ]} : gmap nat (list Z)) ⊆ h' ∧
    t ≠ 7%nat ∧
    ({[ 7%nat := [3; 1; 1; 0] ]} : gmap nat (list Z)) !! t = None ∧
    h' !! t = Some (tour r) ∧
    reversals [3; 1; 1; 0] (tour r) ∧ tour r ≡ₚ [3; 1; 1; 0].
Proof.
  apply (two_opt_keeps_initial_tour s5 {[ 7%nat := [3; 1; 1; 0] ]} 7 [3; 1; 1; 0] 5);
    [exists m5; reflexivity|reflexivity|].
  repeat constructor; unfold in_bounds; simpl; lia.
Defined.

(** * Further instances *)

(** Four cities on a line, at 0, 3, 7 and 12: a symmetric matrix with the
    triangle inequality. *)
Definition m_line : ndarray :=
  np_array [[0; 3; 7; 12]; [3; 0; 4; 9]; [7; 4; 0; 5]; [12; 9; 5; 0]].
Definition s_line : TSPSolver := {| distance_matrix := m_line; n := 4 |}.

(** More cities than the largest instance that [solve] gives to
    [christofides]. *)
Definition s101 : TSPSolver := {| distance_matrix := uniform 101; n := 101 |}.

Lemma valid_s_line : valid s_line.
Proof. exists m_line. reflexivity. Qed.

Lemma valid_s101 : valid s101.
Proof. exists (uniform 101). by vm_compute. Qed.

Lemma dtype_int64_s_wrap : dtype_int64 m_wrap.
Proof.
  intros i j _ _.
  destruct i as [|[|[|i]]]; destruct j as [|[|[|j]]]; by vm_compute.
Qed.

Lemma dtype_int64_s_line : dtype_int64 m_line.
Proof.
  intros i j _ _.
  destruct i as [|[|[|[|i]]]]; destruct j as [|[|[|[|j]]]]; by vm_compute.
Qed.

Lemma no_overflow_s_line : no_overflow s_line.
Proof.
  exists 12. split; [done|]. intros i j _ _.
  destruct i as [|[|[|[|i]]]]; destruct j as [|[|[|[|j]]]]; by vm_compute.
Qed.

Lemma symmetric_s4 : symmetric s4.
Proof.
  intros i j Hi Hj. simpl in Hi, Hj.
  destruct i as [|[|[|[|i]]]]; [..|lia];
    destruct j as [|[|[|[|j]]]]; try reflexivity; lia.
Qed.

Lemma symmetric_s_line : symmetric s_line.
Proof.
  intros i j Hi Hj. simpl in Hi, Hj.
  destruct i as [|[|[|[|i]]]]; [..|lia];
    destruct j as [|[|[|[|j]]]]; try reflexivity; lia.
Qed.

Lemma triangle_inequality_s_line : triangle_inequality s_line.
Proof.
  intros a b c Ha Hb Hc. simpl in Ha, Hb, Hc.
  assert (a = 0 ∨ a = 1 ∨ a = 2 ∨ a = 3) as [->|[->|[->| ->]]] by lia;
    assert (b = 0 ∨ b = 1 ∨ b = 2 ∨ b = 3) as [->|[->|[->| ->]]] by lia;
    assert (c = 0 ∨ c = 1 ∨ c = 2 ∨ c = 3) as [->|[->|[->| ->]]] by lia;
    by vm_compute.
Qed.

(** * The further theorems at the instances *)

Lemma calculate_tour_cost_spec_witness :
  calculate_tour_cost s_wrap [0; -2] =
    Ret (int64 (cycle_cost s_wrap (city s_wrap <$> [0; -2]))) ∧
  calculate_tour_cost s4 [0; -1; 2] = Ret (cycle_cost s4 (city s4 <$> [0; -1; 2])) ∧
  calculate_tour_cost s4 [0; 4] = Raise IndexError ∧
  calculate_tour_cost s4 [] = Ret 0.
Proof.
  split; [|split; [|split]].
  - destruct (calculate_tour_cost_spec s_wrap [0; -2]) as [H _];
      [exists m_wrap; reflexivity|exact dtype_int64_s_wrap|].
    apply H. repeat constructor; unfold in_bounds; simpl; lia.
  - destruct (calculate_tour_cost_spec s4 [0; -1; 2]) as (_ & H & _);
      [exists m4; reflexivity|exact dtype_int64_s4|].
    apply H; [exact no_overflow_s4| |simpl; lia].
    repeat constructor; unfold in_bounds; simpl; lia.
  - destruct (calculate_tour_cost_spec s4 [0; 4]) as (_ & _ & H & _);
      [exists m4; reflexivity|exact dtype_int64_s4|].
    apply H. intros [_ [H4 _]%Forall_cons]%Forall_cons.
    unfold in_bounds in H4. simpl in H4. lia.
  - destruct (calculate_tour_cost_spec s4 []) as (_ & _ & _ & H);
      [exists m4; reflexivity|exact dtype_int64_s4|].
    exact H.
Defined.

Lemma calculate_tour_cost_rotate_witness :
  calculate_tour_cost s4 ([0; 1] ++ [2; 3]) = calculate_tour_cost s4 ([2; 3] ++ [0; 1]).
Proof.
  apply (calculate_tour_cost_rotate s4 [0; 1] [2; 3]);
    [exists m4; reflexivity|exact dtype_int64_s4].
Defined.

Lemma calculate_tour_cost_reverse_witness :
  calculate_tour_cost s4 (reverse [0; 2; 1; 3]) = calculate_tour_cost s4 [0; 2; 1; 3].
Proof.
  apply (calculate_tour_cost_reverse s4 [0; 2; 1; 3]);
    [exists m4; reflexivity|exact dtype_int64_s4|exact symmetric_s4].
Defined.

Lemma validation_ignores_off_diagonal_witness :
  init m_asym = match init m4 with
                | Ret _ => Ret {| distance_matrix := m_asym; n := shape0 m_asym |}
                | Raise e => Raise e
                | OutOfFuel => OutOfFuel
                end.
Proof.
  apply (validation_ignores_off_diagonal m4 m_asym); [reflexivity|reflexivity|].
  intros i _. destruct i as [|[|[|[|i]]]]; reflexivity.
Defined.

Lemma nearest_neighbor_greedy_witness :
  ∃ r, nearest_neighbor in_order s5 0 = Ret r ∧
    ∀ p a b q, tour r = p ++ a :: b :: q →
      ∀ x, x ∈ b :: q → edge s5 a b ≤ edge s5 a x.
Proof.
  apply (nearest_neighbor_greedy in_order s5 0);
    [intros l; reflexivity|exists m5; reflexivity|simpl; lia].
Defined.

Lemma two_opt_keeps_first_city_witness :
  ∃ r, two_opt s5 (Some [3; 1; 4; 0; 2]) 10 = Ret r ∧
    head (tour r) = Some 3 ∧ drop 5 (tour r) = [].
Proof.
  eexists. split; [by vm_compute|].
  apply (two_opt_keeps_first_city s5 (Some [3; 1; 4; 0; 2]) 10). by vm_compute.
Defined.

Lemma two_opt_converges_witness :
  ∃ K r c, (∀ k, K ≤ k → two_opt s5 None k = Ret r) ∧
    cost r = Fin c ∧ calculate_tour_cost s5 (tour r) = Ret c ∧
    ∀ i j c', 1 ≤ i → i < j < Z.of_nat (n s5) →
      calculate_tour_cost s5 (reverse_segment (tour r) i j) = Ret c' → c ≤ c'.
Proof.
  apply (two_opt_converges s5 None); [exists m5; reflexivity|].
  apply Forall_forall. intros x Hx%elem_of_range. unfold in_bounds. simpl in *. lia.
Defined.

Lemma two_opt_returns_initial_witness :
  two_opt s5 None 0 =
    Ret {| tour := initial s5 None; cost := Fin 115; algorithm := "2-opt";
           num_cities := n s5; is_optimal := false; approximation_ratio := None |}.
Proof.
  apply (two_opt_returns_initial s5 None 0 115);
    [exists m5; reflexivity|reflexivity|left; lia].
Defined.

Lemma find_odd_degree_vertices_exact_witness :
  (find_odd_degree_vertices s4 [(0, 1); (0, 2); (0, 3)] =
     Ret (filter (λ i, Z.of_nat (degree_of s4 [(0, 1); (0, 2); (0, 3)] i) `mod` 2 = 1)
            (range 0 (Z.of_nat (n s4)))) ∧
   ∃ k, length (filter (λ i, Z.of_nat (degree_of s4 [(0, 1); (0, 2); (0, 3)] i) `mod` 2 = 1)
                  (range 0 (Z.of_nat (n s4)))) = (2 * k)%nat) ∧
  find_odd_degree_vertices s4 [(0, 7)] = Raise IndexError.
Proof.
  split.
  - destruct (find_odd_degree_vertices_exact s4 [(0, 1); (0, 2); (0, 3)]) as [H _];
      [exists m4; reflexivity|].
    apply H. repeat constructor; unfold in_bounds; simpl; lia.
  - destruct (find_odd_degree_vertices_exact s4 [(0, 7)]) as [_ H];
      [exists m4; reflexivity|].
    apply H. intros [_ [H7 _]%Forall_cons]%Forall_cons.
    unfold in_bounds in H7. simpl in H7. lia.
Defined.

Lemma min_weight_matching_perfect_witness :
  (∃ m, min_weight_matching in_order s4 [0; 1; 2; 3] = Ret m ∧
        length m = 2%nat ∧ endpoints m ≡ₚ remove_dups [0; 1; 2; 3] ∧
        greedy_pairs s4 m) ∧
  (∃ msg, min_weight_matching in_order s4 [0; 1; 2] = Raise (ValueError msg)).
Proof.
  split.
  - destruct (min_weight_matching_perfect in_order s4 [0; 1; 2; 3]) as [H _];
      [intros l; reflexivity|exists m4; reflexivity| |].
    + repeat constructor; simpl; lia.
    + apply (H 2%nat). reflexivity.
  - destruct (min_weight_matching_perfect in_order s4 [0; 1; 2]) as [_ H];
      [intros l; reflexivity|exists m4; reflexivity| |].
    + repeat constructor; simpl; lia.
    + apply (H 1%nat). reflexivity.
Defined.

Lemma combine_mst_matching_adjacency_witness :
  (∃ g, combine_mst_matching s4 [(0, 1); (0, 2); (0, 3)] [(1, 2)] = Ret g ∧
        ∀ u, g !! u = if decide (0 ≤ u < Z.of_nat (n s4))
                      then Some (neighbours ([(0, 1); (0, 2); (0, 3)] ++ [(1, 2)]) u)
                      else None) ∧
  combine_mst_matching s4 [(0, 9)] [] = Raise KeyError.
Proof.
  split.
  - destruct (combine_mst_matching_adjacency s4 [(0, 1); (0, 2); (0, 3)] [(1, 2)])
      as [H _].
    apply H. repeat constructor; simpl; lia.
  - destruct (combine_mst_matching_adjacency s4 [(0, 9)] []) as [_ H].
    apply H. intros [_ [H9 _]%Forall_cons]%Forall_cons. simpl in H9. lia.
Defined.

Lemma compute_mst_prim_witness :
  ∃ mst, compute_mst s4 = Ret mst ∧
    length mst = (n s4 - 1)%nat ∧
    prim_steps s4 {[ 0 ]} mst ∧
    ∀ x, x ∈ reached {[ 0 ]} mst ↔ 0 ≤ x < Z.of_nat (n s4).
Proof. apply (compute_mst_prim s4). exists m4; reflexivity. Defined.

Lemma compute_mst_minimum_witness :
  ∃ mst, compute_mst s4 = Ret mst ∧ spanning_tree s4 mst ∧
    ∀ es, spanning_tree s4 es → weight s4 mst ≤ weight s4 es.
Proof.
  apply (compute_mst_minimum s4); [exists m4; reflexivity|exact symmetric_s4].
Defined.

Lemma find_eulerian_circuit_eulerian_witness :
  ∃ g circuit,
    combine_mst_matching s4 [(0, 1); (1, 2); (2, 3)] [(3, 0)] = Ret g ∧
    find_eulerian_circuit g = Ret circuit ∧
    head circuit = Some 0 ∧ last circuit = Some 0 ∧
    (∀ u v, u ∈ circuit → steps circuit u v = mult g u v) ∧
    (∀ u v, v ∈ adj g u → u ∈ circuit → v ∈ circuit).
Proof.
  assert (proper_edges s4 [(0, 1); (1, 2); (2, 3)]) as Hmst.
  { intros u v Hin.
    repeat (apply elem_of_cons in Hin as [[= -> ->]|Hin]; [simpl; lia|]).
    by apply elem_of_nil in Hin. }
  assert (proper_edges s4 [(3, 0)]) as Hmat.
  { intros u v Hin.
    repeat (apply elem_of_cons in Hin as [[= -> ->]|Hin]; [simpl; lia|]).
    by apply elem_of_nil in Hin. }
  destruct (combine_mst_matching_spec s4 valid_s4 _ _ Hmst Hmat) as (g & Hg & Hmulti & _).
  destruct (combine_mst_matching_neighbours s4 [(0, 1); (1, 2); (2, 3)] [(3, 0)])
    as [Hadj _].
  destruct Hadj as (g' & Hg' & Hadj); [repeat constructor; simpl; lia|].
  rewrite Hg in Hg'. injection Hg' as <-.
  exists g.
  destruct (find_eulerian_circuit_eulerian s4 g valid_s4 Hmulti) as (circuit & H).
  - intros x. unfold adj. rewrite Hadj. simpl.
    case_decide as Hx; [|by exists 0%nat].
    assert (x = 0 ∨ x = 1 ∨ x = 2 ∨ x = 3) as [->|[->|[->| ->]]] by lia;
      by exists 1%nat.
  - exists circuit. split; [done|exact H].
Defined.

Lemma christofides_pipeline_witness :
  ∃ mst odd_vertices matching g circuit r,
    compute_mst s5 = Ret mst ∧
    find_odd_degree_vertices s5 mst = Ret odd_vertices ∧
    min_weight_matching in_order s5 odd_vertices = Ret matching ∧
    combine_mst_matching s5 mst matching = Ret g ∧
    find_eulerian_circuit g = Ret circuit ∧
    christofides in_order s5 = Ret r ∧
    tour r = make_hamiltonian circuit ∧
    endpoints matching ≡ₚ odd_vertices ∧
    (∀ x, Nat.Even (length (adj g x))) ∧
    head circuit = Some 0 ∧ last circuit = Some 0 ∧
    (∀ u v, 0 ≤ u < Z.of_nat (n s5) → steps circuit u v = mult g u v) ∧
    head (tour r) = Some 0.
Proof.
  apply (christofides_pipeline in_order s5); [intros l; reflexivity|].
  exists m5; reflexivity.
Defined.

Lemma hk_table_optimal_paths_witness :
  ∃ dp, hk_table s4 = Ret dp ∧
    dp !! (1, 0) = Some (Fin 0, -1) ∧
    ∀ s e, subset_ok s4 s → e ∈ s →
      ∃ c prev q,
        dp !! (bits (0 :: s), e) = Some (Fin c, prev) ∧
        zero_path s e q ∧ c = int64 (path_cost s4 q) ∧
        (no_overflow s4 →
           c = path_cost s4 q ∧ ∀ q', zero_path s e q' → c ≤ path_cost s4 q').
Proof.
  apply (hk_table_optimal_paths s4); [exists m4; reflexivity|exact dtype_int64_s4].
Defined.

Lemma held_karp_starts_at_0_witness :
  ∃ r, held_karp s4 = Ret r ∧ head (tour r) = Some 0.
Proof.
  eexists. split; [by vm_compute|].
  apply (held_karp_starts_at_0 s4); [exists m4; reflexivity|by vm_compute].
Defined.

Lemma solve_auto_large_witness :
  ∃ r_nn r c_nn c,
    nearest_neighbor in_order s101 0 = Ret r_nn ∧
    solve in_order s101 "auto" = Ret r ∧
    algorithm r = "2-opt" ∧ well_formed s101 r ∧ head (tour r) = Some 0 ∧
    cost r_nn = Fin c_nn ∧ cost r = Fin c ∧ c ≤ c_nn.
Proof.
  apply (solve_auto_large in_order s101);
    [intros l; reflexivity|exists (uniform 101); by vm_compute|simpl; lia].
Defined.

Lemma solve_auto_optimal_witness :
  ∃ r c,
    solve in_order s5 "auto" = Ret r ∧ is_optimal r = true ∧ cost r = Fin c ∧
    (∀ t, hamiltonian s5 t → ∃ c_t, calculate_tour_cost s5 t = Ret c_t ∧ c ≤ c_t) ∧
    (∀ name r', solve in_order s5 name = Ret r' →
       ∃ c', cost r' = Fin c' ∧ c ≤ c').
Proof.
  apply (solve_auto_optimal in_order s5);
    [intros l; reflexivity|exists m5; reflexivity|exact dtype_int64_s5|
     exact no_overflow_s5|simpl; lia].
Defined.

Lemma uniform_matrix_cost_witness :
  (∀ t, hamiltonian s25 t →
     calculate_tour_cost s25 t = Ret (int64 (Z.of_nat (n s25) * 10))) ∧
  (∀ name r, solve in_order s25 name = Ret r →
     cost r = Fin (int64 (Z.of_nat (n s25) * 10))) ∧
  (- 2 ^ 63 ≤ Z.of_nat (n s25) * 10 < 2 ^ 63 →
     int64 (Z.of_nat (n s25) * 10) = Z.of_nat (n s25) * 10).
Proof.
  apply (uniform_matrix_cost in_order s25 10);
    [intros l; reflexivity|exists (uniform 25); reflexivity|exact dtype_int64_s25|].
  intros i j _ _ Hij. simpl. by rewrite decide_False.
Defined.

Lemma christofides_tree_plus_matching_witness :
  ∃ mst odd_vertices matching r c,
    compute_mst s_line = Ret mst ∧
    find_odd_degree_vertices s_line mst = Ret odd_vertices ∧
    min_weight_matching in_order s_line odd_vertices = Ret matching ∧
    christofides in_order s_line = Ret r ∧ cost r = Fin c ∧
    c ≤ weight s_line mst + weight s_line matching ∧
    ∀ t c_t, hamiltonian s_line t → calculate_tour_cost s_line t = Ret c_t →
      weight s_line mst ≤ c_t ∧ c ≤ c_t + weight s_line matching.
Proof.
  apply (christofides_tree_plus_matching in_order s_line);
    [intros l; reflexivity|exists m_line; reflexivity|exact dtype_int64_s_line|
     exact no_overflow_s_line|exact symmetric_s_line|
     exact triangle_inequality_s_line].
Defined.
